(** * nodecast-tv: stream acquisition and resilience engine

  A shallow embedding of the audio-transcode route of the server
  ([router.get('/')] of the transcode router) and of the browser-side
  [VideoPlayer] component ([play], [stop], the hls.js event handlers,
  [getProxiedUrl], [getTranscodeUrl]), with the properties the
  specification states about them. *)

From Stdlib Require Import ZArith Zbitwise List String Ascii Bool Lia QArith.
Import ListNotations.
Local Open Scope Z_scope.

(** ** JavaScript strings

  A JavaScript string is a sequence of UTF-16 code units.  Literals of
  the source are ASCII and are written with [lit]. *)
Module JsString.

Definition jstr := list Z.

Definition lit (s : string) : jstr :=
  map (fun a => Z.of_N (N_of_ascii a)) (list_ascii_of_string s).

Fixpoint jstr_eqb (a b : jstr) : bool :=
  match a, b with
  | [], [] => true
  | x :: a', y :: b' => (x =? y) && jstr_eqb a' b'
  | _, _ => false
  end.

(** [s.startsWith(p)] *)
Fixpoint startsWith (p s : jstr) : bool :=
  match p, s with
  | [], _ => true
  | x :: p', y :: s' => (x =? y) && startsWith p' s'
  | _ :: _, [] => false
  end.

(** [s.includes(p)] *)
Fixpoint includes (s p : jstr) : bool :=
  startsWith p s ||
  match s with
  | [] => false
  | _ :: s' => includes s' p
  end.

(** [arr.join(sep)] *)
Fixpoint join (sep : jstr) (l : list jstr) : jstr :=
  match l with
  | [] => []
  | [x] => x
  | x :: rest => x ++ sep ++ join sep rest
  end.

(** Truthiness of a string value: only the empty string is falsy. *)
Definition truthy (s : jstr) : bool :=
  match s with [] => false | _ :: _ => true end.

End JsString.
Import JsString.

(** ** URI component encoding

    [encodeURIComponent] and [decodeURIComponent] are built-ins of the
    language; they are modelled after the Encode and Decode abstract
    operations of ECMA-262 (code units in, code units out, [None] for a
    thrown [URIError]). *)
Module Uri.

(** Characters left alone by [encodeURIComponent]: letters, digits and
    the marks [- _ . ! ~ * ' ( )]. *)
Definition unescaped (c : Z) : bool :=
  ((65 <=? c) && (c <=? 90)) || ((97 <=? c) && (c <=? 122)) ||
  ((48 <=? c) && (c <=? 57)) ||
  (c =? 45) || (c =? 95) || (c =? 46) || (c =? 33) || (c =? 126) ||
  (c =? 42) || (c =? 39) || (c =? 40) || (c =? 41).

Definition is_lead (c : Z) : bool := (0xD800 <=? c) && (c <=? 0xDBFF).
Definition is_trail (c : Z) : bool := (0xDC00 <=? c) && (c <=? 0xDFFF).

(** UTF16SurrogatePairToCodePoint *)
Definition pair_cp (lead trail : Z) : Z :=
  (lead - 0xD800) * 0x400 + (trail - 0xDC00) + 0x10000.

(** The UTF-8 octets of a code point. *)
Definition utf8 (cp : Z) : list Z :=
  if cp <? 0x80 then [cp]
  else if cp <? 0x800 then
    [Z.lor 0xC0 (Z.shiftr cp 6); Z.lor 0x80 (Z.land cp 0x3F)]
  else if cp <? 0x10000 then
    [Z.lor 0xE0 (Z.shiftr cp 12);
     Z.lor 0x80 (Z.land (Z.shiftr cp 6) 0x3F);
     Z.lor 0x80 (Z.land cp 0x3F)]
  else
    [Z.lor 0xF0 (Z.shiftr cp 18);
     Z.lor 0x80 (Z.land (Z.shiftr cp 12) 0x3F);
     Z.lor 0x80 (Z.land (Z.shiftr cp 6) 0x3F);
     Z.lor 0x80 (Z.land cp 0x3F)].

(** Upper-case hexadecimal digit of a nibble. *)
Definition hexdigit (n : Z) : Z := if n <? 10 then 48 + n else 55 + n.

(** ["%XY"] for one octet. *)
Definition pct (b : Z) : jstr :=
  [37; hexdigit (Z.shiftr b 4); hexdigit (Z.land b 0xF)].

Definition pct_octets (l : list Z) : jstr := flat_map pct l.

(** Encode(string, unescapedSet) of ECMA-262 for [encodeURIComponent]. *)
Fixpoint encodeURIComponent (s : jstr) : option jstr :=
  match s with
  | [] => Some []
  | c :: tl =>
    if unescaped c then option_map (cons c) (encodeURIComponent tl)
    else if is_lead c then
      match tl with
      | d :: tl' =>
        if is_trail d
        then option_map (app (pct_octets (utf8 (pair_cp c d))))
                        (encodeURIComponent tl')
        else None
      | [] => None
      end
    else if is_trail c then None
    else option_map (app (pct_octets (utf8 c))) (encodeURIComponent tl)
  end.

(** Value of a hexadecimal digit, either case. *)
Definition hexval (c : Z) : option Z :=
  if (48 <=? c) && (c <=? 57) then Some (c - 48)
  else if (65 <=? c) && (c <=? 70) then Some (c - 55)
  else if (97 <=? c) && (c <=? 102) then Some (c - 87)
  else None.

(** Two hexadecimal digits at the front of [s]: the octet and the rest. *)
Definition hex2 (s : jstr) : option (Z * jstr) :=
  match s with
  | h :: l :: rest =>
    match hexval h, hexval l with
    | Some a, Some b => Some (Z.lor (Z.shiftl a 4) b, rest)
    | _, _ => None
    end
  | _ => None
  end.

(** [n] continuation escapes ["%XY"] at the front of [s]. *)
Fixpoint take_cont (n : nat) (s : jstr) : option (list Z * jstr) :=
  match n with
  | O => Some ([], s)
  | S k =>
    match s with
    | 37 :: s1 =>
      match hex2 s1 with
      | Some (b, s2) =>
        match take_cont k s2 with
        | Some (bs, s3) => Some (b :: bs, s3)
        | None => None
        end
      | None => None
      end
    | _ => None
    end
  end.

(** Number of octets announced by a lead octet [b >= 0x80]. *)
Definition seq_len (b : Z) : option nat :=
  if Z.land b 0xE0 =? 0xC0 then Some 2%nat
  else if Z.land b 0xF0 =? 0xE0 then Some 3%nat
  else if Z.land b 0xF8 =? 0xF0 then Some 4%nat
  else None.

Definition is_cont (b : Z) : bool := Z.land b 0xC0 =? 0x80.

(** The code point of a valid UTF-8 sequence: shortest form, no
    surrogate, at most 0x10FFFF. *)
Definition utf8_decode (octets : list Z) : option Z :=
  match octets with
  | [b0; b1] =>
    let cp := Z.lor (Z.shiftl (Z.land b0 0x1F) 6) (Z.land b1 0x3F) in
    if is_cont b1 && (0x80 <=? cp) then Some cp else None
  | [b0; b1; b2] =>
    let cp := Z.lor (Z.shiftl (Z.land b0 0x0F) 12)
                (Z.lor (Z.shiftl (Z.land b1 0x3F) 6) (Z.land b2 0x3F)) in
    if is_cont b1 && is_cont b2 && (0x800 <=? cp)
       && negb ((0xD800 <=? cp) && (cp <=? 0xDFFF))
    then Some cp else None
  | [b0; b1; b2; b3] =>
    let cp := Z.lor (Z.shiftl (Z.land b0 0x07) 18)
                (Z.lor (Z.shiftl (Z.land b1 0x3F) 12)
                   (Z.lor (Z.shiftl (Z.land b2 0x3F) 6) (Z.land b3 0x3F))) in
    if is_cont b1 && is_cont b2 && is_cont b3
       && (0x10000 <=? cp) && (cp <=? 0x10FFFF)
    then Some cp else None
  | _ => None
  end.

(** UTF16EncodeCodePoint *)
Definition utf16 (cp : Z) : jstr :=
  if cp <? 0x10000 then [cp]
  else [0xD800 + Z.shiftr (cp - 0x10000) 10;
        0xDC00 + Z.land (cp - 0x10000) 0x3FF].

(** Decode(string, reservedSet) of ECMA-262 with the empty reserved set;
    [fuel] bounds the number of loop iterations. *)
Fixpoint decode (fuel : nat) (s : jstr) : option jstr :=
  match fuel with
  | O => None
  | S f =>
    match s with
    | [] => Some []
    | c :: tl =>
      if c =? 37 then
        match hex2 tl with
        | None => None
        | Some (b, rest) =>
          if b <? 0x80 then option_map (cons b) (decode f rest)
          else
            match seq_len b with
            | None => None
            | Some n =>
              match take_cont (Nat.pred n) rest with
              | None => None
              | Some (bs, rest') =>
                match utf8_decode (b :: bs) with
                | None => None
                | Some cp => option_map (app (utf16 cp)) (decode f rest')
                end
              end
            end
        end
      else option_map (cons c) (decode f tl)
    end
  end.

(** One iteration per code unit is always enough. *)
Definition decodeURIComponent (s : jstr) : option jstr :=
  decode (S (List.length s)) s.

(** The value of the first query parameter of [u], as the query-string
    parser of the server reads it, when the part of [u] up to and
    including the parameter's name and [=] is [prefix]: the text up to
    the next [&] or [#], with [+] read as a space, then
    [decodeURIComponent]. *)
Fixpoint until_delim (s : jstr) : jstr :=
  match s with
  | [] => []
  | c :: tl => if (c =? 38) || (c =? 35) then [] else c :: until_delim tl
  end.

Definition plus_to_space (s : jstr) : jstr :=
  map (fun c => if c =? 43 then 32 else c) s.

Fixpoint strip_prefix (p s : jstr) : option jstr :=
  match p, s with
  | [], _ => Some s
  | x :: p', y :: s' => if x =? y then strip_prefix p' s' else None
  | _ :: _, [] => None
  end.

Definition query_value (prefix u : jstr) : option jstr :=
  match strip_prefix prefix u with
  | Some v => decodeURIComponent (plus_to_space (until_delim v))
  | None => None
  end.

(** A string [encodeURIComponent] accepts: code units in range and every
    surrogate paired. *)
Fixpoint well_formed (s : jstr) : bool :=
  match s with
  | [] => true
  | c :: tl =>
    (0 <=? c) && (c <=? 0xFFFF) &&
    if is_lead c then
      match tl with
      | d :: tl' => is_trail d && well_formed tl'
      | [] => false
      end
    else negb (is_trail c) && well_formed tl
  end.

(** The escape of an octet reads back as that octet. *)
Definition hex_ok (b : Z) : bool :=
  match hex2 [hexdigit (Z.shiftr b 4); hexdigit (Z.land b 0xF)] with
  | Some (v, _) => v =? b
  | None => false
  end.

(** Octets of the shapes [10xxxxxx], [110xxxxx], [1110xxxx] and
    [11110xxx]: built with [lor], recognised, and their payload read
    back with [land]. *)
Definition seq_len_is (b : Z) (n : nat) : bool :=
  match seq_len b with
  | Some m => Nat.eqb m n
  | None => false
  end.

Definition cont_ok (y : Z) : bool :=
  (Z.lor 0x80 y =? 0x80 + y) && is_cont (0x80 + y) &&
  (Z.land (0x80 + y) 0x3F =? y).

Definition lead2_ok (x : Z) : bool :=
  (Z.lor 0xC0 x =? 0xC0 + x) && seq_len_is (0xC0 + x) 2 &&
  (Z.land (0xC0 + x) 0x1F =? x).

Definition lead3_ok (x : Z) : bool :=
  (Z.lor 0xE0 x =? 0xE0 + x) && seq_len_is (0xE0 + x) 3 &&
  (Z.land (0xE0 + x) 0x0F =? x).

Definition lead4_ok (x : Z) : bool :=
  (Z.lor 0xF0 x =? 0xF0 + x) && seq_len_is (0xF0 + x) 4 &&
  (Z.land (0xF0 + x) 0x07 =? x).

(** Not a character the query-string parser treats specially. *)
Definition no_delim (c : Z) : Prop := c <> 38 /\ c <> 35 /\ c <> 43.

Definition is_octet (b : Z) : Prop := 0 <= b < 256.

(** [f] holds on [lo], [lo + 1], ..., [lo + n - 1]. *)
Fixpoint forall_range (f : Z -> bool) (lo : Z) (n : nat) : bool :=
  match n with
  | O => true
  | S k => f lo && forall_range f (lo + 1) k
  end.

End Uri.

(** ** The transcode route ([GET /api/transcode?url=...]) *)
Module Transcode.

Inductive Signal := SIGKILL.

(** What the handler does to the outside world, in program order. *)
Inductive Effect :=
| ResStatus (code : Z)
| ResJson (body : list (string * jstr))
| ResSetHeader (name value : string)
| Spawn (bin : jstr) (args : list jstr)
| PipeStdoutToRes
| Kill (sig : Signal)
| ConsoleLog (msg : jstr)
| ConsoleError (msg : jstr).

(** The request as the handler reads it: [req.query.url] (absent or a
    string) and [req.app.locals.ffmpegPath]. *)
Record Request := {
  query_url : option jstr;
  ffmpegPath_local : option jstr
}.

(** [spawn] either returns a child-process handle or throws
    synchronously with a message. *)
Inductive SpawnOutcome := SpawnReturns | SpawnThrows (message : jstr).

(** Listeners the handler has registered, by event. *)
Record Listeners := {
  on_stderr_data : nat;
  on_req_close : nat;
  on_exit : nat;
  on_error : nat
}.

Definition no_listeners : Listeners :=
  {| on_stderr_data := 0; on_req_close := 0; on_exit := 0; on_error := 0 |}.

Record ReqState := {
  spawned : bool;
  stderrBuffer : jstr;
  listeners : Listeners
}.

(** [req.app.locals.ffmpegPath || 'ffmpeg'] *)
Definition ffmpegPath (r : Request) : jstr :=
  match ffmpegPath_local r with
  | Some p => if truthy p then p else lit "ffmpeg"
  | None => lit "ffmpeg"
  end.

(** [const args = [...]] *)
Definition args (url : jstr) : list jstr :=
  [ lit "-hide_banner";
    lit "-loglevel"; lit "warning";
    lit "-fflags"; lit "+genpts";
    lit "-i"; url;
    lit "-c:v"; lit "copy";
    lit "-c:a"; lit "aac";
    lit "-ar"; lit "48000";
    lit "-b:a"; lit "256k";
    lit "-af"; lit "aresample=48000:async=1";
    lit "-f"; lit "mp4";
    lit "-movflags"; lit "frag_keyframe+empty_moov+default_base_moof";
    lit "-" ].

(** The body of [router.get('/', (req, res) => ...)]. *)
Definition handler (so : SpawnOutcome) (r : Request)
  : ReqState * list Effect :=
  let idle := {| spawned := false; stderrBuffer := [];
                 listeners := no_listeners |} in
  let bad :=
    (idle, [ ResStatus 400;
             ResJson [("error"%string, lit "URL parameter is required")] ]) in
  match query_url r with
  | None => bad
  | Some url =>
    if negb (truthy url) then bad else
    let bin := ffmpegPath r in
    let logs :=
      [ ConsoleLog (lit "[Transcode] Starting transcoding for: " ++ url);
        ConsoleLog (lit "[Transcode] Using binary: " ++ bin);
        ConsoleLog (lit "[Transcode] Full command: " ++ bin ++ lit " "
                      ++ join (lit " ") (args url)) ] in
    match so with
    | SpawnThrows m =>
      (idle, logs ++
         [ Spawn bin (args url);
           ConsoleError (lit "[Transcode] Failed to spawn FFmpeg:");
           ResStatus 500;
           ResJson [("error"%string, lit "FFmpeg spawn failed");
                    ("details"%string, m)] ])
    | SpawnReturns =>
      ({| spawned := true; stderrBuffer := [];
          listeners := {| on_stderr_data := 1; on_req_close := 1;
                          on_exit := 1; on_error := 1 |} |},
       logs ++
         [ Spawn bin (args url);
           ResSetHeader "Content-Type" "video/mp4";
           ResSetHeader "Access-Control-Allow-Origin" "*";
           PipeStdoutToRes ])
    end
  end.

(** State of the child process, as the operating system sees it. *)
Inductive ProcState := Running | Exited (code : option Z).

(** Events delivered to the listeners after the handler returned. *)
Inductive Event :=
| StderrData (msg : jstr)
| ReqClose
| ProcExit (code : option Z)
| ProcError (headersSent : bool).

Fixpoint times {A} (n : nat) (l : list A) : list A :=
  match n with O => [] | S k => l ++ times k l end.

(** [req.on('close', () => {...})] *)
Definition close_listener (_ : ProcState) : list Effect :=
  [ ConsoleLog (lit "[Transcode] Client disconnected, killing FFmpeg process");
    Kill SIGKILL ].

(** [ffmpeg.on('exit', (code) => {...})] *)
Definition exit_listener (code : option Z) : list Effect :=
  match code with
  | Some c =>
    if negb (c =? 0) && negb (c =? 255)
    then [ ConsoleError (lit "[Transcode] FFmpeg exited with code") ]
    else []
  | None => []
  end.

(** [ffmpeg.on('error', (err) => {...})] *)
Definition error_listener (headersSent : bool) : list Effect :=
  ConsoleError (lit "[Transcode] Failed to spawn FFmpeg:") ::
  if headersSent then []
  else [ ResStatus 500;
         ResJson [("error"%string, lit "Transcoding failed to start")] ].

(** Delivery of one event: each registered listener of that event runs. *)
Definition dispatch (p : ProcState) (st : ReqState) (e : Event)
  : ReqState * list Effect :=
  let L := listeners st in
  match e with
  | StderrData msg =>
    match on_stderr_data L with
    | O => (st, [])
    | S _ =>
      ({| spawned := spawned st; stderrBuffer := stderrBuffer st ++ msg;
          listeners := L |},
       [ ConsoleLog (lit "[FFmpeg] " ++ msg) ])
    end
  | ReqClose => (st, times (on_req_close L) (close_listener p))
  | ProcExit code => (st, times (on_exit L) (exit_listener code))
  | ProcError hs => (st, times (on_error L) (error_listener hs))
  end.

(** Events delivered in order, each with the state the process is in
    when it arrives. *)
Fixpoint dispatch_all (st : ReqState) (evs : list (ProcState * Event))
  : ReqState * list Effect :=
  match evs with
  | [] => (st, [])
  | (ps, e) :: rest =>
    let '(st1, a) := dispatch ps st e in
    let '(st2, b) := dispatch_all st1 rest in
    (st2, a ++ b)
  end.

Definition is_spawn (e : Effect) : bool :=
  match e with Spawn _ _ => true | _ => false end.

Definition is_kill (e : Effect) : bool :=
  match e with Kill _ => true | _ => false end.

(** Adjacent option/value pair in an argument list. *)
Fixpoint has_pair (k v : jstr) (l : list jstr) : bool :=
  match l with
  | a :: ((b :: _) as tl) => (jstr_eqb a k && jstr_eqb b v) || has_pair k v tl
  | _ => false
  end.

End Transcode.

(** ** The video player component ([VideoPlayer]) *)
Module Player.

Record Settings := {
  forceProxy : bool;
  forceTranscode : bool
}.

(** What the browser offers: [Hls.isSupported()] and whether
    [video.canPlayType('application/vnd.apple.mpegurl')] answers
    ['probably'] or ['maybe']. *)
Record Env := {
  hlsSupported : bool;
  canPlayNativeHls : bool
}.

Record Channel := { ch_id : Z; ch_name : jstr }.

(** The [<video>] element. *)
Record Video := {
  src : jstr;
  paused : bool;
  currentTime : Q
}.

(** Who created an hls.js instance, hence which listeners it carries. *)
Inductive Origin := FromInit | FromPlay.

(** A live (constructed, not destroyed) hls.js instance. *)
Record Engine := {
  eid : nat;
  origin : Origin;
  source : option jstr;
  attached : bool
}.

(** The fields of a [VideoPlayer] that the playback code reads or
    writes, and the part of the page it acts on.  [engines] is the store
    of live hls.js instances and [hls] refers into it by identifier, so
    that an instance outliving the reference would show.  Each
    [video.play()] of the native path registers a rejection handler that
    closes over the [streamUrl] of its own call of [play]:
    [pendingCatch] holds the captured URLs of the handlers whose promise
    is not settled yet, oldest first.  The rejection handlers of the other
    calls of [video.play()] only write to the console and are not kept. *)
Record Player := {
  settings : Settings;
  hls : option nat;
  engines : list Engine;
  next_engine : nat;
  currentChannel : option Channel;
  isUsingProxy : bool;
  currentUrl : option jstr;
  lastDiscontinuity : option Z;
  video : Video;
  pendingCatch : list jstr
}.

(** Calls made on the engine, the video element and the page, in
    program order.  Console output is not recorded. *)
Inductive Action :=
| HlsNew (id : nat)
| HlsDestroy (id : nat)
| HlsLoadSource (id : nat) (url : jstr)
| HlsAttachMedia (id : nat)
| HlsStartLoad (id : nat)
| HlsRecoverMediaError (id : nat)
| VideoPause
| VideoSetSrc (url : jstr)
| VideoLoad
| VideoPlay
| VideoSeek (delta : Q)
| MkProxiedUrl (upstream : jstr)
| MkTranscodeUrl (upstream : jstr)
| OverlayHide
| UpdateNowPlaying (c : Channel)
| ShowNowPlayingOverlay
| FetchEpgData (c : Channel)
| ChannelChanged (c : Channel)
| ShowError (msg : jstr)
| ThrowTypeError.

(** Field updates. *)
Definition set_hls (h : option nat) (p : Player) : Player :=
  {| settings := settings p; hls := h; engines := engines p;
     next_engine := next_engine p; currentChannel := currentChannel p;
     isUsingProxy := isUsingProxy p; currentUrl := currentUrl p;
     lastDiscontinuity := lastDiscontinuity p; video := video p;
     pendingCatch := pendingCatch p |}.

Definition set_engines (l : list Engine) (n : nat) (p : Player) : Player :=
  {| settings := settings p; hls := hls p; engines := l;
     next_engine := n; currentChannel := currentChannel p;
     isUsingProxy := isUsingProxy p; currentUrl := currentUrl p;
     lastDiscontinuity := lastDiscontinuity p; video := video p;
     pendingCatch := pendingCatch p |}.

Definition set_currentChannel (c : option Channel) (p : Player) : Player :=
  {| settings := settings p; hls := hls p; engines := engines p;
     next_engine := next_engine p; currentChannel := c;
     isUsingProxy := isUsingProxy p; currentUrl := currentUrl p;
     lastDiscontinuity := lastDiscontinuity p; video := video p;
     pendingCatch := pendingCatch p |}.

Definition set_isUsingProxy (b : bool) (p : Player) : Player :=
  {| settings := settings p; hls := hls p; engines := engines p;
     next_engine := next_engine p; currentChannel := currentChannel p;
     isUsingProxy := b; currentUrl := currentUrl p;
     lastDiscontinuity := lastDiscontinuity p; video := video p;
     pendingCatch := pendingCatch p |}.

Definition set_currentUrl (u : option jstr) (p : Player) : Player :=
  {| settings := settings p; hls := hls p; engines := engines p;
     next_engine := next_engine p; currentChannel := currentChannel p;
     isUsingProxy := isUsingProxy p; currentUrl := u;
     lastDiscontinuity := lastDiscontinuity p; video := video p;
     pendingCatch := pendingCatch p |}.

Definition set_lastDiscontinuity (d : option Z) (p : Player) : Player :=
  {| settings := settings p; hls := hls p; engines := engines p;
     next_engine := next_engine p; currentChannel := currentChannel p;
     isUsingProxy := isUsingProxy p; currentUrl := currentUrl p;
     lastDiscontinuity := d; video := video p;
     pendingCatch := pendingCatch p |}.

Definition set_video (v : Video) (p : Player) : Player :=
  {| settings := settings p; hls := hls p; engines := engines p;
     next_engine := next_engine p; currentChannel := currentChannel p;
     isUsingProxy := isUsingProxy p; currentUrl := currentUrl p;
     lastDiscontinuity := lastDiscontinuity p; video := v;
     pendingCatch := pendingCatch p |}.

Definition set_pendingCatch (u : list jstr) (p : Player) : Player :=
  {| settings := settings p; hls := hls p; engines := engines p;
     next_engine := next_engine p; currentChannel := currentChannel p;
     isUsingProxy := isUsingProxy p; currentUrl := currentUrl p;
     lastDiscontinuity := lastDiscontinuity p; video := video p;
     pendingCatch := u |}.

(** Operations of the video element. *)
Definition video_pause (p : Player) : Player :=
  set_video {| src := src (video p); paused := true;
               currentTime := currentTime (video p) |} p.

Definition video_play (p : Player) : Player :=
  set_video {| src := src (video p); paused := false;
               currentTime := currentTime (video p) |} p.

Definition video_set_src (u : jstr) (p : Player) : Player :=
  set_video {| src := u; paused := paused (video p);
               currentTime := currentTime (video p) |} p.

Definition video_load (p : Player) : Player :=
  set_video {| src := src (video p); paused := paused (video p);
               currentTime := 0%Q |} p.

Definition video_seek (d : Q) (p : Player) : Player :=
  set_video {| src := src (video p); paused := paused (video p);
               currentTime := (currentTime (video p) + d)%Q |} p.

(** [!this.video.paused && this.video.currentTime > 0] *)
Definition playing_past_zero (p : Player) : bool :=
  negb (paused (video p)) && negb (Qle_bool (currentTime (video p)) 0%Q).

(** Operations of the engine store. *)
Definition destroy_engine (id : nat) (l : list Engine) : list Engine :=
  filter (fun e => negb (Nat.eqb (eid e) id)) l.

Definition find_engine (id : nat) (l : list Engine) : option Engine :=
  find (fun e => Nat.eqb (eid e) id) l.

Definition update_engine (id : nat) (f : Engine -> Engine)
  (l : list Engine) : list Engine :=
  map (fun e => if Nat.eqb (eid e) id then f e else e) l.

Definition engine_load (u : jstr) (e : Engine) : Engine :=
  {| eid := eid e; origin := origin e; source := Some u;
     attached := attached e |}.

Definition engine_attach (e : Engine) : Engine :=
  {| eid := eid e; origin := origin e; source := source e;
     attached := true |}.

(** [new Hls(this.getHlsConfig())] *)
Definition new_engine (o : Origin) (p : Player) : nat * Player :=
  let id := next_engine p in
  (id, set_engines
         ({| eid := id; origin := o; source := None; attached := false |}
            :: engines p) (S id) p).

(** The text of a value used as a string; [null] reads ["null"]. *)
Definition string_of (u : option jstr) : jstr :=
  match u with Some s => s | None => lit "null" end.

(** [getProxiedUrl(url)] *)
Definition getProxiedUrl (url : jstr) : option jstr :=
  option_map (app (lit "/api/proxy/stream?url=")) (Uri.encodeURIComponent url).

(** [getTranscodeUrl(url)] *)
Definition getTranscodeUrl (url : jstr) : option jstr :=
  option_map (app (lit "/api/transcode?url=")) (Uri.encodeURIComponent url).

(** [stop()] *)
Definition stop (p : Player) : Player * list Action :=
  let '(p1, a1) :=
    match hls p with
    | Some id =>
      (set_hls None (set_engines (destroy_engine id (engines p))
                                 (next_engine p) p),
       [HlsDestroy id])
    | None => (p, [])
    end in
  (video_load (video_set_src [] (video_pause p1)),
   a1 ++ [VideoPause; VideoSetSrc []; VideoLoad]).

(** The constructor followed by [init()]. *)
Definition construct (env : Env) (s : Settings) : Player * list Action :=
  let p0 :=
    {| settings := s; hls := None; engines := []; next_engine := 0%nat;
       currentChannel := None; isUsingProxy := false; currentUrl := None;
       lastDiscontinuity := None;
       video := {| src := []; paused := true; currentTime := 0%Q |};
       pendingCatch := [] |} in
  if hlsSupported env then
    let '(id, p1) := new_engine FromInit p0 in
    (set_lastDiscontinuity (Some (-1)) (set_hls (Some id) p1), [HlsNew id])
  else (p0, []).

(** [looksLikeHls] of [play]. *)
Definition looksLikeHls (finalUrl : jstr) : bool :=
  includes finalUrl (lit ".m3u8") || includes finalUrl (lit "m3u8") ||
  (negb (includes finalUrl (lit ".mp4")) &&
   negb (includes finalUrl (lit ".mkv")) &&
   negb (includes finalUrl (lit ".avi"))).

(** [proxyRequiredDomains.some(domain => streamUrl.includes(domain))] *)
Definition proxyRequiredDomains : list jstr := [lit "pluto.tv"].

Definition needsProxy (s : Settings) (streamUrl : jstr) : bool :=
  forceProxy s || existsb (includes streamUrl) proxyRequiredDomains.

(** [play(channel, streamUrl)].  A [URIError] raised while a URL is
    built lands in the [catch] of [play]. *)
Definition play (env : Env) (channel : Channel) (streamUrl : jstr)
  (p : Player) : Player * list Action :=
  let p := set_currentChannel (Some channel) p in
  let '(p, a_stop) := stop p in
  let pre := a_stop ++ [OverlayHide] in
  let p := set_currentUrl (Some streamUrl) p in
  let ui := [UpdateNowPlaying channel; ShowNowPlayingOverlay;
             FetchEpgData channel; ChannelChanged channel] in
  let failed := [ShowError (lit "Failed to play channel")] in
  if forceTranscode (settings p) then
    match getTranscodeUrl streamUrl with
    | None => (p, pre ++ [MkTranscodeUrl streamUrl] ++ failed)
    | Some transcodeUrl =>
      (video_play (video_set_src transcodeUrl
                     (set_currentUrl (Some transcodeUrl) p)),
       pre ++ [MkTranscodeUrl streamUrl; VideoSetSrc transcodeUrl; VideoPlay]
           ++ ui)
    end
  else
    let np := needsProxy (settings p) streamUrl in
    let p := set_isUsingProxy np p in
    let mk := if np then [MkProxiedUrl streamUrl] else [] in
    match (if np then getProxiedUrl streamUrl else Some streamUrl) with
    | None => (p, pre ++ mk ++ failed)
    | Some finalUrl =>
      if looksLikeHls finalUrl && hlsSupported env then
        let '(id, p) := new_engine FromPlay p in
        let p := set_hls (Some id) p in
        let p := set_engines
                   (update_engine id engine_attach
                      (update_engine id (engine_load finalUrl) (engines p)))
                   (next_engine p) p in
        let p := set_lastDiscontinuity (Some (-1)) p in
        (p, pre ++ mk ++
            [HlsNew id; HlsLoadSource id finalUrl; HlsAttachMedia id] ++ ui)
      else if canPlayNativeHls env then
        (set_pendingCatch (pendingCatch p ++ [streamUrl])
           (video_play (video_set_src finalUrl p)),
         pre ++ mk ++ [VideoSetSrc finalUrl; VideoPlay] ++ ui)
      else
        (video_play (video_set_src finalUrl p),
         pre ++ mk ++ [VideoSetSrc finalUrl; VideoPlay] ++ ui)
    end.

(** A list without its element at position [k]. *)
Definition drop_at {A} (k : nat) (l : list A) : list A :=
  firstn k l ++ skipn (S k) l.

(** The promise of the [k]-th pending [video.play()] of the native path
    is rejected: its handler runs, once, with the [streamUrl] it closed
    over.  Nothing happens when there is no such promise. *)
Definition play_rejected (k : nat) (p : Player) : Player * list Action :=
  match nth_error (pendingCatch p) k with
  | None => (p, [])
  | Some streamUrl =>
    let p := set_pendingCatch (drop_at k (pendingCatch p)) p in
    if negb (isUsingProxy p) then
      let p := set_isUsingProxy true p in
      match getProxiedUrl streamUrl with
      | None => (p, [MkProxiedUrl streamUrl])
      | Some u =>
        (video_play (video_set_src u p),
         [MkProxiedUrl streamUrl; VideoSetSrc u; VideoPlay])
      end
    else (p, [])
  end.

(** The promise of the [k]-th pending [video.play()] of the native path
    is fulfilled: its rejection handler will never run. *)
Definition play_fulfilled (k : nat) (p : Player) : Player * list Action :=
  (set_pendingCatch (drop_at k (pendingCatch p)) p, []).

(** *** Events of the adaptive-streaming engine *)

Inductive ErrorType := NETWORK_ERROR | MEDIA_ERROR | OTHER_ERROR.

Record ErrorData := {
  fatal : bool;
  etype : ErrorType;
  details : jstr
}.

(** A fragment: [sn] is [None] for ['initSegment'], [cc] is [None] when
    undefined. *)
Record Frag := { sn : option Z; cc : option Z }.

Inductive Payload :=
| ErrorEv (data : ErrorData)
| FragChangedEv (frag : option Frag)
| ManifestParsedEv
| BufferStalledEv.

Definition is_network (t : ErrorType) : bool :=
  match t with NETWORK_ERROR => true | _ => false end.

Definition is_media (t : ErrorType) : bool :=
  match t with MEDIA_ERROR => true | _ => false end.

(** [isCorsLikely] of the error listener of [play]. *)
Definition isCorsLikely (d : ErrorData) : bool :=
  is_network (etype d) ||
  (is_media (etype d) && jstr_eqb (details d) (lit "fragParsingError")).

(** A method call on [this.hls]; a [TypeError] when it is [null]. *)
Definition on_hls (p : Player) (k : nat -> Player * list Action)
  : Player * list Action :=
  match hls p with
  | Some id => k id
  | None => (p, [ThrowTypeError])
  end.

Definition load_source (id : nat) (u : jstr) (p : Player) : Player :=
  set_engines (update_engine id (engine_load u) (engines p)) (next_engine p) p.

(** [frag.cc !== this.lastDiscontinuity] *)
Definition cc_differs (c : Z) (last : option Z) : bool :=
  match last with
  | Some l => negb (c =? l)
  | None => true
  end.

(** The [Hls.Events.ERROR] listener installed by [play]. *)
Definition play_on_error (d : ErrorData) (p : Player)
  : Player * list Action :=
  if fatal d then
    if isCorsLikely d && negb (isUsingProxy p) then
      let p := set_isUsingProxy true p in
      on_hls p (fun id =>
        let origin_url := string_of (currentUrl p) in
        match getProxiedUrl origin_url with
        | None => (p, [MkProxiedUrl origin_url])
        | Some u =>
          (load_source id u p,
           [MkProxiedUrl origin_url; HlsLoadSource id u; HlsStartLoad id])
        end)
    else if is_media (etype d) then
      on_hls p (fun id => (p, [HlsRecoverMediaError id]))
    else (p, [])
  else if is_media (etype d) then
    if jstr_eqb (details d) (lit "bufferStalledError") then
      if playing_past_zero p
      then (video_seek 1%Q p, [VideoSeek 1%Q])
      else (p, [])
    else (p, [])
  else (p, []).

(** The [Hls.Events.FRAG_CHANGED] listener installed by [play]. *)
Definition play_on_frag_changed (frag : option Frag) (p : Player)
  : Player * list Action :=
  match frag with
  | Some {| sn := Some _; cc := Some c |} =>
    if cc_differs c (lastDiscontinuity p) then
      let wasFirstDetection :=
        match lastDiscontinuity p with
        | Some l => l =? -1
        | None => false
        end in
      let p := set_lastDiscontinuity (Some c) p in
      if negb wasFirstDetection && playing_past_zero p
      then (video_seek 1%Q p, [VideoSeek 1%Q])
      else (p, [])
    else (p, [])
  | _ => (p, [])
  end.

Definition play_listener (ev : Payload) (p : Player)
  : Player * list Action :=
  match ev with
  | ErrorEv d => play_on_error d p
  | FragChangedEv f => play_on_frag_changed f p
  | ManifestParsedEv => (video_play p, [VideoPlay])
  | BufferStalledEv => (p, [])
  end.

(** The [Hls.Events.ERROR] listener installed by [init]. *)
Definition init_on_error (d : ErrorData) (p : Player)
  : Player * list Action :=
  let recover := on_hls p (fun id => (p, [HlsRecoverMediaError id])) in
  if fatal d then
    match etype d with
    | NETWORK_ERROR =>
      match currentChannel p with
      | Some _ =>
        if negb (isUsingProxy p) then
          let origin_url := string_of (currentUrl p) in
          match getProxiedUrl origin_url with
          | None => (p, [MkProxiedUrl origin_url])
          | Some u =>
            let p := set_isUsingProxy true p in
            match hls p with
            | Some id =>
              (load_source id u p,
               [MkProxiedUrl origin_url; HlsLoadSource id u; HlsStartLoad id])
            | None => (p, [MkProxiedUrl origin_url; ThrowTypeError])
            end
          end
        else on_hls p (fun id => (p, [HlsStartLoad id]))
      | None => on_hls p (fun id => (p, [HlsStartLoad id]))
      end
    | MEDIA_ERROR => recover
    | OTHER_ERROR => stop p
    end
  else if is_media (etype d) then recover
  else if jstr_eqb (details d) (lit "bufferAppendError")
          || jstr_eqb (details d) (lit "fragParsingError")
  then recover
  else (p, []).

(** The [Hls.Events.FRAG_CHANGED] listener installed by [init]. *)
Definition init_on_frag_changed (frag : option Frag) (p : Player)
  : Player * list Action :=
  match frag with
  | Some {| sn := Some _; cc := Some c |} =>
    if cc_differs c (lastDiscontinuity p) then
      let p := set_lastDiscontinuity (Some c) p in
      if playing_past_zero p
      then (video_seek (1 # 100)%Q p, [VideoSeek (1 # 100)%Q])
      else (p, [])
    else (p, [])
  | _ => (p, [])
  end.

Definition init_listener (ev : Payload) (p : Player)
  : Player * list Action :=
  match ev with
  | ErrorEv d => init_on_error d p
  | FragChangedEv f => init_on_frag_changed f p
  | ManifestParsedEv => (video_play p, [VideoPlay])
  | BufferStalledEv => on_hls p (fun id => (p, [HlsRecoverMediaError id]))
  end.

(** Delivery of an event emitted by instance [target]: a destroyed
    instance has no listeners left. *)
Definition deliver (target : nat) (ev : Payload) (p : Player)
  : Player * list Action :=
  match find_engine target (engines p) with
  | Some e =>
    match origin e with
    | FromInit => init_listener ev p
    | FromPlay => play_listener ev p
    end
  | None => (p, [])
  end.

(** *** A playback session: what can happen to a player

    Requests to play and to stop, events of an hls.js instance, the
    settling of a pending [video.play()] promise of the native path, and
    changes that the browser makes to the video element.  When a promise
    settles is up to the browser (its [pause()] and [load()] reject the
    pending ones), so any order is considered. *)
Inductive Op :=
| OpPlay (channel : Channel) (streamUrl : jstr)
| OpStop
| OpEvent (target : nat) (ev : Payload)
| OpPlayRejected (k : nat)
| OpPlayFulfilled (k : nat)
| OpBrowser (nowPaused : bool) (position : Q).

Definition step (env : Env) (o : Op) (p : Player) : Player * list Action :=
  match o with
  | OpPlay c u => play env c u p
  | OpStop => stop p
  | OpEvent t ev => deliver t ev p
  | OpPlayRejected k => play_rejected k p
  | OpPlayFulfilled k => play_fulfilled k p
  | OpBrowser b t =>
    (set_video {| src := src (video p); paused := b; currentTime := t |} p, [])
  end.

(** The actions of each operation, one list per operation. *)
Fixpoint run (env : Env) (ops : list Op) (p : Player)
  : Player * list (list Action) :=
  match ops with
  | [] => (p, [])
  | o :: rest =>
    let '(p1, a) := step env o p in
    let '(p2, tr) := run env rest p1 in
    (p2, a :: tr)
  end.

(** Classification of actions. *)
Definition is_hls_new (a : Action) : bool :=
  match a with HlsNew _ => true | _ => false end.

Definition is_mk_proxied (a : Action) : bool :=
  match a with MkProxiedUrl _ => true | _ => false end.

Definition is_mk_transcode (a : Action) : bool :=
  match a with MkTranscodeUrl _ => true | _ => false end.

Definition is_seek (a : Action) : bool :=
  match a with VideoSeek _ => true | _ => false end.

(** URLs handed to the engine or to the video element. *)
Definition loaded_url (a : Action) : option jstr :=
  match a with
  | HlsLoadSource _ u => Some u
  | VideoSetSrc u => Some u
  | _ => None
  end.

Fixpoint loaded_urls (l : list Action) : list jstr :=
  match l with
  | [] => []
  | a :: rest =>
    match loaded_url a with
    | Some u => u :: loaded_urls rest
    | None => loaded_urls rest
    end
  end.

(** The session invariant: the live instances are exactly the one the
    player holds, if any. *)
Definition engine_ids (p : Player) : list nat := map eid (engines p).

Definition one_engine (p : Player) : Prop :=
  engine_ids p = match hls p with Some id => [id] | None => [] end.

(** A fragment-change event of instance [id] for media fragment number
    [n] with continuity counter [c]. *)
Definition frag_changed (id : nat) (n c : Z) : Op :=
  OpEvent id (FragChangedEv (Some {| sn := Some n; cc := Some c |})).

(** The session is playing from the instance [id] that [play] created:
    not paused, past position zero, last continuity counter [l]. *)
Definition playing_from (id : nat) (l : Z) (p : Player) : Prop :=
  (exists e, find_engine id (engines p) = Some e /\ origin e = FromPlay) /\
  paused (video p) = false /\
  (0 < currentTime (video p))%Q /\
  lastDiscontinuity p = Some l.

(** The specification's sentence on fatal media errors, as stated: the
    listener of [play] starts with the engine's own recovery and, when
    that recovery has not resolved the error by the end of the event,
    has asked for the transcode URL. *)
Definition media_error_escalates_to_transcoded : Prop :=
  forall (p : Player) (d : ErrorData) (id : nat) (resolved : bool),
    fatal d = true ->
    etype d = MEDIA_ERROR ->
    isCorsLikely d && negb (isUsingProxy p) = false ->
    hls p = Some id ->
    hd_error (snd (play_on_error d p)) = Some (HlsRecoverMediaError id) /\
    (resolved = false ->
     existsb is_mk_transcode (snd (play_on_error d p)) = true).

(** The specification's sentence on forced transcoding, as stated:
    every request made with [forceTranscode] set builds the transcode URL
    and has the video element play it. *)
Definition force_transcode_always_plays : Prop :=
  forall (env : Env) (c : Channel) (streamUrl : jstr) (p : Player),
    forceTranscode (settings p) = true ->
    exists t,
      getTranscodeUrl streamUrl = Some t /\
      In (VideoSetSrc t) (snd (play env c streamUrl p)) /\
      In VideoPlay (snd (play env c streamUrl p)).

(** Operations that belong to the session a [play] opened: anything but
    a new [play] or a [stop]. *)
Definition within_session (o : Op) : bool :=
  match o with
  | OpPlay _ _ | OpStop => false
  | _ => true
  end.

(** Operations of a session in which no rejection handler runs: engine
    events, changes of the video element, fulfilled promises. *)
Definition engine_op (o : Op) : bool :=
  match o with
  | OpEvent _ _ | OpBrowser _ _ | OpPlayFulfilled _ => true
  | _ => false
  end.

(** A fatal error of instance [id] that the listener of [play] classes
    as a likely CORS failure: a network error, or a media error whose
    detail is [fragParsingError]. *)
Definition is_cors_fatal (id : nat) (o : Op) : bool :=
  match o with
  | OpEvent t (ErrorEv d) => Nat.eqb t id && fatal d && isCorsLikely d
  | _ => false
  end.

(** Direct mode: the instance [id] of [play] is the only one, and the
    proxy has not been used for [url]. *)
Definition direct_on (id : nat) (url : jstr) (p : Player) : Prop :=
  hls p = Some id /\
  (exists e, engines p = [e] /\ eid e = id /\ origin e = FromPlay) /\
  isUsingProxy p = false /\
  currentUrl p = Some url.

(** Relayed mode: the proxy flag is set and only instances created by
    [play] are alive. *)
Definition relayed (p : Player) : Prop :=
  isUsingProxy p = true /\
  forall e, In e (engines p) -> origin e = FromPlay.

(** An operation that builds no URL and loads none. *)
Definition quiet (acts : list Action) : Prop :=
  loaded_urls acts = [] /\
  filter is_mk_proxied acts = [] /\
  filter is_mk_transcode acts = [].

(** The specification's sentence on the proxy-required domain, as
    stated: a URL that contains [pluto.tv], played without force flags,
    has its proxied URL loaded by [play]. *)
Definition pluto_tv_always_loads_proxied : Prop :=
  forall (env : Env) (c : Channel) (streamUrl : jstr) (p : Player),
    one_engine p ->
    forceProxy (settings p) = false ->
    forceTranscode (settings p) = false ->
    includes streamUrl (lit "pluto.tv") = true ->
    exists u,
      getProxiedUrl streamUrl = Some u /\
      In u (loaded_urls (snd (play env c streamUrl p))).

(** The specification's sentence on direct playback and its single
    escalation, as stated, for one request and what follows it: [pre]
    are the operations of the session up to the first fatal error [d]
    of network class that the instance [id] attached by [play] reports,
    [post] the operations after it.  The stream URL is loaded unmodified;
    that error has the proxied URL loaded; nothing builds a proxied URL
    afterwards, and no transcode URL is built at any point. *)
Definition direct_then_one_escalation
  (env : Env) (c : Channel) (streamUrl : jstr) (p : Player)
  (id : nat) (pre post : list Op) (d : ErrorData) : Prop :=
  let r0 := play env c streamUrl p in
  let r1 := run env pre (fst r0) in
  let r2 := step env (OpEvent id (ErrorEv d)) (fst r1) in
  let r3 := run env post (fst r2) in
  loaded_urls (snd r0) = [[]; streamUrl] /\
  (exists u, getProxiedUrl streamUrl = Some u /\
             loaded_urls (snd r2) = [u]) /\
  filter is_mk_proxied (List.concat (snd r3)) = [] /\
  filter is_mk_transcode
    (snd r0 ++ List.concat (snd r1) ++ snd r2 ++ List.concat (snd r3)) = [].

(** The round trip of URL construction for one upstream URL: both URLs
    are built, and the decoded value of their [url] parameter is the
    upstream URL. *)
Definition url_round_trip (url : jstr) : Prop :=
  exists proxied transcode,
    getProxiedUrl url = Some proxied /\
    getTranscodeUrl url = Some transcode /\
    Uri.query_value (lit "/api/proxy/stream?url=") proxied = Some url /\
    Uri.query_value (lit "/api/transcode?url=") transcode = Some url.

End Player.

(** ** Channel navigation of the video player ([channelUp],
    [channelDown]) *)
Module Navigation.
Import Player.

(** [channels.findIndex(c => c.id === id)], [-1] when there is none. *)
Fixpoint findIndex (id : Z) (channels : list Channel) : Z :=
  match channels with
  | [] => -1
  | c :: rest =>
    if ch_id c =? id then 0
    else
      let i := findIndex id rest in
      if i =? -1 then -1 else i + 1
  end.

(** [currentIdx] of both methods. *)
Definition currentIdx (channels : list Channel) (current : option Channel) : Z :=
  match current with
  | Some c => findIndex (ch_id c) channels
  | None => -1
  end.

Definition len (channels : list Channel) : Z := Z.of_nat (List.length channels).

(** [prevIdx] of [channelUp]. *)
Definition prevIdx (channels : list Channel) (current : option Channel) : Z :=
  let i := currentIdx channels current in
  if i <=? 0 then len channels - 1 else i - 1.

(** [nextIdx] of [channelDown]. *)
Definition nextIdx (channels : list Channel) (current : option Channel) : Z :=
  let i := currentIdx channels current in
  if len channels - 1 <=? i then 0 else i + 1.

(** [channels[i].id]; [None] when [i] is outside the array (the source
    would throw on [undefined.id]). *)
Definition id_at (channels : list Channel) (i : Z) : option Z :=
  if i <? 0 then None
  else option_map ch_id (nth_error channels (Z.to_nat i)).

(** [channelUp()]: the [channelId] handed to [selectChannel], [None]
    when the method returns without selecting.  [channelList] is
    [window.app?.channelList] with its visible channels, when present. *)
Definition channelUp (channelList : option (list Channel))
  (current : option Channel) : option Z :=
  match channelList with
  | None => None
  | Some channels =>
    match channels with
    | [] => None
    | _ => id_at channels (prevIdx channels current)
    end
  end.

(** [channelDown()] *)
Definition channelDown (channelList : option (list Channel))
  (current : option Channel) : option Z :=
  match channelList with
  | None => None
  | Some channels =>
    match channels with
    | [] => None
    | _ => id_at channels (nextIdx channels current)
    end
  end.

End Navigation.

(** ** Sessions of the video player: notions used to state properties *)
Module Session.
Import Player.

(** For a sequence of continuity counters, whether each one differs from
    the one before it; [prev] is the counter before the first, if any. *)
Fixpoint flags_from (prev : option Z) (cs : list Z) : list bool :=
  match cs with
  | [] => []
  | c :: rest =>
    match prev with
    | Some q => negb (c =? q)
    | None => false
    end :: flags_from (Some c) rest
  end.

Definition boundary_flags (cs : list Z) : list bool := flags_from None cs.

(** Fragment-change events of instance [id], one per pair of fragment
    number and continuity counter. *)
Definition frag_events (id : nat) (l : list (Z * Z)) : list Op :=
  map (fun nc => frag_changed id (fst nc) (snd nc)) l.

(** One seek of [d] seconds where the flag is set, nothing elsewhere. *)
Definition seeks_where (d : Q) (flags : list bool) : list (list Action) :=
  map (fun b : bool => if b then [VideoSeek d] else []) flags.

(** As [playing_from], for the instance that [init] created. *)
Definition playing_from_init (id : nat) (l : Z) (p : Player) : Prop :=
  (exists e, find_engine id (engines p) = Some e /\ origin e = FromInit) /\
  paused (video p) = false /\
  (0 < currentTime (video p))%Q /\
  lastDiscontinuity p = Some l.

(** Identifiers of instances are handed out in increasing order. *)
Definition ids_fresh (p : Player) : Prop :=
  Forall (fun e => (eid e < next_engine p)%nat) (engines p).

Definition is_show_error (a : Action) : bool :=
  match a with ShowError _ => true | _ => false end.

(** What [play] does once playback is set up: now-playing display,
    overlay, programme data, notification of the application. *)
Definition announcements (c : Channel) : list Action :=
  [UpdateNowPlaying c; ShowNowPlayingOverlay; FetchEpgData c; ChannelChanged c].

(** Anything but a request to play. *)
Definition not_play (o : Op) : bool :=
  match o with
  | OpPlay _ _ => false
  | _ => true
  end.

(** The instance [id] has been created and destroyed. *)
Definition dead (id : nat) (p : Player) : Prop :=
  (id < next_engine p)%nat /\ find_engine id (engines p) = None.

(** From [p] to [p']: identifiers are not given back, and a live
    instance of [p'] was live in [p] or has been created since. *)
Definition evolves (p p' : Player) : Prop :=
  (next_engine p <= next_engine p')%nat /\
  forall x, In x (engine_ids p') ->
    In x (engine_ids p) \/ (next_engine p <= x < next_engine p')%nat.

End Session.

(** ** Events of a transcode request: notions used to state properties *)
Module TranscodeEvents.
Import Transcode.

(** The chunks that the process wrote to standard error, in order. *)
Fixpoint stderr_chunks (evs : list (ProcState * Event)) : list jstr :=
  match evs with
  | [] => []
  | (_, StderrData msg) :: rest => msg :: stderr_chunks rest
  | _ :: rest => stderr_chunks rest
  end.

(** How many times the connection-close event was delivered. *)
Fixpoint closes (evs : list (ProcState * Event)) : nat :=
  match evs with
  | [] => O
  | (_, ReqClose) :: rest => S (closes rest)
  | _ :: rest => closes rest
  end.

End TranscodeEvents.

(** ** JavaScript values and plain objects

    The values that the records of the database hold are primitives.
    Numbers are the integers and [NaN]: what [parseInt] and the counter
    [nextId] produce.  An object is the list of its own properties in
    insertion order; [JSON.parse] yields objects whose keys are pairwise
    different ([is_obj]). *)
Module Js.

Inductive num := Num (z : Z) | NaN.

Inductive jsval :=
| JUndef
| JNull
| JBool (b : bool)
| JNum (n : num)
| JStr (s : jstr).

Definition num_eqb (a b : num) : bool :=
  match a, b with
  | Num x, Num y => x =? y
  | _, _ => false
  end.

(** [a === b] *)
Definition strict_eq (a b : jsval) : bool :=
  match a, b with
  | JUndef, JUndef => true
  | JNull, JNull => true
  | JBool x, JBool y => Bool.eqb x y
  | JNum x, JNum y => num_eqb x y
  | JStr x, JStr y => jstr_eqb x y
  | _, _ => false
  end.

(** Truthiness of a value. *)
Definition truthy_val (v : jsval) : bool :=
  match v with
  | JUndef | JNull => false
  | JBool b => b
  | JNum (Num z) => negb (z =? 0)
  | JNum NaN => false
  | JStr s => truthy s
  end.

(** [a || b] *)
Definition or_else (a b : jsval) : jsval := if truthy_val a then a else b.

Definition obj := list (jstr * jsval).

(** [o[k]]: [undefined] when [o] has no property [k]. *)
Fixpoint get (k : jstr) (o : obj) : jsval :=
  match o with
  | [] => JUndef
  | (k', v) :: rest => if jstr_eqb k' k then v else get k rest
  end.

Fixpoint has (k : jstr) (o : obj) : bool :=
  match o with
  | [] => false
  | (k', _) :: rest => jstr_eqb k' k || has k rest
  end.

(** [o[k] = v]: an existing property keeps its place. *)
Fixpoint set (k : jstr) (v : jsval) (o : obj) : obj :=
  match o with
  | [] => [(k, v)]
  | (k', v') :: rest =>
    if jstr_eqb k' k then (k, v) :: rest else (k', v') :: set k v rest
  end.

(** [{...base, ...ext}] *)
Definition spread (base ext : obj) : obj :=
  fold_left (fun acc kv => set (fst kv) (snd kv) acc) ext base.

(** The rest of [o] in [const { k, ...rest } = o]. *)
Definition omit (k : jstr) (o : obj) : obj :=
  filter (fun kv => negb (jstr_eqb (fst kv) k)) o.

Definition is_obj (o : obj) : Prop := NoDup (map fst o).

(** What [JSON.parse(JSON.stringify(v))] makes of a value in an object:
    [NaN] is written as [null]. *)
Definition json_val (v : jsval) : jsval :=
  match v with
  | JNum NaN => JNull
  | _ => v
  end.

(** ... and of an object: properties holding [undefined] are left out. *)
Definition json_obj (o : obj) : obj :=
  map (fun kv => (fst kv, json_val (snd kv)))
      (filter (fun kv => match snd kv with JUndef => false | _ => true end) o).

(** A value that [JSON] writes and reads back unchanged. *)
Definition json_clean (v : jsval) : Prop :=
  v <> JUndef /\ v <> JNum NaN.

(** [Number.MAX_SAFE_INTEGER], that is [2^53 - 1]. *)
Definition MAX_SAFE_INTEGER : Z := 9007199254740991.

(** The number that an integer result [z] of an addition is: the double
    nearest to [z], the one with the even significand when two are as
    near.  Integers up to [2^53] in magnitude are doubles; beyond, [e]
    low bits are rounded away so that 53 bits are kept. *)
Definition to_double (z : Z) : Z :=
  let a := Z.abs z in
  if a <=? MAX_SAFE_INTEGER + 1 then z
  else
    let e := Z.log2 a - 52 in
    let q := Z.shiftr a e in
    let r := Z.land a (Z.ones e) in
    let half := Z.shiftl 1 (e - 1) in
    let q' := if (half <? r) || ((r =? half) && Z.odd q) then q + 1 else q in
    Z.sgn z * Z.shiftl q' e.

End Js.

(** ** The JSON database of the server ([db.js])

    Every operation of the module loads the database, works on the
    loaded value and, when it changes something, hands the value to
    [saveDb].  An operation is modelled on the loaded value; it returns
    its result and the value written, if any.  Where the source applies
    [parseInt] to an identifier, the operation takes the number that
    [parseInt] returns (an integer or [NaN]); where it applies [String],
    the string; where it reads the clock, the time stamp. *)
Module Database.
Import Js.

Record Db := {
  sources : list obj;
  hiddenItems : list obj;
  favorites : list obj;
  settings : obj;
  users : list obj;
  nextId : Z
}.

(** [getDefaultSettings()] *)
Definition getDefaultSettings : obj :=
  [ (lit "arrowKeysChangeChannel", JBool true);
    (lit "overlayDuration", JNum (Num 5));
    (lit "defaultVolume", JNum (Num 80));
    (lit "rememberVolume", JBool true);
    (lit "lastVolume", JNum (Num 80));
    (lit "autoPlayNextEpisode", JBool false);
    (lit "forceProxy", JBool false);
    (lit "forceTranscode", JBool false);
    (lit "forceRemux", JBool false);
    (lit "streamFormat", JStr (lit "m3u8"));
    (lit "epgRefreshInterval", JStr (lit "24")) ].

(** The parsed content of [db.json]: each top-level property may be
    missing. *)
Record FileData := {
  f_sources : option (list obj);
  f_hiddenItems : option (list obj);
  f_favorites : option (list obj);
  f_settings : option obj;
  f_users : option (list obj);
  f_nextId : option Z
}.

(** What reading and parsing the file gives: its content, no file, or
    any other failure (unreadable file, malformed JSON). *)
Inductive ReadResult :=
| FileContent (data : FileData)
| ENOENT
| ReadFailed.

Definition emptyDb : Db :=
  {| sources := []; hiddenItems := []; favorites := [];
     settings := getDefaultSettings; users := []; nextId := 1 |}.

Definition or_empty (l : option (list obj)) : list obj :=
  match l with Some x => x | None => [] end.

(** [loadDb()] *)
Definition loadDb (r : ReadResult) : Db :=
  match r with
  | FileContent data =>
    {| sources := or_empty (f_sources data);
       hiddenItems := or_empty (f_hiddenItems data);
       favorites := or_empty (f_favorites data);
       settings := match f_settings data with
                   | Some s => s
                   | None => getDefaultSettings
                   end;
       users := or_empty (f_users data);
       nextId := match f_nextId data with
                 | Some n => if n =? 0 then 1 else n
                 | None => 1
                 end |}
  | ENOENT => emptyDb
  | ReadFailed => emptyDb
  end.

(** The content of the file after [saveDb(db)] has written it. *)
Definition written (db : Db) : FileData :=
  {| f_sources := Some (map json_obj (sources db));
     f_hiddenItems := Some (map json_obj (hiddenItems db));
     f_favorites := Some (map json_obj (favorites db));
     f_settings := Some (json_obj (settings db));
     f_users := Some (map json_obj (users db));
     f_nextId := Some (nextId db) |}.

(** The database the next operation loads once [w] was written ([None]:
    nothing was), when it loaded [db] before. *)
Definition reload (w : option Db) (db : Db) : Db :=
  match w with
  | Some d => loadDb (FileContent (written d))
  | None => db
  end.

(** Field updates. *)
Definition set_sources (l : list obj) (db : Db) : Db :=
  {| sources := l; hiddenItems := hiddenItems db; favorites := favorites db;
     settings := settings db; users := users db; nextId := nextId db |}.

Definition set_hiddenItems (l : list obj) (db : Db) : Db :=
  {| sources := sources db; hiddenItems := l; favorites := favorites db;
     settings := settings db; users := users db; nextId := nextId db |}.

Definition set_favorites (l : list obj) (db : Db) : Db :=
  {| sources := sources db; hiddenItems := hiddenItems db; favorites := l;
     settings := settings db; users := users db; nextId := nextId db |}.

Definition set_settings (s : obj) (db : Db) : Db :=
  {| sources := sources db; hiddenItems := hiddenItems db;
     favorites := favorites db; settings := s; users := users db;
     nextId := nextId db |}.

Definition set_users (l : list obj) (db : Db) : Db :=
  {| sources := sources db; hiddenItems := hiddenItems db;
     favorites := favorites db; settings := settings db; users := l;
     nextId := nextId db |}.

(** [db.nextId++]: the counter is a number, so the sum is rounded to a
    double and the counter stays where it is from [2^53] on. *)
Definition bump (db : Db) : Db :=
  {| sources := sources db; hiddenItems := hiddenItems db;
     favorites := favorites db; settings := settings db; users := users db;
     nextId := to_double (nextId db + 1) |}.

(** The outcome of an operation that can throw. *)
Inductive outcome (A : Type) :=
| Returns (a : A) (w : option Db)
| Throws (message : jstr).
Arguments Returns {A} a w.
Arguments Throws {A} message.

(** [l.findIndex(f)] as a position, [None] for [-1]. *)
Fixpoint findIndex {A} (f : A -> bool) (l : list A) : option nat :=
  match l with
  | [] => None
  | x :: rest =>
    if f x then Some O else option_map S (findIndex f rest)
  end.

(** [l[i] = v] for [i] inside the array. *)
Fixpoint replace_at {A} (i : nat) (v : A) (l : list A) : list A :=
  match l, i with
  | [], _ => []
  | _ :: rest, O => v :: rest
  | x :: rest, S k => x :: replace_at k v rest
  end.

(** [l.splice(i, 1)] *)
Fixpoint remove_at {A} (i : nat) (l : list A) : list A :=
  match l, i with
  | [], _ => []
  | _ :: rest, O => rest
  | x :: rest, S k => x :: remove_at k rest
  end.

(** A database as an operation finds it: what loading a written file
    gives. *)
Definition stored (db : Db) : Prop :=
  loadDb (FileContent (written db)) = db.

(** *** Hidden items *)
Module HiddenItems.

(** The test shared by [hide], [show], [isHidden] and [bulkHide]. *)
Definition same_item (sourceId : num) (itemType itemId : jsval) (h : obj)
  : bool :=
  strict_eq (get (lit "source_id") h) (JNum sourceId) &&
  strict_eq (get (lit "item_type") h) itemType &&
  strict_eq (get (lit "item_id") h) itemId.

(** The record pushed by [hide] and [bulkHide]. *)
Definition new_item (id : Z) (sourceId : num) (itemType itemId : jsval) : obj :=
  [ (lit "id", JNum (Num id)); (lit "source_id", JNum sourceId);
    (lit "item_type", itemType); (lit "item_id", itemId) ].

(** [hiddenItems.hide(sourceId, itemType, itemId)] *)
Definition hide (sourceId : num) (itemType itemId : jsval) (db : Db)
  : option Db :=
  match find (same_item sourceId itemType itemId) (hiddenItems db) with
  | Some _ => None
  | None =>
    Some (bump (set_hiddenItems
                  (hiddenItems db ++
                     [new_item (nextId db) sourceId itemType itemId])
                  db))
  end.

(** [hiddenItems.show(sourceId, itemType, itemId)] *)
Definition show (sourceId : num) (itemType itemId : jsval) (db : Db)
  : option Db :=
  Some (set_hiddenItems
          (filter (fun h => negb (same_item sourceId itemType itemId h))
                  (hiddenItems db))
          db).

(** [hiddenItems.isHidden(sourceId, itemType, itemId)] *)
Definition isHidden (sourceId : num) (itemType itemId : jsval) (db : Db)
  : bool :=
  existsb (same_item sourceId itemType itemId) (hiddenItems db).

(** The body of the [forEach] of [bulkHide], on the loaded database and
    the [modified] flag. *)
Definition bulkHide_step (acc : Db * bool) (item : num * jsval * jsval)
  : Db * bool :=
  let '(sourceId, itemType, itemId) := item in
  let db := fst acc in
  match find (same_item sourceId itemType itemId) (hiddenItems db) with
  | Some _ => acc
  | None =>
    (bump (set_hiddenItems
             (hiddenItems db ++
                [new_item (nextId db) sourceId itemType itemId])
             db),
     true)
  end.

(** [hiddenItems.bulkHide(items)] *)
Definition bulkHide (items : list (num * jsval * jsval)) (db : Db)
  : option Db :=
  let '(db', modified) := fold_left bulkHide_step items (db, false) in
  if modified then Some db' else None.

End HiddenItems.

(** *** Favorites *)
Module Favorites.

(** The default of the parameter [itemType = 'channel']. *)
Definition or_channel (itemType : jsval) : jsval :=
  match itemType with
  | JUndef => JStr (lit "channel")
  | _ => itemType
  end.

(** The test shared by [add], [remove] and [isFavorite]; [itemId] is
    [String(itemId)]. *)
Definition same_favorite (sourceId : num) (itemId : jstr) (itemType : jsval)
  (f : obj) : bool :=
  strict_eq (get (lit "source_id") f) (JNum sourceId) &&
  strict_eq (get (lit "item_id") f) (JStr itemId) &&
  strict_eq (get (lit "item_type") f) itemType.

Definition new_favorite (id : Z) (sourceId : num) (itemId : jstr)
  (itemType : jsval) (now : jstr) : obj :=
  [ (lit "id", JNum (Num id)); (lit "source_id", JNum sourceId);
    (lit "item_id", JStr itemId); (lit "item_type", itemType);
    (lit "created_at", JStr now) ].

(** [favorites.add(sourceId, itemId, itemType)]; it returns [true]. *)
Definition add (now : jstr) (sourceId : num) (itemId : jstr)
  (itemType : jsval) (db : Db) : option Db :=
  let itemType := or_channel itemType in
  match find (same_favorite sourceId itemId itemType) (favorites db) with
  | Some _ => None
  | None =>
    Some (bump (set_favorites
                  (favorites db ++
                     [new_favorite (nextId db) sourceId itemId itemType now])
                  db))
  end.

(** [favorites.remove(sourceId, itemId, itemType)]; it returns [true]. *)
Definition remove (sourceId : num) (itemId : jstr) (itemType : jsval)
  (db : Db) : option Db :=
  let itemType := or_channel itemType in
  Some (set_favorites
          (filter (fun f => negb (same_favorite sourceId itemId itemType f))
                  (favorites db))
          db).

(** [favorites.isFavorite(sourceId, itemId, itemType)] *)
Definition isFavorite (sourceId : num) (itemId : jstr) (itemType : jsval)
  (db : Db) : bool :=
  existsb (same_favorite sourceId itemId (or_channel itemType)) (favorites db).

End Favorites.

(** *** Sources *)
Module Sources.

Definition has_id (id : num) (s : obj) : bool :=
  strict_eq (get (lit "id") s) (JNum id).

(** [sources.getById(id)] *)
Definition getById (id : num) (db : Db) : option obj :=
  find (has_id id) (sources db).

(** [sources.getByType(type)] *)
Definition getByType (type : jsval) (db : Db) : list obj :=
  filter (fun s => strict_eq (get (lit "type") s) type &&
                   truthy_val (get (lit "enabled") s))
         (sources db).

(** The object literal of [create]. *)
Definition new_source (id : Z) (source : obj) (created updated : jstr) : obj :=
  set (lit "updated_at") (JStr updated)
    (set (lit "created_at") (JStr created)
       (set (lit "enabled") (JBool true)
          (spread [(lit "id", JNum (Num id))] source))).

(** [sources.create(source)]: the new source and the database written. *)
Definition create (created updated : jstr) (source : obj) (db : Db)
  : obj * option Db :=
  let newSource := new_source (nextId db) source created updated in
  (newSource, Some (bump (set_sources (sources db ++ [newSource]) db))).

(** [sources.update(id, updates)]: [None] is the [null] returned for an
    unknown identifier. *)
Definition update (now : jstr) (id : num) (updates : obj) (db : Db)
  : option obj * option Db :=
  match findIndex (has_id id) (sources db) with
  | None => (None, None)
  | Some index =>
    match nth_error (sources db) index with
    | None => (None, None)
    | Some old =>
      let s := set (lit "updated_at") (JStr now)
                 (spread (spread [] old) updates) in
      (Some s, Some (set_sources (replace_at index s (sources db)) db))
    end
  end.

(** [sources.delete(id)] *)
Definition delete (id : num) (db : Db) : option Db :=
  Some (set_hiddenItems
          (filter (fun h => negb (strict_eq (get (lit "source_id") h) (JNum id)))
                  (hiddenItems db))
          (set_sources (filter (fun s => negb (has_id id s)) (sources db)) db)).

(** [sources.toggleEnabled(id)]: the source found is changed in place;
    [None] is [undefined]. *)
Definition toggleEnabled (now : jstr) (id : num) (db : Db)
  : option obj * option Db :=
  match findIndex (has_id id) (sources db) with
  | None => (None, None)
  | Some index =>
    match nth_error (sources db) index with
    | None => (None, None)
    | Some source =>
      let s := set (lit "updated_at") (JStr now)
                 (set (lit "enabled")
                      (JBool (negb (truthy_val (get (lit "enabled") source))))
                      source) in
      (Some s, Some (set_sources (replace_at index s (sources db)) db))
    end
  end.

(** Whether the source [id] exists and passes the [enabled] test of
    [getByType]. *)
Definition enabled_of (id : num) (db : Db) : option bool :=
  option_map (fun s => truthy_val (get (lit "enabled") s)) (getById id db).

End Sources.

(** *** Settings *)
Module SettingsApi.

(** [settings.get()] *)
Definition get_settings (db : Db) : obj :=
  spread (spread [] getDefaultSettings) (settings db).

(** [settings.update(newSettings)]: the settings returned and the
    database written. *)
Definition update (newSettings : obj) (db : Db) : obj * option Db :=
  let s := spread (spread [] (settings db)) newSettings in
  (s, Some (set_settings s db)).

(** [settings.reset()] *)
Definition reset (db : Db) : obj * option Db :=
  (getDefaultSettings, Some (set_settings getDefaultSettings db)).

End SettingsApi.

(** *** Users *)
Module Users.

Definition has_id (id : num) (u : obj) : bool :=
  strict_eq (get (lit "id") u) (JNum id).

Definition has_username (name : jsval) (u : obj) : bool :=
  strict_eq (get (lit "username") u) name.

Definition is_admin (u : obj) : bool :=
  strict_eq (get (lit "role") u) (JStr (lit "admin")).

(** [users.getById(id)] *)
Definition getById (id : num) (db : Db) : option obj :=
  find (has_id id) (users db).

(** [users.getByUsername(username)] *)
Definition getByUsername (username : jsval) (db : Db) : option obj :=
  find (has_username username) (users db).

(** [users.count()] *)
Definition count (db : Db) : nat := List.length (users db).

Definition new_user (id : Z) (userData : obj) (now : jstr) : obj :=
  [ (lit "id", JNum (Num id));
    (lit "username", get (lit "username") userData);
    (lit "passwordHash", get (lit "passwordHash") userData);
    (lit "role", or_else (get (lit "role") userData) (JStr (lit "viewer")));
    (lit "createdAt", JStr now) ].

(** [users.create(userData)] *)
Definition create (now : jstr) (userData : obj) (db : Db) : outcome obj :=
  if existsb (has_username (get (lit "username") userData)) (users db)
  then Throws (lit "Username already exists")
  else
    let newUser := new_user (nextId db) userData now in
    Returns (omit (lit "passwordHash") newUser)
            (Some (bump (set_users (users db ++ [newUser]) db))).

(** [users.update(id, updates)] *)
Definition update (now : jstr) (id : num) (updates : obj) (db : Db)
  : outcome obj :=
  match findIndex (has_id id) (users db) with
  | None => Throws (lit "User not found")
  | Some userIndex =>
    match nth_error (users db) userIndex with
    | None => Throws (lit "User not found")
    | Some old =>
      let name := get (lit "username") updates in
      if truthy_val name
         && negb (strict_eq name (get (lit "username") old))
         && existsb (has_username name) (users db)
      then Throws (lit "Username already exists")
      else
        let u := set (lit "updatedAt") (JStr now)
                   (spread (spread [] old) updates) in
        Returns (omit (lit "passwordHash") u)
                (Some (set_users (replace_at userIndex u (users db)) db))
    end
  end.

(** [users.delete(id)]; it returns [true]. *)
Definition delete (id : num) (db : Db) : outcome bool :=
  match findIndex (has_id id) (users db) with
  | None => Throws (lit "User not found")
  | Some userIndex =>
    match nth_error (users db) userIndex with
    | None => Throws (lit "User not found")
    | Some user =>
      if is_admin user
         && (List.length (filter is_admin (users db)) <=? 1)%nat
      then Throws (lit "Cannot delete the last admin user")
      else Returns true
                   (Some (set_users (remove_at userIndex (users db)) db))
    end
  end.

(** The database written by an operation that can throw. *)
Definition written_by {A} (o : outcome A) : option Db :=
  match o with
  | Returns _ w => w
  | Throws _ => None
  end.

(** No two users of the list have the same user name. *)
Fixpoint unique_usernames (l : list obj) : Prop :=
  match l with
  | [] => True
  | u :: rest =>
    existsb (has_username (get (lit "username") u)) rest = false /\
    unique_usernames rest
  end.

End Users.

(** Every record of [l] has a number below [n] as its [id]. *)
Definition ids_below (n : Z) (l : list obj) : Prop :=
  Forall (fun o => exists z, get (lit "id") o = JNum (Num z) /\ z < n) l.

(** No record carries an identifier that [nextId] has yet to give. *)
Definition fresh_ids (db : Db) : Prop :=
  ids_below (nextId db) (sources db) /\
  ids_below (nextId db) (hiddenItems db) /\
  ids_below (nextId db) (favorites db) /\
  ids_below (nextId db) (users db).

End Database.

(** ** Settings, keyboard and overlay of the video player *)
Module PlayerUi.
Import Js.

(** [defaults] of [loadSettings]. *)
Definition defaults : obj :=
  [ (lit "arrowKeysChangeChannel", JBool true);
    (lit "overlayDuration", JNum (Num 5));
    (lit "defaultVolume", JNum (Num 80));
    (lit "rememberVolume", JBool true);
    (lit "lastVolume", JNum (Num 80));
    (lit "autoPlayNextEpisode", JBool false);
    (lit "forceProxy", JBool false);
    (lit "forceTranscode", JBool false) ].

(** What [localStorage.getItem] and [JSON.parse] give: no item (or an
    empty string), a failure of either call, or the parsed object. *)
Inductive Saved :=
| NoItem
| StorageFailed
| Parsed (o : obj).

(** [loadSettings()] *)
Definition loadSettings (saved : Saved) : obj :=
  match saved with
  | Parsed o => spread (spread [] defaults) o
  | NoItem => defaults
  | StorageFailed => defaults
  end.

(** The two settings that [play] reads, as it tests them. *)
Definition player_settings (o : obj) : Player.Settings :=
  {| Player.forceProxy := truthy_val (get (lit "forceProxy") o);
     Player.forceTranscode := truthy_val (get (lit "forceTranscode") o) |}.

(** *** The now-playing overlay and its timer

    [timers] are the pending time-outs, by identifier; identifiers are
    positive, hence truthy. *)
Record Overlay := {
  hasChannel : bool;
  overlayTimer : option nat;
  timers : list nat;
  next_timer : nat;
  hidden : bool
}.

(** [clearTimeout(id)] *)
Definition clearTimeout (id : nat) (l : list nat) : list nat :=
  filter (fun t => negb (Nat.eqb t id)) l.

(** [if (this.overlayTimer) clearTimeout(this.overlayTimer)] *)
Definition clear_overlay_timer (o : Overlay) : list nat :=
  match overlayTimer o with
  | Some id => clearTimeout id (timers o)
  | None => timers o
  end.

(** [showNowPlayingOverlay()] *)
Definition showNowPlayingOverlay (o : Overlay) : Overlay :=
  if hasChannel o then
    {| hasChannel := true;
       overlayTimer := Some (next_timer o);
       timers := next_timer o :: clear_overlay_timer o;
       next_timer := S (next_timer o);
       hidden := false |}
  else o.

(** [hideNowPlayingOverlay()] *)
Definition hideNowPlayingOverlay (o : Overlay) : Overlay :=
  {| hasChannel := hasChannel o;
     overlayTimer := overlayTimer o;
     timers := clear_overlay_timer o;
     next_timer := next_timer o;
     hidden := true |}.

(** The time-out [id] elapses: its callback hides the overlay, if the
    time-out is still pending. *)
Definition timeout_fires (id : nat) (o : Overlay) : Overlay :=
  if existsb (Nat.eqb id) (timers o) then
    {| hasChannel := hasChannel o;
       overlayTimer := overlayTimer o;
       timers := clearTimeout id (timers o);
       next_timer := next_timer o;
       hidden := true |}
  else o.

(** [this.currentChannel = channel], as [play] does. *)
Definition channel_selected (o : Overlay) : Overlay :=
  {| hasChannel := true; overlayTimer := overlayTimer o; timers := timers o;
     next_timer := next_timer o; hidden := hidden o |}.

Inductive OverlayOp :=
| Show
| Hide
| Fires (id : nat)
| Selected.

Definition overlay_step (op : OverlayOp) (o : Overlay) : Overlay :=
  match op with
  | Show => showNowPlayingOverlay o
  | Hide => hideNowPlayingOverlay o
  | Fires id => timeout_fires id o
  | Selected => channel_selected o
  end.

Definition overlay_run (ops : list OverlayOp) (o : Overlay) : Overlay :=
  fold_left (fun acc op => overlay_step op acc) ops o.

(** A player just constructed: no channel, no timer; the overlay is
    hidden or not as the page has it. *)
Definition overlay_init (pageHidden : bool) : Overlay :=
  {| hasChannel := false; overlayTimer := None; timers := [];
     next_timer := 1; hidden := pageHidden |}.

(** The pending time-outs are at most the one in [overlayTimer], and a
    time-out yet to be created is not pending. *)
Definition one_timer (o : Overlay) : Prop :=
  (timers o = [] \/ exists id, overlayTimer o = Some id /\ timers o = [id]) /\
  Forall (fun t => (t < next_timer o)%nat) (timers o) /\
  match overlayTimer o with Some id => (id < next_timer o)%nat | None => True end.

(** *** Keyboard shortcuts ([handleKeyboard])

    The volume of the video element is modelled as a rational number;
    only the order of numbers matters to what is proved of it. *)
Record Keys := {
  volume : Q;
  kpaused : bool;
  muted : bool;
  arrowKeysChangeChannel : bool;
  overlay : Overlay
}.

Inductive KeyAction :=
| PreventDefault
| CallPlay
| CallPause
| ToggleFullscreen
| ChannelUp
| ChannelDown.

(** [Math.min(1, x)] and [Math.max(0, x)] *)
Definition min1 (x : Q) : Q := if Qle_bool 1 x then 1%Q else x.
Definition max0 (x : Q) : Q := if Qle_bool x 0 then 0%Q else x.

Definition set_volume (v : Q) (k : Keys) : Keys :=
  {| volume := v; kpaused := kpaused k; muted := muted k;
     arrowKeysChangeChannel := arrowKeysChangeChannel k;
     overlay := overlay k |}.

Definition volume_up (k : Keys) : Keys :=
  set_volume (min1 (volume k + (1 # 10))%Q) k.

Definition volume_down (k : Keys) : Keys :=
  set_volume (max0 (volume k - (1 # 10))%Q) k.

(** [handleKeyboard(e)]; [inInput] is
    [document.activeElement.tagName === 'INPUT']. *)
Definition handleKeyboard (inInput : bool) (key : string) (k : Keys)
  : Keys * list KeyAction :=
  if inInput then (k, [])
  else if String.eqb key " " || String.eqb key "k" then
    ({| volume := volume k; kpaused := negb (kpaused k); muted := muted k;
        arrowKeysChangeChannel := arrowKeysChangeChannel k;
        overlay := overlay k |},
     [PreventDefault; if kpaused k then CallPlay else CallPause])
  else if String.eqb key "f" then (k, [PreventDefault; ToggleFullscreen])
  else if String.eqb key "m" then
    ({| volume := volume k; kpaused := kpaused k; muted := negb (muted k);
        arrowKeysChangeChannel := arrowKeysChangeChannel k;
        overlay := overlay k |},
     [PreventDefault])
  else if String.eqb key "ArrowUp" then
    if arrowKeysChangeChannel k then (k, [])
    else (volume_up k, [PreventDefault])
  else if String.eqb key "ArrowDown" then
    if arrowKeysChangeChannel k then (k, [])
    else (volume_down k, [PreventDefault])
  else if String.eqb key "ArrowLeft" then
    (if arrowKeysChangeChannel k then volume_down k else k, [PreventDefault])
  else if String.eqb key "ArrowRight" then
    (if arrowKeysChangeChannel k then volume_up k else k, [PreventDefault])
  else if String.eqb key "PageUp" || String.eqb key "ChannelUp" then
    (k, [PreventDefault; ChannelUp])
  else if String.eqb key "PageDown" || String.eqb key "ChannelDown" then
    (k, [PreventDefault; ChannelDown])
  else if String.eqb key "i" then
    ({| volume := volume k; kpaused := kpaused k; muted := muted k;
        arrowKeysChangeChannel := arrowKeysChangeChannel k;
        overlay := if hidden (overlay k)
                   then showNowPlayingOverlay (overlay k)
                   else hideNowPlayingOverlay (overlay k) |},
     [PreventDefault])
  else (k, []).

(** Key presses in order, each with whether the focus is in an input. *)
Definition keys_run (presses : list (bool * string)) (k : Keys) : Keys :=
  fold_left (fun acc p => fst (handleKeyboard (fst p) (snd p) acc)) presses k.

End PlayerUi.

(** * Properties *)

(** ** Facts about strings *)
Module JsStringFacts.

Lemma jstr_eqb_eq a b : jstr_eqb a b = true <-> a = b.
Proof.
  revert b; induction a as [|x a IH]; intros [|y b]; simpl;
    try (split; [discriminate | congruence]); try tauto.
  rewrite andb_true_iff, Z.eqb_eq, IH. split.
  - intros [-> ->]; reflexivity.
  - intros H; injection H; auto.
Qed.

Lemma jstr_eqb_refl a : jstr_eqb a a = true.
Proof. apply jstr_eqb_eq; reflexivity. Qed.

Lemma startsWith_app p s : startsWith p (p ++ s) = true.
Proof. induction p; simpl; [|rewrite Z.eqb_refl]; auto. Qed.

Lemma includes_app_intro a p b : includes (a ++ p ++ b) p = true.
Proof.
  induction a as [|x a IH]; simpl.
  - pose proof (startsWith_app p b) as H.
    destruct (p ++ b); simpl; rewrite H; reflexivity.
  - rewrite IH. apply orb_true_r.
Qed.

End JsStringFacts.
Import JsStringFacts.


(** ** Facts about URI component encoding *)
Module UriFacts.
Import Uri.

Lemma forall_range_spec f n : forall lo,
  forall_range f lo n = true ->
  forall x, lo <= x < lo + Z.of_nat n -> f x = true.
Proof.
  induction n as [|n IH]; intros lo H x Hx; [lia|].
  simpl in H. apply andb_true_iff in H. destruct H as [H0 H1].
  destruct (Z.eq_dec x lo) as [->|Hne]; [exact H0|].
  apply (IH (lo + 1) H1). lia.
Qed.

Lemma land_shiftl_low a b n :
  0 <= n -> 0 <= b < 2 ^ n -> Z.land (Z.shiftl a n) b = 0.
Proof.
  intros Hn Hb. apply Z.bits_inj'. intros i Hi.
  rewrite Z.land_spec, Z.bits_0.
  destruct (Z.lt_ge_cases i n) as [L|G].
  - rewrite Z.shiftl_spec_low by lia. reflexivity.
  - destruct (Z.eq_dec b 0) as [->|Hb0].
    + rewrite Z.bits_0. apply andb_false_r.
    + rewrite (Z.bits_above_log2 b i); [apply andb_false_r|lia|].
      apply Z.log2_lt_pow2; try lia.
      apply Z.lt_le_trans with (2 ^ n); try lia.
      apply Z.pow_le_mono_r; lia.
Qed.

Lemma lor_shiftl a b n :
  0 <= n -> 0 <= b < 2 ^ n -> Z.lor (Z.shiftl a n) b = a * 2 ^ n + b.
Proof.
  intros Hn Hb.
  pose proof (Z.add_lor_land (Z.shiftl a n) b) as H.
  rewrite land_shiftl_low in H by assumption.
  rewrite Z.shiftl_mul_pow2 in * by assumption. lia.
Qed.

Lemma hex2_pct b rest :
  0 <= b < 256 ->
  hex2 (hexdigit (Z.shiftr b 4) :: hexdigit (Z.land b 0xF) :: rest)
    = Some (b, rest).
Proof.
  intros Hb.
  assert (Hf : forall_range hex_ok 0 256 = true) by (vm_compute; reflexivity).
  pose proof (forall_range_spec _ _ _ Hf b ltac:(lia)) as H.
  unfold hex_ok, hex2 in *.
  destruct (hexval (hexdigit (Z.shiftr b 4))); [|discriminate].
  destruct (hexval (hexdigit (Z.land b 15))); [|discriminate].
  apply Z.eqb_eq in H. rewrite H. reflexivity.
Qed.

Lemma seq_len_is_eq b n : seq_len_is b n = true -> seq_len b = Some n.
Proof.
  unfold seq_len_is. destruct (seq_len b); [|discriminate].
  intros H. apply Nat.eqb_eq in H. congruence.
Qed.

Lemma cont_octet y :
  0 <= y < 64 ->
  Z.lor 0x80 y = 0x80 + y /\ is_cont (0x80 + y) = true /\
  Z.land (0x80 + y) 0x3F = y.
Proof.
  intros Hy.
  assert (Hf : forall_range cont_ok 0 64 = true) by (vm_compute; reflexivity).
  pose proof (forall_range_spec _ _ _ Hf y ltac:(lia)) as H.
  unfold cont_ok in H. apply andb_true_iff in H. destruct H as [H H3].
  apply andb_true_iff in H. destruct H as [H1 H2].
  apply Z.eqb_eq in H1, H3. auto.
Qed.

Lemma lead2_octet x :
  0 <= x < 32 ->
  Z.lor 0xC0 x = 0xC0 + x /\ seq_len (0xC0 + x) = Some 2%nat /\
  Z.land (0xC0 + x) 0x1F = x.
Proof.
  intros Hx.
  assert (Hf : forall_range lead2_ok 0 32 = true) by (vm_compute; reflexivity).
  pose proof (forall_range_spec _ _ _ Hf x ltac:(lia)) as H.
  unfold lead2_ok in H. apply andb_true_iff in H. destruct H as [H H3].
  apply andb_true_iff in H. destruct H as [H1 H2].
  apply Z.eqb_eq in H1, H3. apply seq_len_is_eq in H2. auto.
Qed.

Lemma lead3_octet x :
  0 <= x < 16 ->
  Z.lor 0xE0 x = 0xE0 + x /\ seq_len (0xE0 + x) = Some 3%nat /\
  Z.land (0xE0 + x) 0x0F = x.
Proof.
  intros Hx.
  assert (Hf : forall_range lead3_ok 0 16 = true) by (vm_compute; reflexivity).
  pose proof (forall_range_spec _ _ _ Hf x ltac:(lia)) as H.
  unfold lead3_ok in H. apply andb_true_iff in H. destruct H as [H H3].
  apply andb_true_iff in H. destruct H as [H1 H2].
  apply Z.eqb_eq in H1, H3. apply seq_len_is_eq in H2. auto.
Qed.

Lemma lead4_octet x :
  0 <= x < 8 ->
  Z.lor 0xF0 x = 0xF0 + x /\ seq_len (0xF0 + x) = Some 4%nat /\
  Z.land (0xF0 + x) 0x07 = x.
Proof.
  intros Hx.
  assert (Hf : forall_range lead4_ok 0 8 = true) by (vm_compute; reflexivity).
  pose proof (forall_range_spec _ _ _ Hf x ltac:(lia)) as H.
  unfold lead4_ok in H. apply andb_true_iff in H. destruct H as [H H3].
  apply andb_true_iff in H. destruct H as [H1 H2].
  apply Z.eqb_eq in H1, H3. apply seq_len_is_eq in H2. auto.
Qed.

Lemma shiftr_div a n k : 0 <= n -> 2 ^ n = k -> Z.shiftr a n = a / k.
Proof. intros Hn <-. apply Z.shiftr_div_pow2; exact Hn. Qed.

Lemma land_0x3F a : Z.land a 0x3F = a mod 64.
Proof. change 0x3F with (Z.ones 6). rewrite Z.land_ones by lia. reflexivity. Qed.

(** The octets of [utf8], arithmetically. *)
Lemma utf8_2 cp :
  0x80 <= cp < 0x800 ->
  utf8 cp = [0xC0 + cp / 64; 0x80 + cp mod 64].
Proof.
  intros H. unfold utf8.
  destruct (cp <? 0x80) eqn:E1; [apply Z.ltb_lt in E1; lia|].
  destruct (cp <? 0x800) eqn:E2; [|apply Z.ltb_ge in E2; lia].
  rewrite (shiftr_div cp 6 64), land_0x3F by (reflexivity || lia).
  destruct (lead2_octet (cp / 64)) as (-> & _);
    [Z.to_euclidean_division_equations; lia|].
  destruct (cont_octet (cp mod 64)) as (-> & _);
    [Z.to_euclidean_division_equations; lia|].
  reflexivity.
Qed.

Lemma utf8_3 cp :
  0x800 <= cp < 0x10000 ->
  utf8 cp = [0xE0 + cp / 4096; 0x80 + (cp / 64) mod 64; 0x80 + cp mod 64].
Proof.
  intros H. unfold utf8.
  destruct (cp <? 0x80) eqn:E1; [apply Z.ltb_lt in E1; lia|].
  destruct (cp <? 0x800) eqn:E2; [apply Z.ltb_lt in E2; lia|].
  destruct (cp <? 0x10000) eqn:E3; [|apply Z.ltb_ge in E3; lia].
  rewrite (shiftr_div cp 6 64), (shiftr_div cp 12 4096), !land_0x3F
    by (reflexivity || lia).
  destruct (lead3_octet (cp / 4096)) as (-> & _);
    [Z.to_euclidean_division_equations; lia|].
  destruct (cont_octet ((cp / 64) mod 64)) as (-> & _);
    [Z.to_euclidean_division_equations; lia|].
  destruct (cont_octet (cp mod 64)) as (-> & _);
    [Z.to_euclidean_division_equations; lia|].
  reflexivity.
Qed.

Lemma utf8_4 cp :
  0x10000 <= cp <= 0x10FFFF ->
  utf8 cp = [0xF0 + cp / 262144; 0x80 + (cp / 4096) mod 64;
             0x80 + (cp / 64) mod 64; 0x80 + cp mod 64].
Proof.
  intros H. unfold utf8.
  destruct (cp <? 0x80) eqn:E1; [apply Z.ltb_lt in E1; lia|].
  destruct (cp <? 0x800) eqn:E2; [apply Z.ltb_lt in E2; lia|].
  destruct (cp <? 0x10000) eqn:E3; [apply Z.ltb_lt in E3; lia|].
  rewrite (shiftr_div cp 6 64), (shiftr_div cp 12 4096),
    (shiftr_div cp 18 262144), !land_0x3F by (reflexivity || lia).
  destruct (lead4_octet (cp / 262144)) as (-> & _);
    [Z.to_euclidean_division_equations; lia|].
  destruct (cont_octet ((cp / 4096) mod 64)) as (-> & _);
    [Z.to_euclidean_division_equations; lia|].
  destruct (cont_octet ((cp / 64) mod 64)) as (-> & _);
    [Z.to_euclidean_division_equations; lia|].
  destruct (cont_octet (cp mod 64)) as (-> & _);
    [Z.to_euclidean_division_equations; lia|].
  reflexivity.
Qed.

(** Reading the octets back. *)
Lemma utf8_decode_2 a b :
  0 <= a < 32 -> 0 <= b < 64 -> 0x80 <= a * 64 + b ->
  utf8_decode [0xC0 + a; 0x80 + b] = Some (a * 64 + b).
Proof.
  intros Ha Hb Hv. unfold utf8_decode.
  destruct (lead2_octet a Ha) as (_ & _ & ->).
  destruct (cont_octet b Hb) as (_ & -> & ->).
  rewrite (lor_shiftl a b 6) by (simpl; lia).
  change (2 ^ 6) with 64.
  destruct (0x80 <=? a * 64 + b) eqn:E; [reflexivity|].
  apply Z.leb_gt in E. lia.
Qed.

Lemma utf8_decode_3 a b c :
  0 <= a < 16 -> 0 <= b < 64 -> 0 <= c < 64 ->
  0x800 <= a * 4096 + (b * 64 + c) ->
  ~ (0xD800 <= a * 4096 + (b * 64 + c) <= 0xDFFF) ->
  utf8_decode [0xE0 + a; 0x80 + b; 0x80 + c] = Some (a * 4096 + (b * 64 + c)).
Proof.
  intros Ha Hb Hc Hv Hs. unfold utf8_decode.
  destruct (lead3_octet a Ha) as (_ & _ & ->).
  destruct (cont_octet b Hb) as (_ & -> & ->).
  destruct (cont_octet c Hc) as (_ & -> & ->).
  rewrite (lor_shiftl b c 6) by (simpl; lia). change (2 ^ 6) with 64.
  rewrite (lor_shiftl a (b * 64 + c) 12) by (simpl; lia).
  change (2 ^ 12) with 4096.
  destruct (0x800 <=? _) eqn:E; [|apply Z.leb_gt in E; lia].
  destruct ((0xD800 <=? _) && (_ <=? 0xDFFF)) eqn:E2; [|reflexivity].
  apply andb_true_iff in E2. destruct E2 as [E2 E3].
  apply Z.leb_le in E2, E3. lia.
Qed.

Lemma utf8_decode_4 a b c d :
  0 <= a < 8 -> 0 <= b < 64 -> 0 <= c < 64 -> 0 <= d < 64 ->
  0x10000 <= a * 262144 + (b * 4096 + (c * 64 + d)) <= 0x10FFFF ->
  utf8_decode [0xF0 + a; 0x80 + b; 0x80 + c; 0x80 + d]
    = Some (a * 262144 + (b * 4096 + (c * 64 + d))).
Proof.
  intros Ha Hb Hc Hd Hv. unfold utf8_decode.
  destruct (lead4_octet a Ha) as (_ & _ & ->).
  destruct (cont_octet b Hb) as (_ & -> & ->).
  destruct (cont_octet c Hc) as (_ & -> & ->).
  destruct (cont_octet d Hd) as (_ & -> & ->).
  rewrite (lor_shiftl c d 6) by (simpl; lia). change (2 ^ 6) with 64.
  rewrite (lor_shiftl b (c * 64 + d) 12) by (simpl; lia).
  change (2 ^ 12) with 4096.
  rewrite (lor_shiftl a (b * 4096 + (c * 64 + d)) 18) by (simpl; lia).
  change (2 ^ 18) with 262144.
  destruct (0x10000 <=? _) eqn:E; [|apply Z.leb_gt in E; lia].
  destruct (_ <=? 0x10FFFF) eqn:E2; [|apply Z.leb_gt in E2; lia].
  reflexivity.
Qed.

(** One iteration of the decoder. *)
Lemma decode_eq f c tl :
  decode (S f) (c :: tl) =
    if c =? 37 then
      match hex2 tl with
      | None => None
      | Some (b, rest) =>
        if b <? 0x80 then option_map (cons b) (decode f rest)
        else
          match seq_len b with
          | None => None
          | Some n =>
            match take_cont (Nat.pred n) rest with
            | None => None
            | Some (bs, rest') =>
              match utf8_decode (b :: bs) with
              | None => None
              | Some cp => option_map (app (utf16 cp)) (decode f rest')
              end
            end
          end
      end
    else option_map (cons c) (decode f tl).
Proof. reflexivity. Qed.

Lemma take_cont_pct k b rest :
  0 <= b < 256 ->
  take_cont (S k) (pct b ++ rest) =
    match take_cont k rest with
    | Some (bs, r) => Some (b :: bs, r)
    | None => None
    end.
Proof.
  intros Hb. unfold pct. cbn [take_cont app].
  rewrite hex2_pct by exact Hb. reflexivity.
Qed.

Lemma decode_pct f b rest :
  0 <= b < 256 ->
  decode (S f) (pct b ++ rest) =
    if b <? 0x80 then option_map (cons b) (decode f rest)
    else
      match seq_len b with
      | None => None
      | Some n =>
        match take_cont (Nat.pred n) rest with
        | None => None
        | Some (bs, rest') =>
          match utf8_decode (b :: bs) with
          | None => None
          | Some cp => option_map (app (utf16 cp)) (decode f rest')
          end
        end
      end.
Proof.
  intros Hb. unfold pct. cbn [app]. rewrite decode_eq.
  rewrite Z.eqb_refl, hex2_pct by exact Hb. reflexivity.
Qed.

Lemma unescaped_not_pct c : unescaped c = true -> (c =? 37) = false.
Proof.
  intros H. destruct (c =? 37) eqn:E; [|reflexivity].
  apply Z.eqb_eq in E. subst c. discriminate H.
Qed.

Lemma unescaped_ascii c : unescaped c = true -> 33 <= c <= 126.
Proof. unfold unescaped. lia. Qed.

Lemma pct_octets_cons b l rest :
  pct_octets (b :: l) ++ rest = pct b ++ (pct_octets l ++ rest).
Proof.
  unfold pct_octets.
  change (flat_map pct (b :: l)) with (pct b ++ flat_map pct l).
  rewrite <- app_assoc. reflexivity.
Qed.

Lemma utf16_bmp cp : cp < 0x10000 -> utf16 cp = [cp].
Proof.
  intros H. unfold utf16.
  destruct (cp <? 0x10000) eqn:E; [reflexivity|apply Z.ltb_ge in E; lia].
Qed.

Lemma surrogate_bounds c d :
  is_lead c = true -> is_trail d = true ->
  0xD800 <= c <= 0xDBFF /\ 0xDC00 <= d <= 0xDFFF.
Proof. unfold is_lead, is_trail. lia. Qed.

Lemma utf16_pair c d :
  is_lead c = true -> is_trail d = true ->
  utf16 (pair_cp c d) = [c; d].
Proof.
  intros Hc Hd. destruct (surrogate_bounds c d Hc Hd) as [Bc Bd].
  unfold utf16, pair_cp.
  destruct (_ <? 0x10000) eqn:E; [apply Z.ltb_lt in E; lia|].
  rewrite (shiftr_div _ 10 1024) by (reflexivity || lia).
  change 0x3FF with (Z.ones 10). rewrite Z.land_ones by lia.
  change (2 ^ 10) with 1024.
  f_equal; [|f_equal]; Z.to_euclidean_division_equations; lia.
Qed.

(** A code unit that is escaped and is no surrogate reads back. *)
Lemma decode_unit c f rest :
  0 <= c <= 0xFFFF -> is_lead c = false -> is_trail c = false ->
  decode (S f) (pct_octets (utf8 c) ++ rest) = option_map (cons c) (decode f rest).
Proof.
  intros Hc Hl Ht.
  assert (Hs : ~ (0xD800 <= c <= 0xDFFF)) by (unfold is_lead, is_trail in *; lia).
  destruct (Z.lt_ge_cases c 0x80) as [C1|C1].
  - assert (E : utf8 c = [c])
      by (unfold utf8; destruct (c <? 0x80) eqn:E;
          [reflexivity | apply Z.ltb_ge in E; lia]).
    rewrite E, pct_octets_cons. cbn [pct_octets flat_map app].
    rewrite decode_pct by lia.
    destruct (c <? 0x80) eqn:E1; [reflexivity | apply Z.ltb_ge in E1; lia].
  - destruct (Z.lt_ge_cases c 0x800) as [C2|C2].
    + rewrite utf8_2 by lia. rewrite !pct_octets_cons.
      cbn [pct_octets flat_map app].
      assert (Ha : 0 <= c / 64 < 32) by (Z.to_euclidean_division_equations; lia).
      assert (Hb : 0 <= c mod 64 < 64) by (Z.to_euclidean_division_equations; lia).
      rewrite decode_pct by lia.
      destruct (_ <? 0x80) eqn:E1; [apply Z.ltb_lt in E1; lia|].
      destruct (lead2_octet _ Ha) as (_ & -> & _). cbn [Nat.pred].
      rewrite take_cont_pct by lia. cbn [take_cont].
      rewrite utf8_decode_2 by (Z.to_euclidean_division_equations; lia).
      replace (c / 64 * 64 + c mod 64) with c
        by (Z.to_euclidean_division_equations; lia).
      rewrite utf16_bmp by lia. reflexivity.
    + rewrite utf8_3 by lia. rewrite !pct_octets_cons.
      cbn [pct_octets flat_map app].
      assert (Ha : 0 <= c / 4096 < 16) by (Z.to_euclidean_division_equations; lia).
      assert (Hb : 0 <= (c / 64) mod 64 < 64)
        by (Z.to_euclidean_division_equations; lia).
      assert (Hd : 0 <= c mod 64 < 64) by (Z.to_euclidean_division_equations; lia).
      assert (Hv : c / 4096 * 4096 + ((c / 64) mod 64 * 64 + c mod 64) = c)
        by (Z.to_euclidean_division_equations; lia).
      rewrite decode_pct by lia.
      destruct (_ <? 0x80) eqn:E1; [apply Z.ltb_lt in E1; lia|].
      destruct (lead3_octet _ Ha) as (_ & -> & _). cbn [Nat.pred].
      rewrite !take_cont_pct by lia. cbn [take_cont].
      rewrite utf8_decode_3 by (rewrite ?Hv; lia).
      rewrite Hv, utf16_bmp by lia. reflexivity.
Qed.

(** A surrogate pair reads back. *)
Lemma decode_pair c d f rest :
  is_lead c = true -> is_trail d = true ->
  decode (S f) (pct_octets (utf8 (pair_cp c d)) ++ rest)
    = option_map (app [c; d]) (decode f rest).
Proof.
  intros Hc Hd. destruct (surrogate_bounds c d Hc Hd) as [Bc Bd].
  pose proof (utf16_pair c d Hc Hd) as U.
  remember (pair_cp c d) as v eqn:Ev.
  assert (Hv : 0x10000 <= v <= 0x10FFFF) by (subst v; unfold pair_cp; lia).
  rewrite utf8_4 by exact Hv. rewrite !pct_octets_cons.
  cbn [pct_octets flat_map app].
  assert (Ha : 0 <= v / 262144 < 8) by (Z.to_euclidean_division_equations; lia).
  assert (Hb : 0 <= (v / 4096) mod 64 < 64)
    by (Z.to_euclidean_division_equations; lia).
  assert (Hm : 0 <= (v / 64) mod 64 < 64)
    by (Z.to_euclidean_division_equations; lia).
  assert (Hl : 0 <= v mod 64 < 64) by (Z.to_euclidean_division_equations; lia).
  assert (Hr : v / 262144 * 262144 +
               ((v / 4096) mod 64 * 4096 + ((v / 64) mod 64 * 64 + v mod 64)) = v)
    by (Z.to_euclidean_division_equations; lia).
  rewrite decode_pct by lia.
  destruct (_ <? 0x80) eqn:E1; [apply Z.ltb_lt in E1; lia|].
  destruct (lead4_octet _ Ha) as (_ & -> & _). cbn [Nat.pred].
  rewrite !take_cont_pct by lia. cbn [take_cont].
  rewrite utf8_decode_4 by (rewrite ?Hr; lia).
  rewrite Hr, U. reflexivity.
Qed.

Lemma utf8_octets cp :
  0 <= cp <= 0x10FFFF -> Forall is_octet (utf8 cp) /\ utf8 cp <> [].
Proof.
  intros H. unfold is_octet.
  destruct (Z.lt_ge_cases cp 0x80) as [C1|C1].
  - assert (E : utf8 cp = [cp])
      by (unfold utf8; destruct (cp <? 0x80) eqn:E;
          [reflexivity | apply Z.ltb_ge in E; lia]).
    rewrite E. split; [|discriminate]. repeat constructor; lia.
  - destruct (Z.lt_ge_cases cp 0x800) as [C2|C2];
      [rewrite utf8_2 by lia
      |destruct (Z.lt_ge_cases cp 0x10000) as [C3|C3];
        [rewrite utf8_3 by lia | rewrite utf8_4 by lia]];
      (split; [|discriminate]);
      repeat constructor; Z.to_euclidean_division_equations; lia.
Qed.

Lemma pct_no_delim b : is_octet b -> Forall no_delim (pct b).
Proof.
  intros Hb. unfold is_octet in Hb.
  assert (H1 : 0 <= Z.shiftr b 4 < 16).
  { rewrite (shiftr_div b 4 16) by (reflexivity || lia).
    Z.to_euclidean_division_equations; lia. }
  assert (H2 : 0 <= Z.land b 0xF < 16).
  { change 0xF with (Z.ones 4). rewrite Z.land_ones by lia.
    change (2 ^ 4) with 16. Z.to_euclidean_division_equations; lia. }
  unfold pct, no_delim, hexdigit.
  repeat constructor; try lia;
    try (destruct (Z.shiftr b 4 <? 10); lia);
    try (destruct (Z.land b 15 <? 10); lia).
Qed.

Lemma pct_octets_no_delim l :
  Forall is_octet l -> Forall no_delim (pct_octets l).
Proof.
  induction 1 as [|b l Hb Hl IH]; [constructor|].
  unfold pct_octets. change (flat_map pct (b :: l)) with (pct b ++ flat_map pct l).
  apply Forall_app. split; [apply pct_no_delim; exact Hb | exact IH].
Qed.

Lemma pct_octets_length l : List.length (pct_octets l) = (3 * List.length l)%nat.
Proof.
  induction l as [|b l IH]; [reflexivity|].
  unfold pct_octets in *. change (flat_map pct (b :: l)) with (pct b ++ flat_map pct l).
  rewrite length_app, IH. simpl. lia.
Qed.

Lemma until_delim_id e : Forall no_delim e -> until_delim e = e.
Proof.
  induction 1 as [|c e (H1 & H2 & _) He IH]; [reflexivity|].
  simpl. apply Z.eqb_neq in H1, H2. rewrite H1, H2, IH. reflexivity.
Qed.

Lemma plus_to_space_id e : Forall no_delim e -> plus_to_space e = e.
Proof.
  induction 1 as [|c e (_ & _ & H3) He IH]; [reflexivity|].
  unfold plus_to_space in *. simpl. apply Z.eqb_neq in H3.
  rewrite H3, IH. reflexivity.
Qed.

Lemma strip_prefix_app p e : strip_prefix p (p ++ e) = Some e.
Proof. induction p as [|x p IH]; simpl; [|rewrite Z.eqb_refl]; auto. Qed.

Lemma lead_not_unescaped c : is_lead c = true -> unescaped c = false.
Proof.
  intros H. destruct (unescaped c) eqn:E; [|reflexivity].
  apply unescaped_ascii in E. unfold is_lead in H. lia.
Qed.

Lemma unescaped_no_delim c : unescaped c = true -> no_delim c.
Proof. unfold unescaped, no_delim. lia. Qed.

(** Encoding a well-formed string succeeds; the result is no shorter,
    holds no query delimiter, and decodes to the string. *)
Lemma encode_decode_bounded n : forall s,
  (List.length s <= n)%nat ->
  well_formed s = true ->
  exists e,
    encodeURIComponent s = Some e /\
    (List.length s <= List.length e)%nat /\
    Forall no_delim e /\
    forall f, (List.length s < f)%nat -> decode f e = Some s.
Proof.
  induction n as [|n IH]; intros s Hn Hw.
  { destruct s; [|simpl in Hn; lia]. exists []. repeat split; auto.
    intros [|f] Hf; [simpl in Hf; lia | reflexivity]. }
  destruct s as [|c tl].
  { exists []. repeat split; auto.
    intros [|f] Hf; [simpl in Hf; lia | reflexivity]. }
  cbn [well_formed] in Hw. apply andb_true_iff in Hw. destruct Hw as [Hr Hw].
  assert (Hc : 0 <= c <= 0xFFFF) by lia. clear Hr.
  cbn [encodeURIComponent].
  destruct (is_lead c) eqn:Hl.
  - rewrite (lead_not_unescaped c Hl).
    destruct tl as [|d tl']; [discriminate|].
    apply andb_true_iff in Hw. destruct Hw as [Hd Hw]. rewrite Hd.
    destruct (IH tl' ltac:(simpl in Hn; lia) Hw) as (e & -> & Hlen & Hnd & Hdec).
    destruct (surrogate_bounds c d Hl Hd) as [Bc Bd].
    assert (Hv : 0 <= pair_cp c d <= 0x10FFFF) by (unfold pair_cp; lia).
    destruct (utf8_octets _ Hv) as [Ho Hne].
    eexists. split; [reflexivity|]. cbn [option_map].
    split; [|split].
    + rewrite length_app, pct_octets_length.
      destruct (utf8 (pair_cp c d)); [congruence|]. simpl in *. lia.
    + apply Forall_app. split; [apply pct_octets_no_delim; exact Ho | exact Hnd].
    + intros [|f] Hf; [simpl in Hf; lia|].
      rewrite decode_pair by assumption.
      rewrite Hdec by (simpl in Hf; lia). reflexivity.
  - apply andb_true_iff in Hw. destruct Hw as [Ht Hw].
    apply negb_true_iff in Ht. rewrite Ht.
    destruct (IH tl ltac:(simpl in Hn; lia) Hw) as (e & -> & Hlen & Hnd & Hdec).
    destruct (unescaped c) eqn:Hu.
    + eexists. split; [reflexivity|]. cbn [option_map].
      split; [simpl; lia|]. split.
      * constructor; [apply unescaped_no_delim; exact Hu | exact Hnd].
      * intros [|f] Hf; [simpl in Hf; lia|].
        rewrite decode_eq, (unescaped_not_pct c Hu).
        rewrite Hdec by (simpl in Hf; lia). reflexivity.
    + destruct (utf8_octets c ltac:(lia)) as [Ho Hne].
      eexists. split; [reflexivity|]. cbn [option_map].
      split; [|split].
      * rewrite length_app, pct_octets_length.
        destruct (utf8 c); [congruence|]. simpl in *. lia.
      * apply Forall_app. split; [apply pct_octets_no_delim; exact Ho | exact Hnd].
      * intros [|f] Hf; [simpl in Hf; lia|].
        rewrite decode_unit by assumption.
        rewrite Hdec by (simpl in Hf; lia). reflexivity.
Qed.

Lemma encode_well_formed s :
  well_formed s = true ->
  exists e,
    encodeURIComponent s = Some e /\
    (List.length s <= List.length e)%nat /\
    Forall no_delim e /\
    decodeURIComponent e = Some s.
Proof.
  intros Hw.
  destruct (encode_decode_bounded (List.length s) s (le_n _) Hw)
    as (e & He & Hlen & Hnd & Hdec).
  exists e. repeat split; auto.
  unfold decodeURIComponent. apply Hdec. lia.
Qed.

(** Whatever [encodeURIComponent] returns is no shorter than its
    argument. *)
Lemma encode_length_bounded n : forall s e,
  (List.length s <= n)%nat ->
  encodeURIComponent s = Some e -> (List.length s <= List.length e)%nat.
Proof.
  induction n as [|n IH]; intros s e Hn He.
  { destruct s; [simpl; lia | simpl in Hn; lia]. }
  destruct s as [|c tl]; [simpl; lia|].
  cbn [encodeURIComponent] in He.
  destruct (unescaped c).
  - destruct (encodeURIComponent tl) as [e'|] eqn:E; [|discriminate].
    injection He as <-. specialize (IH tl e' ltac:(simpl in Hn; lia) E).
    simpl. lia.
  - destruct (is_lead c).
    + destruct tl as [|d tl']; [discriminate|].
      destruct (is_trail d); [|discriminate].
      destruct (encodeURIComponent tl') as [e'|] eqn:E; [|discriminate].
      injection He as <-. specialize (IH tl' e' ltac:(simpl in Hn; lia) E).
      rewrite length_app, pct_octets_length.
      unfold utf8.
      destruct (_ <? 0x80); [|destruct (_ <? 0x800); [|destruct (_ <? 0x10000)]];
        simpl; lia.
    + destruct (is_trail c); [discriminate|].
      destruct (encodeURIComponent tl) as [e'|] eqn:E; [|discriminate].
      injection He as <-. specialize (IH tl e' ltac:(simpl in Hn; lia) E).
      rewrite length_app, pct_octets_length.
      unfold utf8.
      destruct (_ <? 0x80); [|destruct (_ <? 0x800); [|destruct (_ <? 0x10000)]];
        simpl; lia.
Qed.

End UriFacts.

(** ** The transcode route *)
Module TranscodeSpec.
Import Transcode.

Lemma dispatch_listeners ps st e :
  listeners (fst (dispatch ps st e)) = listeners st /\
  spawned (fst (dispatch ps st e)) = spawned st.
Proof.
  destruct e; simpl; auto.
  destruct (on_stderr_data (listeners st)); simpl; auto.
Qed.

Lemma dispatch_all_listeners evs : forall st,
  listeners (fst (dispatch_all st evs)) = listeners st /\
  spawned (fst (dispatch_all st evs)) = spawned st.
Proof.
  induction evs as [|[ps e] evs IH]; intros st; simpl; auto.
  destruct (dispatch ps st e) as [st1 a] eqn:E1.
  destruct (dispatch_all st1 evs) as [st2 b] eqn:E2. simpl.
  specialize (IH st1). rewrite E2 in IH. simpl in IH.
  pose proof (dispatch_listeners ps st e) as D. rewrite E1 in D. simpl in D.
  destruct IH as [-> ->]. exact D.
Qed.

(** C7: a request whose [url] query parameter is absent is answered with
    status 400 and the error JSON, and nothing else happens: no process is
    spawned, no header is set, nothing is piped, no listener is
    registered. *)
Theorem missing_url_is_400_without_side_effect :
  forall (so : SpawnOutcome) (bin : option jstr),
    let r := {| query_url := None; ffmpegPath_local := bin |} in
    snd (handler so r) =
      [ ResStatus 400;
        ResJson [("error"%string, lit "URL parameter is required")] ] /\
    filter is_spawn (snd (handler so r)) = [] /\
    spawned (fst (handler so r)) = false /\
    listeners (fst (handler so r)) = no_listeners.
Proof. intros so bin r. repeat split. Qed.

(** C8: once the process is spawned, whatever events came before and
    whatever state the process is in, the close event of the request runs
    one listener, which sends [SIGKILL] to the process: exactly one kill
    per close event. *)
Theorem close_kills_process_exactly_once :
  forall (r : Request) (url : jstr) (evs : list (ProcState * Event))
         (ps : ProcState),
    query_url r = Some url ->
    truthy url = true ->
    let st := fst (dispatch_all (fst (handler SpawnReturns r)) evs) in
    spawned st = true /\
    snd (dispatch ps st ReqClose) =
      [ ConsoleLog (lit "[Transcode] Client disconnected, killing FFmpeg process");
        Kill SIGKILL ] /\
    filter is_kill (snd (dispatch ps st ReqClose)) = [Kill SIGKILL].
Proof.
  intros r url evs ps Hq Ht st.
  destruct (dispatch_all_listeners evs (fst (handler SpawnReturns r)))
    as [HL HS].
  fold st in HL, HS.
  assert (HL0 : on_req_close (listeners (fst (handler SpawnReturns r))) = 1%nat)
    by (unfold handler; rewrite Hq, Ht; reflexivity).
  assert (HS0 : spawned (fst (handler SpawnReturns r)) = true)
    by (unfold handler; rewrite Hq, Ht; reflexivity).
  split; [congruence|].
  unfold dispatch. rewrite HL, HL0. split; reflexivity.
Qed.

Lemma close_kills_process_exactly_once_witness :
  let r := {| query_url := Some (lit "http://h/a.ts"); ffmpegPath_local := None |} in
  let st := fst (dispatch_all (fst (handler SpawnReturns r))
                   [(Running, StderrData (lit "x")); (Exited (Some 1), ProcExit (Some 1))]) in
  spawned st = true /\
  snd (dispatch (Exited (Some 1)) st ReqClose) =
    [ ConsoleLog (lit "[Transcode] Client disconnected, killing FFmpeg process");
      Kill SIGKILL ] /\
  filter is_kill (snd (dispatch (Exited (Some 1)) st ReqClose)) = [Kill SIGKILL].
Proof.
  apply (close_kills_process_exactly_once
           {| query_url := Some (lit "http://h/a.ts"); ffmpegPath_local := None |}
           (lit "http://h/a.ts")); reflexivity.
Defined.

(** C9: a request with a (non-empty) [url] spawns the transcoder once,
    with the upstream URL as input, video copied, audio re-encoded to AAC
    at 48000 Hz and 256k with async resampling, and fragmented MP4 written
    to standard output. *)
Theorem spawn_argument_contract :
  forall (so : SpawnOutcome) (r : Request) (url : jstr),
    query_url r = Some url ->
    truthy url = true ->
    filter is_spawn (snd (handler so r)) = [Spawn (ffmpegPath r) (args url)] /\
    has_pair (lit "-i") url (args url) = true /\
    has_pair (lit "-c:v") (lit "copy") (args url) = true /\
    has_pair (lit "-c:a") (lit "aac") (args url) = true /\
    has_pair (lit "-ar") (lit "48000") (args url) = true /\
    has_pair (lit "-b:a") (lit "256k") (args url) = true /\
    has_pair (lit "-af") (lit "aresample=48000:async=1") (args url) = true /\
    has_pair (lit "-f") (lit "mp4") (args url) = true /\
    has_pair (lit "-movflags")
      (lit "frag_keyframe+empty_moov+default_base_moof") (args url) = true /\
    last (args url) [] = lit "-" /\
    List.length (args url) = 22%nat.
Proof.
  intros so r url Hq Ht.
  split.
  { unfold handler. rewrite Hq, Ht. destruct so; reflexivity. }
  split.
  { unfold args, has_pair. rewrite (jstr_eqb_refl url).
    repeat (rewrite ?orb_true_r, ?orb_true_l; simpl). reflexivity. }
  repeat split; unfold args; cbn; rewrite ?orb_true_r; reflexivity.
Qed.

Lemma spawn_argument_contract_witness :
  let url := lit "http://h/movie.mkv?a=1&b=2" in
  let r := {| query_url := Some url; ffmpegPath_local := None |} in
  filter is_spawn (snd (handler SpawnReturns r)) = [Spawn (lit "ffmpeg") (args url)] /\
  has_pair (lit "-i") url (args url) = true.
Proof.
  pose proof (spawn_argument_contract SpawnReturns
    {| query_url := Some (lit "http://h/movie.mkv?a=1&b=2"); ffmpegPath_local := None |}
    (lit "http://h/movie.mkv?a=1&b=2") eq_refl eq_refl) as H.
  split; [exact (proj1 H) | exact (proj1 (proj2 H))].
Defined.

End TranscodeSpec.

(** ** The video player: forced transcoding and discontinuities *)
Module PlayerSpec.
Import Player.

Lemma stop_actions p :
  snd (stop p) =
    match hls p with Some id => [HlsDestroy id] | None => [] end
      ++ [VideoPause; VideoSetSrc []; VideoLoad].
Proof. unfold stop. destruct (hls p); reflexivity. Qed.

Lemma stop_settings p : settings (fst (stop p)) = settings p.
Proof. unfold stop. destruct (hls p); reflexivity. Qed.

Lemma stop_hls p : hls (fst (stop p)) = None.
Proof. unfold stop. destruct (hls p) eqn:E; simpl; auto. Qed.

Lemma filter_stop_new p : filter is_hls_new (snd (stop p)) = [].
Proof. rewrite stop_actions. destruct (hls p); reflexivity. Qed.

Lemma filter_stop_proxied p : filter is_mk_proxied (snd (stop p)) = [].
Proof. rewrite stop_actions. destruct (hls p); reflexivity. Qed.

Lemma filter_stop_transcode p : filter is_mk_transcode (snd (stop p)) = [].
Proof. rewrite stop_actions. destruct (hls p); reflexivity. Qed.

Lemma stop_isUsingProxy p : isUsingProxy (fst (stop p)) = isUsingProxy p.
Proof. unfold stop. destruct (hls p); reflexivity. Qed.

Lemma loaded_urls_app a b : loaded_urls (a ++ b) = loaded_urls a ++ loaded_urls b.
Proof.
  induction a as [|x a IH]; simpl; auto.
  destruct (loaded_url x); simpl; congruence.
Qed.

Lemma loaded_urls_stop p : loaded_urls (snd (stop p)) = [[]].
Proof. rewrite stop_actions. destruct (hls p); reflexivity. Qed.

Lemma stop_pendingCatch p : pendingCatch (fst (stop p)) = pendingCatch p.
Proof. unfold stop. destruct (hls p); reflexivity. Qed.

Lemma nth_error_appended {A} (l : list A) (x : A) :
  nth_error (l ++ [x]) (List.length l) = Some x.
Proof. induction l as [|y l IH]; simpl; auto. Qed.

Lemma drop_at_last {A} (l : list A) (x : A) :
  drop_at (List.length l) (l ++ [x]) = l.
Proof.
  unfold drop_at. induction l as [|y l IH]; simpl; [reflexivity|].
  f_equal. exact IH.
Qed.

(** A rejection handler of the native path does nothing once the proxy
    flag is set. *)
Lemma play_rejected_when_proxied k p :
  isUsingProxy p = true ->
  snd (play_rejected k p) = [] /\
  isUsingProxy (fst (play_rejected k p)) = true /\
  video (fst (play_rejected k p)) = video p.
Proof.
  intros Hu. unfold play_rejected.
  destruct (nth_error (pendingCatch p) k); cbn; rewrite ?Hu; cbn; auto.
Qed.

(** ... and with the flag unset it sets the flag and retries with the
    proxied URL of the stream it closed over. *)
Lemma play_rejected_retries k w p :
  nth_error (pendingCatch p) k = Some w ->
  isUsingProxy p = false ->
  snd (play_rejected k p) =
    match getProxiedUrl w with
    | Some u => [MkProxiedUrl w; VideoSetSrc u; VideoPlay]
    | None => [MkProxiedUrl w]
    end /\
  isUsingProxy (fst (play_rejected k p)) = true /\
  pendingCatch (fst (play_rejected k p)) = drop_at k (pendingCatch p) /\
  (forall u, getProxiedUrl w = Some u ->
     src (video (fst (play_rejected k p))) = u /\
     paused (video (fst (play_rejected k p))) = false).
Proof.
  intros Hk Hu. unfold play_rejected. rewrite Hk. cbn. rewrite Hu. cbn.
  destruct (getProxiedUrl w) as [u|]; cbn.
  - do 3 (split; [reflexivity|]).
    intros u' E; injection E as <-. split; reflexivity.
  - do 3 (split; [reflexivity|]). discriminate.
Qed.

Lemma transcode_url_differs url t : getTranscodeUrl url = Some t -> t <> url.
Proof.
  unfold getTranscodeUrl. intros H Heq. subst t.
  destruct (Uri.encodeURIComponent url) as [e|] eqn:E; [|discriminate].
  pose proof (UriFacts.encode_length_bounded _ url e (le_n _) E) as L.
  assert (L2 : List.length (lit "/api/transcode?url=" ++ e)
               = (19 + List.length e)%nat)
    by (rewrite length_app; reflexivity).
  cbn [option_map] in H.
  assert (Hu : lit "/api/transcode?url=" ++ e = url) by congruence.
  rewrite Hu in L2. lia.
Qed.

Lemma transcode_url_built url :
  Uri.well_formed url = true -> exists t, getTranscodeUrl url = Some t.
Proof.
  intros Hw. destruct (UriFacts.encode_well_formed url Hw) as (e & He & _).
  unfold getTranscodeUrl. rewrite He. eexists. reflexivity.
Qed.

Lemma proxied_url_built url :
  Uri.well_formed url = true -> exists u, getProxiedUrl url = Some u.
Proof.
  intros Hw. destruct (UriFacts.encode_well_formed url Hw) as (e & He & _).
  unfold getProxiedUrl. rewrite He. eexists. reflexivity.
Qed.

(** C1 (as the code has it): with [forceTranscode] set, [play] calls
    [getTranscodeUrl] on the stream URL and nothing else that builds a
    URL; it creates no hls.js instance and holds none afterwards.  For a
    well-formed stream URL the transcode URL is built, and the only URLs
    given to the video element are the empty one of [stop] and then the
    transcode URL, which differs from the stream URL and is played by the
    element itself.  When no URL is built, nothing is loaded but the
    empty source. *)
Theorem force_transcode_selects_transcoded_only :
  forall (env : Env) (c : Channel) (streamUrl : jstr) (p : Player),
    forceTranscode (settings p) = true ->
    let p' := fst (play env c streamUrl p) in
    let acts := snd (play env c streamUrl p) in
    filter is_hls_new acts = [] /\
    filter is_mk_proxied acts = [] /\
    filter is_mk_transcode acts = [MkTranscodeUrl streamUrl] /\
    hls p' = None /\
    isUsingProxy p' = isUsingProxy p /\
    (Uri.well_formed streamUrl = true ->
     exists t,
       getTranscodeUrl streamUrl = Some t /\
       t <> streamUrl /\
       loaded_urls acts = [[]; t] /\
       src (video p') = t /\ paused (video p') = false /\
       currentUrl p' = Some t /\
       exists pre, acts = pre ++ [VideoSetSrc t; VideoPlay;
                                  UpdateNowPlaying c; ShowNowPlayingOverlay;
                                  FetchEpgData c; ChannelChanged c]) /\
    (getTranscodeUrl streamUrl = None -> loaded_urls acts = [[]]).
Proof.
  intros env c streamUrl p Hft p' acts. subst p' acts.
  unfold play.
  destruct (stop (set_currentChannel (Some c) p)) as [p1 a1] eqn:Es.
  assert (Hs : settings p1 = settings p)
    by (change p1 with (fst (p1, a1)); rewrite <- Es, stop_settings; reflexivity).
  assert (Hh : hls p1 = None)
    by (change p1 with (fst (p1, a1)); rewrite <- Es; apply stop_hls).
  assert (Hn : filter is_hls_new a1 = [])
    by (change a1 with (snd (p1, a1)); rewrite <- Es; apply filter_stop_new).
  assert (Hp : filter is_mk_proxied a1 = [])
    by (change a1 with (snd (p1, a1)); rewrite <- Es; apply filter_stop_proxied).
  assert (Ht : filter is_mk_transcode a1 = [])
    by (change a1 with (snd (p1, a1)); rewrite <- Es; apply filter_stop_transcode).
  assert (Hl : loaded_urls a1 = [[]])
    by (change a1 with (snd (p1, a1)); rewrite <- Es; apply loaded_urls_stop).
  assert (Hu : isUsingProxy p1 = isUsingProxy p)
    by (change p1 with (fst (p1, a1)); rewrite <- Es, stop_isUsingProxy; reflexivity).
  cbn [settings set_currentUrl]. rewrite Hs, Hft.
  destruct (getTranscodeUrl streamUrl) as [t|] eqn:Et; cbn [fst snd];
    rewrite !filter_app, !loaded_urls_app, Hn, Hp, Ht, Hl; cbn.
  - do 5 (split; [auto|]). split; [|discriminate].
    intros _. exists t. split; [reflexivity|].
    split; [exact (transcode_url_differs _ _ Et)|].
    do 4 (split; [reflexivity|]).
    exists (a1 ++ [OverlayHide; MkTranscodeUrl streamUrl]).
    rewrite <- !app_assoc. reflexivity.
  - do 5 (split; [auto|]). split; [|reflexivity].
    intros Hw. destruct (transcode_url_built streamUrl Hw) as (t & Ht').
    congruence.
Qed.

Lemma force_transcode_selects_transcoded_only_witness :
  let env := {| hlsSupported := true; canPlayNativeHls := false |} in
  let s := {| forceProxy := false; forceTranscode := true |} in
  let c := {| ch_id := 7; ch_name := lit "News" |} in
  let p := fst (construct env s) in
  filter is_hls_new (snd (play env c (lit "http://h/live.m3u8") p)) = [] /\
  filter is_mk_proxied (snd (play env c (lit "http://h/live.m3u8") p)) = [] /\
  loaded_urls (snd (play env c (lit "http://h/live.m3u8") p)) =
    [[]; lit "/api/transcode?url=http%3A%2F%2Fh%2Flive.m3u8"].
Proof.
  pose proof (force_transcode_selects_transcoded_only
    {| hlsSupported := true; canPlayNativeHls := false |}
    {| ch_id := 7; ch_name := lit "News" |} (lit "http://h/live.m3u8")
    (fst (construct {| hlsSupported := true; canPlayNativeHls := false |}
                    {| forceProxy := false; forceTranscode := true |}))
    eq_refl) as H.
  cbv zeta in H.
  destruct H as (H1 & H2 & _ & _ & _ & H6 & _).
  split; [exact H1|]. split; [exact H2|].
  destruct (H6 eq_refl) as (t & Et & _ & Hl & _).
  rewrite Hl. injection Et as <-. reflexivity.
Defined.

(** C1 as the specification states it does not hold: for a stream URL
    that is one unpaired surrogate, [encodeURIComponent] throws inside
    [getTranscodeUrl]; [play] lands in its [catch], shows the error and
    plays nothing. *)
Lemma force_transcode_plays_nothing_on_lone_surrogate :
  let env := {| hlsSupported := true; canPlayNativeHls := false |} in
  let p := fst (construct env {| forceProxy := false;
                                 forceTranscode := true |}) in
  let c := {| ch_id := 7; ch_name := lit "News" |} in
  ~ force_transcode_always_plays /\
  getTranscodeUrl [0xD800] = None /\
  snd (play env c [0xD800] p) =
    [ HlsDestroy 0; VideoPause; VideoSetSrc []; VideoLoad; OverlayHide;
      MkTranscodeUrl [0xD800]; ShowError (lit "Failed to play channel") ].
Proof.
  intros env p c. split; [|split; reflexivity].
  intros H. destruct (H env c [0xD800] p eq_refl) as (t & Ht & _).
  discriminate Ht.
Qed.

Lemma playing_past_zero_true p :
  paused (video p) = false -> (0 < currentTime (video p))%Q ->
  playing_past_zero p = true.
Proof.
  intros Hp Ht. unfold playing_past_zero. rewrite Hp. simpl.
  destruct (Qle_bool (currentTime (video p)) 0) eqn:E; auto.
  apply Qle_bool_iff in E. exfalso. eapply Qlt_not_le; eauto.
Qed.

Lemma frag_same id n l p env :
  playing_from id l p ->
  step env (frag_changed id n l) p = (p, []).
Proof.
  intros ((e & He & Ho) & _ & _ & Hl). simpl. unfold deliver.
  rewrite He, Ho. simpl. rewrite Hl. simpl. rewrite Z.eqb_refl. reflexivity.
Qed.

Lemma frag_first id n c p env :
  playing_from id (-1) p -> c <> -1 ->
  step env (frag_changed id n c) p = (set_lastDiscontinuity (Some c) p, []) /\
  playing_from id c (set_lastDiscontinuity (Some c) p).
Proof.
  intros ((e & He & Ho) & Hp & Ht & Hl) Hc. split.
  - simpl. unfold deliver. rewrite He, Ho. simpl. rewrite Hl. simpl.
    apply Z.eqb_neq in Hc. rewrite Hc. reflexivity.
  - repeat split; auto. exists e; auto.
Qed.

Lemma frag_boundary id n l c p env :
  playing_from id l p -> l <> -1 -> c <> l ->
  step env (frag_changed id n c) p =
    (video_seek 1 (set_lastDiscontinuity (Some c) p), [VideoSeek 1]) /\
  playing_from id c (video_seek 1 (set_lastDiscontinuity (Some c) p)).
Proof.
  intros ((e & He & Ho) & Hp & Ht & Hl) Hl1 Hc. split.
  - simpl. unfold deliver. rewrite He, Ho. simpl. rewrite Hl. simpl.
    apply Z.eqb_neq in Hc. rewrite Hc.
    apply Z.eqb_neq in Hl1. rewrite Hl1. simpl.
    rewrite playing_past_zero_true; auto.
  - repeat split; auto.
    + exists e; auto.
    + simpl. apply Qlt_trans with (1 := Ht).
      rewrite <- (Qplus_0_r (currentTime (video p))) at 1.
      apply Qplus_lt_r. reflexivity.
Qed.

(** C4: while the video plays past position zero, fragment changes with
    continuity counters 0, 0, 1, 1, 2 arriving after [play] attached the
    engine (last counter [-1]) cause two seeks of one second, at the third
    and the fifth event; the first event causes none. *)
Theorem discontinuities_00112_seek_twice :
  forall (env : Env) (p : Player) (id : nat) (n1 n2 n3 n4 n5 : Z),
    playing_from id (-1) p ->
    snd (run env [ frag_changed id n1 0; frag_changed id n2 0;
                   frag_changed id n3 1; frag_changed id n4 1;
                   frag_changed id n5 2 ] p) =
      [ []; []; [VideoSeek 1]; []; [VideoSeek 1] ] /\
    List.length (filter is_seek
      (List.concat (snd (run env [ frag_changed id n1 0; frag_changed id n2 0;
                              frag_changed id n3 1; frag_changed id n4 1;
                              frag_changed id n5 2 ] p)))) = 2%nat.
Proof.
  intros env p id n1 n2 n3 n4 n5 H0.
  destruct (frag_first id n1 0 p env H0 ltac:(lia)) as [E1 H1].
  set (p1 := set_lastDiscontinuity (Some 0) p) in *.
  pose proof (frag_same id n2 0 p1 env H1) as E2.
  destruct (frag_boundary id n3 0 1 p1 env H1 ltac:(lia) ltac:(lia)) as [E3 H3].
  set (p3 := video_seek 1 (set_lastDiscontinuity (Some 1) p1)) in *.
  pose proof (frag_same id n4 1 p3 env H3) as E4.
  destruct (frag_boundary id n5 1 2 p3 env H3 ltac:(lia) ltac:(lia)) as [E5 _].
  assert (R : snd (run env [ frag_changed id n1 0; frag_changed id n2 0;
                   frag_changed id n3 1; frag_changed id n4 1;
                   frag_changed id n5 2 ] p) =
      [ []; []; [VideoSeek 1]; []; [VideoSeek 1] ]).
  { cbn [run]. rewrite E1, E2, E3, E4, E5. reflexivity. }
  rewrite R. split; reflexivity.
Qed.

Lemma discontinuities_00112_seek_twice_witness :
  let env := {| hlsSupported := true; canPlayNativeHls := false |} in
  let s := {| forceProxy := false; forceTranscode := false |} in
  let c := {| ch_id := 7; ch_name := lit "News" |} in
  let p := fst (run env [OpPlay c (lit "http://h/live.m3u8");
                         OpBrowser false 5%Q]
                  (fst (construct env s))) in
  snd (run env [ frag_changed 1 10 0; frag_changed 1 11 0;
                 frag_changed 1 12 1; frag_changed 1 13 1;
                 frag_changed 1 14 2 ] p) =
    [ []; []; [VideoSeek 1]; []; [VideoSeek 1] ].
Proof.
  refine (proj1 (discontinuities_00112_seek_twice
    {| hlsSupported := true; canPlayNativeHls := false |} _ 1%nat
    10 11 12 13 14 _)).
  repeat split.
  exists {| eid := 1; origin := FromPlay;
            source := Some (lit "http://h/live.m3u8"); attached := true |}.
  split; reflexivity.
Defined.

(** C5 (as the code has it): a fatal media error that the listener of
    [play] does not treat as a CORS symptom makes it call the engine's
    [recoverMediaError] and nothing else: no URL is built, no source is
    loaded, and the player is left as it was. *)
Theorem fatal_media_error_recovers_locally_only :
  forall (p : Player) (d : ErrorData) (id : nat),
    fatal d = true ->
    etype d = MEDIA_ERROR ->
    isCorsLikely d && negb (isUsingProxy p) = false ->
    hls p = Some id ->
    play_on_error d p = (p, [HlsRecoverMediaError id]).
Proof.
  intros p d id Hf Ht Hc Hh. unfold play_on_error, on_hls.
  rewrite Hf, Hc, Ht, Hh. reflexivity.
Qed.

Lemma fatal_media_error_recovers_locally_only_witness :
  let env := {| hlsSupported := true; canPlayNativeHls := false |} in
  let p := fst (play env {| ch_id := 7; ch_name := lit "News" |}
                  (lit "http://h/live.m3u8")
                  (fst (construct env {| forceProxy := false;
                                         forceTranscode := false |}))) in
  let d := {| fatal := true; etype := MEDIA_ERROR;
              details := lit "bufferAppendError" |} in
  play_on_error d p = (p, [HlsRecoverMediaError 1]).
Proof.
  apply fatal_media_error_recovers_locally_only; reflexivity.
Defined.

(** C5 as the specification states it does not hold: at a fatal
    [bufferAppendError] the listener only calls [recoverMediaError]. *)
Lemma media_error_never_escalates_to_transcoded :
  ~ media_error_escalates_to_transcoded.
Proof.
  intros H.
  pose (env := {| hlsSupported := true; canPlayNativeHls := false |}).
  pose (p := fst (play env {| ch_id := 7; ch_name := lit "News" |}
                    (lit "http://h/live.m3u8")
                    (fst (construct env {| forceProxy := false;
                                           forceTranscode := false |})))).
  pose (d := {| fatal := true; etype := MEDIA_ERROR;
                details := lit "bufferAppendError" |}).
  destruct (H p d 1%nat false eq_refl eq_refl eq_refl eq_refl) as [_ E].
  specialize (E eq_refl). vm_compute in E. discriminate E.
Qed.

End PlayerSpec.

(** ** The video player: one engine at a time *)
Module EngineInvariant.
Import Player PlayerSpec.

Lemma ids_update_engine id f l :
  (forall e, eid (f e) = eid e) ->
  map eid (update_engine id f l) = map eid l.
Proof.
  intros Hf. unfold update_engine. rewrite map_map. apply map_ext.
  intros e. destruct (Nat.eqb (eid e) id); auto.
Qed.

Lemma one_engine_stop p : one_engine p -> one_engine (fst (stop p)).
Proof.
  unfold one_engine, engine_ids, stop. intros H.
  destruct (hls p) as [id|] eqn:E; simpl; [|rewrite E; exact H].
  destruct (engines p) as [|e [|e' l]]; simpl in *; try discriminate; auto.
  injection H as H. rewrite H, Nat.eqb_refl. reflexivity.
Qed.

Lemma stop_engines p : one_engine p -> engines (fst (stop p)) = [].
Proof.
  intros H. pose proof (one_engine_stop p H) as H1.
  unfold one_engine, engine_ids in H1. rewrite stop_hls in H1.
  destruct (engines (fst (stop p))); [reflexivity | discriminate].
Qed.

Lemma one_engine_load id u p : one_engine p -> one_engine (load_source id u p).
Proof.
  unfold one_engine, engine_ids, load_source. simpl. intros H.
  rewrite ids_update_engine; auto.
Qed.

Ltac split_matches :=
  repeat match goal with
         | |- context [match ?x with _ => _ end] => destruct x eqn:?
         end.

Lemma one_engine_play_listener ev p :
  one_engine p -> one_engine (fst (play_listener ev p)).
Proof.
  intros H. destruct ev as [d|f| |]; simpl; auto.
  - unfold play_on_error, on_hls. simpl.
    split_matches; simpl; auto.
    apply one_engine_load. exact H.
  - unfold play_on_frag_changed. split_matches; simpl; auto.
Qed.

Lemma one_engine_init_listener ev p :
  one_engine p -> one_engine (fst (init_listener ev p)).
Proof.
  intros H. destruct ev as [d|f| |]; simpl; auto.
  - unfold init_on_error, on_hls. simpl.
    split_matches; simpl; auto;
      try (apply one_engine_load; exact H);
      try (apply (one_engine_stop p H)).
  - unfold init_on_frag_changed. split_matches; simpl; auto.
  - unfold on_hls. split_matches; simpl; auto.
Qed.

Lemma one_engine_play env c u p :
  one_engine p -> one_engine (fst (play env c u p)).
Proof.
  intros H. unfold play.
  assert (Hq : one_engine (set_currentChannel (Some c) p)) by exact H.
  pose proof (one_engine_stop _ Hq) as H1.
  pose proof (stop_hls (set_currentChannel (Some c) p)) as Hh.
  pose proof (stop_engines _ Hq) as He.
  destruct (stop (set_currentChannel (Some c) p)) as [p1 a1]. simpl in *.
  split_matches; simpl; auto.
  all: simpl in *; rewrite ?Nat.eqb_refl in *; try discriminate.
  all: unfold one_engine, engine_ids; simpl; rewrite He; reflexivity.
Qed.

Lemma one_engine_step env o p :
  one_engine p -> one_engine (fst (step env o p)).
Proof.
  intros H. destruct o; simpl.
  - apply one_engine_play; auto.
  - apply one_engine_stop; auto.
  - unfold deliver. split_matches; simpl; auto.
    + apply one_engine_init_listener; auto.
    + apply one_engine_play_listener; auto.
  - unfold play_rejected. split_matches; simpl; auto.
  - exact H.
  - exact H.
Qed.

Lemma one_engine_run env ops : forall p,
  one_engine p -> one_engine (fst (run env ops p)).
Proof.
  induction ops as [|o ops IH]; intros p H; simpl; auto.
  pose proof (one_engine_step env o p H) as H1.
  destruct (step env o p) as [p1 a]. simpl in H1.
  specialize (IH p1 H1). destruct (run env ops p1) as [p2 tr]. exact IH.
Qed.

Lemma one_engine_construct env s : one_engine (fst (construct env s)).
Proof. unfold construct. destruct (hlsSupported env); reflexivity. Qed.

Lemma one_engine_length p : one_engine p -> (List.length (engines p) <= 1)%nat.
Proof.
  unfold one_engine, engine_ids. intros H.
  rewrite <- (length_map eid), H. destruct (hls p); simpl; lia.
Qed.

Lemma play_after_stop env c u p :
  exists rest,
    snd (play env c u p) =
      snd (stop (set_currentChannel (Some c) p)) ++ OverlayHide :: rest /\
    (List.length (filter is_hls_new rest) <= 1)%nat.
Proof.
  unfold play.
  destruct (stop (set_currentChannel (Some c) p)) as [p1 a1]. cbn [snd].
  destruct (forceTranscode _).
  - destruct (getTranscodeUrl u); cbn [snd]; rewrite <- app_assoc;
      eexists; (split; [reflexivity | simpl; lia]).
  - cbn zeta.
    destruct (needsProxy _ u);
      [destruct (getProxiedUrl u)|];
      try destruct (_ && _); try destruct (canPlayNativeHls env);
      cbn [snd new_engine fst]; rewrite <- app_assoc;
      eexists; (split; [reflexivity | simpl; lia]).
Qed.

(** C6: in every state a player reaches from its constructor, the live
    hls.js instances are exactly the one the player holds, so there is at
    most one; and [play] begins with [stop], which destroys that instance,
    forgets it and empties the source of the video element, before the
    rest of [play] creates at most one new instance. *)
Theorem at_most_one_live_engine :
  forall (env : Env) (s : Settings) (ops : list Op)
         (c : Channel) (streamUrl : jstr),
    let p := fst (run env ops (fst (construct env s))) in
    let q := set_currentChannel (Some c) p in
    one_engine p /\
    (List.length (engines p) <= 1)%nat /\
    (forall id, hls p = Some id -> In (HlsDestroy id) (snd (stop q))) /\
    engines (fst (stop q)) = [] /\
    hls (fst (stop q)) = None /\
    src (video (fst (stop q))) = [] /\
    filter is_hls_new (snd (stop q)) = [] /\
    exists rest,
      snd (play env c streamUrl p) = snd (stop q) ++ OverlayHide :: rest /\
      (List.length (filter is_hls_new rest) <= 1)%nat.
Proof.
  intros env s ops c streamUrl p q.
  assert (Hp : one_engine p)
    by (apply one_engine_run, one_engine_construct).
  assert (Hq : one_engine q) by exact Hp.
  split; [exact Hp|].
  split; [apply one_engine_length; exact Hp|].
  split.
  { intros id Hid. rewrite stop_actions.
    change (hls q) with (hls p). rewrite Hid. left; reflexivity. }
  split; [apply stop_engines; exact Hq|].
  split; [apply stop_hls|].
  split; [unfold stop; destruct (hls q); reflexivity|].
  split; [apply filter_stop_new|].
  apply play_after_stop.
Qed.

End EngineInvariant.

(** ** The video player: direct, then relayed *)
Module Escalation.
Import Player PlayerSpec EngineInvariant.

Lemma quiet_nil : quiet [].
Proof. repeat split. Qed.

Lemma quiet_app a b : quiet a -> quiet b -> quiet (a ++ b).
Proof.
  intros (A1 & A2 & A3) (B1 & B2 & B3). unfold quiet.
  rewrite loaded_urls_app, !filter_app, A1, A2, A3, B1, B2, B3.
  repeat split.
Qed.

Lemma relayed_play_listener ev p :
  relayed p ->
  relayed (fst (play_listener ev p)) /\ quiet (snd (play_listener ev p)).
Proof.
  intros [Hu He]. destruct ev as [d|f| |]; simpl.
  - unfold play_on_error, on_hls. rewrite Hu, andb_false_r.
    destruct (fatal d), (is_media (etype d)); simpl;
      repeat match goal with
             | |- context [match ?x with _ => _ end] => destruct x
             end; simpl; repeat split; auto.
  - unfold play_on_frag_changed.
    repeat match goal with
           | |- context [match ?x with _ => _ end] => destruct x
           end; simpl; repeat split; auto.
  - repeat split; auto.
  - repeat split; auto.
Qed.

Lemma relayed_step env o p :
  relayed p -> within_session o = true ->
  relayed (fst (step env o p)) /\ quiet (snd (step env o p)).
Proof.
  intros H Hw. destruct o; try discriminate; simpl.
  - unfold deliver. destruct (find_engine target (engines p)) as [e|] eqn:F.
    + apply find_some in F. destruct F as [Hin _].
      rewrite (proj2 H e Hin). apply relayed_play_listener; exact H.
    + split; [exact H | apply quiet_nil].
  - unfold play_rejected. destruct (nth_error (pendingCatch p) k); simpl.
    + destruct H as [Hu He]. rewrite Hu. simpl. repeat split; auto.
    + split; [exact H | apply quiet_nil].
  - split; [exact H | apply quiet_nil].
  - split; [exact H | apply quiet_nil].
Qed.

Lemma relayed_run env ops : forall p,
  relayed p -> forallb within_session ops = true ->
  relayed (fst (run env ops p)) /\ quiet (List.concat (snd (run env ops p))).
Proof.
  induction ops as [|o ops IH]; intros p H Hw; simpl.
  - split; [exact H | apply quiet_nil].
  - simpl in Hw. apply andb_true_iff in Hw. destruct Hw as [Ho Hw].
    destruct (relayed_step env o p H Ho) as [H1 Q1].
    destruct (step env o p) as [p1 a]. simpl in H1, Q1.
    destruct (IH p1 H1 Hw) as [H2 Q2].
    destruct (run env ops p1) as [p2 tr]. simpl in *.
    split; [exact H2 | apply quiet_app; assumption].
Qed.

Lemma direct_find id url p :
  direct_on id url p ->
  exists e, find_engine id (engines p) = Some e /\ origin e = FromPlay.
Proof.
  intros (_ & (e & He & Hid & Ho) & _). exists e. split; auto.
  unfold find_engine. rewrite He. simpl. rewrite Hid, Nat.eqb_refl. reflexivity.
Qed.

Lemma direct_find_other id url p t :
  direct_on id url p -> t <> id -> find_engine t (engines p) = None.
Proof.
  intros (_ & (e & He & Hid & Ho) & _) Hne.
  unfold find_engine. rewrite He. simpl. rewrite Hid.
  destruct (Nat.eqb id t) eqn:E; auto.
  apply Nat.eqb_eq in E. congruence.
Qed.

Lemma direct_play_listener id url ev p :
  direct_on id url p ->
  match ev with ErrorEv d => fatal d && isCorsLikely d | _ => false end = false ->
  direct_on id url (fst (play_listener ev p)) /\
  quiet (snd (play_listener ev p)).
Proof.
  intros (Hh & He & Hu & Hc) Hn. destruct ev as [d|f| |]; simpl.
  - unfold play_on_error, on_hls. rewrite Hh.
    destruct (fatal d); simpl in Hn.
    + rewrite Hn. simpl.
      destruct (is_media (etype d)); simpl; repeat split; auto.
    + destruct (is_media (etype d)); simpl;
        repeat match goal with
               | |- context [match ?x with _ => _ end] => destruct x
               end; simpl; repeat split; auto.
  - unfold play_on_frag_changed.
    repeat match goal with
           | |- context [match ?x with _ => _ end] => destruct x
           end; simpl; repeat split; auto.
  - repeat split; auto.
  - repeat split; auto.
Qed.

Lemma direct_step env o id url p :
  direct_on id url p -> engine_op o = true -> is_cors_fatal id o = false ->
  direct_on id url (fst (step env o p)) /\ quiet (snd (step env o p)).
Proof.
  intros H Ho Hn. destruct o; try discriminate; simpl.
  - unfold deliver. destruct (Nat.eq_dec target id) as [->|Hne].
    + destruct (direct_find id url p H) as (e & -> & ->).
      apply direct_play_listener; auto.
      destruct ev; auto. simpl in Hn.
      rewrite Nat.eqb_refl in Hn. exact Hn.
    + rewrite (direct_find_other id url p target H Hne).
      split; [exact H | apply quiet_nil].
  - split; [exact H | apply quiet_nil].
  - split; [exact H | apply quiet_nil].
Qed.

Lemma direct_run env id url ops : forall p,
  direct_on id url p ->
  forallb engine_op ops = true ->
  existsb (is_cors_fatal id) ops = false ->
  direct_on id url (fst (run env ops p)) /\
  quiet (List.concat (snd (run env ops p))).
Proof.
  induction ops as [|o ops IH]; intros p H Hw Hn; simpl.
  - split; [exact H | apply quiet_nil].
  - simpl in Hw, Hn. apply andb_true_iff in Hw. destruct Hw as [Ho Hw].
    apply orb_false_iff in Hn. destruct Hn as [Hno Hn].
    destruct (direct_step env o id url p H Ho Hno) as [H1 Q1].
    destruct (step env o p) as [p1 a]. simpl in H1, Q1.
    destruct (IH p1 H1 Hw Hn) as [H2 Q2].
    destruct (run env ops p1) as [p2 tr]. simpl in *.
    split; [exact H2 | apply quiet_app; assumption].
Qed.

(** The escalation itself: the first likely-CORS fatal error in direct
    mode sets the proxy flag and reloads the proxied URL. *)
Lemma direct_escalates env id url d p :
  direct_on id url p -> fatal d = true -> isCorsLikely d = true ->
  let r := step env (OpEvent id (ErrorEv d)) p in
  relayed (fst r) /\
  snd r = match getProxiedUrl url with
          | Some u => [MkProxiedUrl url; HlsLoadSource id u; HlsStartLoad id]
          | None => [MkProxiedUrl url]
          end.
Proof.
  intros H Hf Hc. pose proof (direct_find id url p H) as (e & Hfind & Ho).
  destruct H as (Hh & (e' & He & Hid & Ho') & Hu & Hcu).
  simpl. unfold deliver. rewrite Hfind, Ho. simpl.
  unfold play_on_error, on_hls. rewrite Hf, Hc, Hu. simpl. rewrite Hh, Hcu.
  simpl. destruct (getProxiedUrl url) as [u|]; simpl.
  - split; [|reflexivity]. split; [reflexivity|].
    simpl. rewrite He. simpl. intros x [<-|[]].
    destruct (Nat.eqb (eid e') id); simpl; exact Ho'.
  - split; [|reflexivity]. split; [reflexivity|].
    simpl. rewrite He. intros x [<-|[]]. exact Ho'.
Qed.

(** What is known of the state and the actions of [stop], gathered. *)
Lemma stop_facts p :
  one_engine p ->
  settings (fst (stop p)) = settings p /\
  hls (fst (stop p)) = None /\
  engines (fst (stop p)) = [] /\
  loaded_urls (snd (stop p)) = [[]] /\
  filter is_mk_proxied (snd (stop p)) = [] /\
  filter is_mk_transcode (snd (stop p)) = [].
Proof.
  intros H. split; [apply stop_settings|]. split; [apply stop_hls|].
  split; [apply stop_engines; exact H|]. split; [apply loaded_urls_stop|].
  split; [apply filter_stop_proxied | apply filter_stop_transcode].
Qed.

Lemma play_direct env c url p :
  one_engine p ->
  forceProxy (settings p) = false ->
  forceTranscode (settings p) = false ->
  existsb (includes url) proxyRequiredDomains = false ->
  let r := play env c url p in
  isUsingProxy (fst r) = false /\
  loaded_urls (snd r) = [[]; url] /\
  filter is_mk_proxied (snd r) = [] /\
  filter is_mk_transcode (snd r) = [] /\
  (forall id, hls (fst r) = Some id -> direct_on id url (fst r)).
Proof.
  intros H Hfp Hft Hd r. subst r. unfold play.
  assert (Hq : one_engine (set_currentChannel (Some c) p)) by exact H.
  destruct (stop_facts _ Hq) as (Hs & Hh & He & Hl & Hp & Ht).
  destruct (stop (set_currentChannel (Some c) p)) as [p1 a1].
  simpl in Hs, Hh, He, Hl, Hp, Ht.
  cbn [settings set_currentUrl]. rewrite Hs, Hft.
  unfold needsProxy. rewrite Hfp, Hd. cbn [orb].
  destruct (looksLikeHls url && hlsSupported env);
    [|destruct (canPlayNativeHls env)];
    cbn [new_engine fst snd];
    rewrite !loaded_urls_app, !filter_app, Hl, Hp, Ht; cbn;
    (split; [reflexivity|]); (split; [reflexivity|]);
    (split; [reflexivity|]); (split; [reflexivity|]);
    intros id Hid; try congruence.
  injection Hid as <-. unfold direct_on. cbn. rewrite He. cbn.
  rewrite ?Nat.eqb_refl. cbn. rewrite ?Nat.eqb_refl.
  split; [reflexivity|]. split; [|split; reflexivity].
  eexists; split; [reflexivity|split; reflexivity].
Qed.

Lemma play_relayed env c url p :
  one_engine p ->
  forceTranscode (settings p) = false ->
  needsProxy (settings p) url = true ->
  let r := play env c url p in
  relayed (fst r) /\
  filter is_mk_proxied (snd r) = [MkProxiedUrl url] /\
  filter is_mk_transcode (snd r) = [] /\
  loaded_urls (snd r) = match getProxiedUrl url with
                        | Some u => [[]; u]
                        | None => [[]]
                        end.
Proof.
  intros H Hft Hn r. subst r. unfold play.
  assert (Hq : one_engine (set_currentChannel (Some c) p)) by exact H.
  destruct (stop_facts _ Hq) as (Hs & Hh & He & Hl & Hp & Ht).
  destruct (stop (set_currentChannel (Some c) p)) as [p1 a1].
  simpl in Hs, Hh, He, Hl, Hp, Ht.
  cbn [settings set_currentUrl]. rewrite Hs, Hft, Hn.
  destruct (getProxiedUrl url) as [u|];
    [destruct (looksLikeHls u && hlsSupported env);
       [|destruct (canPlayNativeHls env)]|];
    cbn [new_engine fst snd];
    rewrite !loaded_urls_app, !filter_app, Hl, Hp, Ht; cbn;
    (split; [|repeat split]);
    (split; [reflexivity|]); cbn; rewrite He; cbn;
    rewrite ?Nat.eqb_refl; cbn; rewrite ?Nat.eqb_refl;
    intros x Hx; try contradiction.
  destruct Hx as [<-|[]]. reflexivity.
Qed.

Lemma proxied_url_differs url u : getProxiedUrl url = Some u -> u <> url.
Proof.
  unfold getProxiedUrl. intros H Heq. subst u.
  destruct (Uri.encodeURIComponent url) as [e|] eqn:E; [|discriminate].
  pose proof (UriFacts.encode_length_bounded _ url e (le_n _) E) as L.
  assert (L2 : List.length (lit "/api/proxy/stream?url=" ++ e)
               = (22 + List.length e)%nat)
    by (rewrite length_app; reflexivity).
  cbn [option_map] in H.
  assert (Hu : lit "/api/proxy/stream?url=" ++ e = url) by congruence.
  rewrite Hu in L2. lia.
Qed.

(** C2 (as the code has it): without force flags and with a URL outside
    the proxy-required domains, [play] uses the stream URL as it is and
    leaves the proxy flag unset.  When [play] attached an hls.js instance
    and, up to the first likely-CORS fatal error of that instance, only
    engine events and changes of the video element occur, so that no
    rejection handler has run, nothing is built or loaded before that
    error; the error sets the proxy flag and makes the one call of
    [getProxiedUrl] on the stream URL; for a well-formed stream URL the
    engine is reloaded with the proxied URL, and when
    [encodeURIComponent] throws nothing is reloaded; whatever follows in
    the session builds and loads nothing, and [getTranscodeUrl] is never
    called. *)
Theorem direct_first_then_one_relay_escalation :
  forall (env : Env) (c : Channel) (streamUrl : jstr) (p : Player),
    one_engine p ->
    forceProxy (settings p) = false ->
    forceTranscode (settings p) = false ->
    existsb (includes streamUrl) proxyRequiredDomains = false ->
    let r0 := play env c streamUrl p in
    (isUsingProxy (fst r0) = false /\
     loaded_urls (snd r0) = [[]; streamUrl] /\
     filter is_mk_proxied (snd r0) = [] /\
     filter is_mk_transcode (snd r0) = []) /\
    forall (id : nat) (pre post : list Op) (d : ErrorData),
      hls (fst r0) = Some id ->
      forallb engine_op pre = true ->
      existsb (is_cors_fatal id) pre = false ->
      fatal d = true ->
      isCorsLikely d = true ->
      forallb within_session post = true ->
      let r1 := run env pre (fst r0) in
      let r2 := step env (OpEvent id (ErrorEv d)) (fst r1) in
      let r3 := run env post (fst r2) in
      (isUsingProxy (fst r1) = false /\ quiet (List.concat (snd r1))) /\
      (isUsingProxy (fst r2) = true /\
       filter is_mk_proxied (snd r2) = [MkProxiedUrl streamUrl] /\
       (Uri.well_formed streamUrl = true ->
        exists u,
          getProxiedUrl streamUrl = Some u /\ u <> streamUrl /\
          snd r2 = [MkProxiedUrl streamUrl; HlsLoadSource id u;
                    HlsStartLoad id]) /\
       (getProxiedUrl streamUrl = None -> snd r2 = [MkProxiedUrl streamUrl])) /\
      (isUsingProxy (fst r3) = true /\ quiet (List.concat (snd r3))) /\
      filter is_mk_proxied
        (snd r0 ++ List.concat (snd r1) ++ snd r2 ++ List.concat (snd r3)) =
        [MkProxiedUrl streamUrl] /\
      filter is_mk_transcode
        (snd r0 ++ List.concat (snd r1) ++ snd r2 ++ List.concat (snd r3)) = [] /\
      (Uri.well_formed streamUrl = true ->
       direct_then_one_escalation env c streamUrl p id pre post d).
Proof.
  intros env c streamUrl p H Hfp Hft Hd r0.
  destruct (play_direct env c streamUrl p H Hfp Hft Hd)
    as (U0 & L0 & P0 & T0 & D0).
  fold r0 in U0, L0, P0, T0, D0.
  split; [repeat split; assumption|].
  intros id pre post d Hid Hpre Hnc Hf Hc Hpost r1 r2 r3.
  specialize (D0 id Hid).
  destruct (direct_run env id streamUrl pre (fst r0) D0 Hpre Hnc) as [D1 Q1].
  fold r1 in D1, Q1.
  destruct (direct_escalates env id streamUrl d (fst r1) D1 Hf Hc) as [R2 A2].
  fold r2 in R2, A2.
  destruct (relayed_run env post (fst r2) R2 Hpost) as [R3 Q3].
  fold r3 in R3, Q3.
  assert (F2 : filter is_mk_proxied (snd r2) = [MkProxiedUrl streamUrl])
    by (rewrite A2; destruct (getProxiedUrl streamUrl); reflexivity).
  assert (T2 : filter is_mk_transcode (snd r2) = [])
    by (rewrite A2; destruct (getProxiedUrl streamUrl); reflexivity).
  assert (W2 : Uri.well_formed streamUrl = true ->
               exists u, getProxiedUrl streamUrl = Some u /\ u <> streamUrl /\
                 snd r2 = [MkProxiedUrl streamUrl; HlsLoadSource id u;
                           HlsStartLoad id]).
  { intros Hw. destruct (proxied_url_built streamUrl Hw) as (u & Hu).
    exists u. split; [exact Hu|].
    split; [exact (proxied_url_differs _ _ Hu)|].
    rewrite A2, Hu. reflexivity. }
  destruct Q1 as (Q1l & Q1p & Q1t). destruct Q3 as (Q3l & Q3p & Q3t).
  assert (Tall : filter is_mk_transcode
            (snd r0 ++ List.concat (snd r1) ++ snd r2 ++ List.concat (snd r3))
            = [])
    by (rewrite !filter_app, T0, Q1t, T2, Q3t; reflexivity).
  split; [split; [apply D1 | repeat split; assumption]|].
  split.
  { split; [apply R2|]. split; [exact F2|]. split; [exact W2|].
    intros Hn. rewrite A2, Hn. reflexivity. }
  split; [split; [apply R3 | repeat split; assumption]|].
  split; [rewrite !filter_app, P0, Q1p, F2, Q3p; reflexivity|].
  split; [exact Tall|].
  intros Hw. destruct (W2 Hw) as (u & Hu & _ & Au).
  unfold direct_then_one_escalation. cbv zeta.
  fold r0. fold r1. fold r2. fold r3.
  split; [exact L0|].
  split; [exists u; split; [exact Hu | rewrite Au; reflexivity]|].
  split; [exact Q3p | exact Tall].
Qed.

Lemma drop_at_nil {A} (k : nat) : drop_at k (@nil A) = [].
Proof. unfold drop_at. rewrite firstn_nil, skipn_nil. reflexivity. Qed.

(** Without an instance and without a pending rejection handler, nothing
    that happens in the session builds or loads a URL. *)
Lemma unassisted_run env ops : forall p,
  hls p = None -> engines p = [] -> pendingCatch p = [] ->
  forallb within_session ops = true ->
  quiet (List.concat (snd (run env ops p))).
Proof.
  induction ops as [|o ops IH]; intros p Hh He Hc Hw; simpl;
    [apply quiet_nil|].
  simpl in Hw. apply andb_true_iff in Hw. destruct Hw as [Ho Hw].
  assert (S1 : snd (step env o p) = [] /\
               hls (fst (step env o p)) = None /\
               engines (fst (step env o p)) = [] /\
               pendingCatch (fst (step env o p)) = []).
  { destruct o; try discriminate; simpl.
    - unfold deliver. rewrite He. simpl. auto.
    - unfold play_rejected. rewrite Hc.
      destruct k; simpl; auto.
    - rewrite Hc, drop_at_nil. auto.
    - auto. }
  destruct S1 as (A1 & Hh1 & He1 & Hc1).
  destruct (step env o p) as [p1 a]. simpl in A1, Hh1, He1, Hc1. subst a.
  specialize (IH p1 Hh1 He1 Hc1 Hw).
  destruct (run env ops p1) as [p2 tr]. simpl in *. exact IH.
Qed.

(** C2 as the specification states it does not hold.  First input: an
    earlier [play] took the native path and its [video.play()] is still
    pending when the next stream is played through hls.js; the rejection
    of that promise runs the old handler, which sets the proxy flag and
    plays the proxied URL of the earlier stream, and the first fatal
    network error of the engine then escalates nothing.  Second input:
    the stream URL ends in an unpaired surrogate; the first fatal network
    error sets the proxy flag, [encodeURIComponent] throws and nothing is
    reloaded.  Third input: the browser has neither hls.js nor native
    HLS, the stream is given to the video element, no instance exists to
    report an error, and nothing that happens in the session builds or
    loads a proxied URL. *)
Lemma escalation_missed_after_stale_retry_or_lone_surrogate :
  let env := {| hlsSupported := true; canPlayNativeHls := true |} in
  let s := {| forceProxy := false; forceTranscode := false |} in
  let c := {| ch_id := 7; ch_name := lit "News" |} in
  let d := {| fatal := true; etype := NETWORK_ERROR;
              details := lit "manifestLoadError" |} in
  let film := lit "http://h/film.mp4" in
  let live := lit "http://h/live.m3u8" in
  let bad := lit "http://h/" ++ [0xD800] in
  let p0 := fst (construct env s) in
  let p1 := fst (play env {| ch_id := 2; ch_name := lit "Film" |} film p0) in
  (pendingCatch p1 = [film] /\
   hls (fst (play env c live p1)) = Some 1%nat /\
   snd (run env [OpPlayRejected 0; OpEvent 1 (ErrorEv d)]
          (fst (play env c live p1))) =
     [ [ MkProxiedUrl film;
         VideoSetSrc (lit "/api/proxy/stream?url=http%3A%2F%2Fh%2Ffilm.mp4");
         VideoPlay ];
       [] ] /\
   ~ direct_then_one_escalation env c live p1 1 [OpPlayRejected 0] [] d) /\
  (hls (fst (play env c bad p0)) = Some 1%nat /\
   snd (step env (OpEvent 1 (ErrorEv d)) (fst (play env c bad p0))) =
     [MkProxiedUrl bad] /\
   ~ direct_then_one_escalation env c bad p0 1 [] [] d) /\
  (let plain := {| hlsSupported := false; canPlayNativeHls := false |} in
   let q := fst (play plain c live (fst (construct plain s))) in
   hls q = None /\
   src (video q) = live /\
   forall ops : list Op,
     forallb within_session ops = true ->
     quiet (List.concat (snd (run plain ops q)))).
Proof.
  intros env s c d film live bad p0 p1. split; [|split].
  - split; [reflexivity|]. split; [reflexivity|]. split; [reflexivity|].
    intros (_ & (u & _ & Hu) & _). vm_compute in Hu. discriminate Hu.
  - split; [reflexivity|]. split; [reflexivity|].
    intros (_ & (u & Hu & _) & _). vm_compute in Hu. discriminate Hu.
  - intros plain q. split; [reflexivity|]. split; [reflexivity|].
    intros ops Hops. apply unassisted_run; auto.
Qed.

(** C3 (as the code has it): when the stream URL contains [pluto.tv] and
    transcoding is not forced, [play] sets the proxy flag and calls
    [getProxiedUrl] on the stream URL; for a well-formed stream URL what
    it loads is the proxied URL (after the empty source of [stop]), and
    when [encodeURIComponent] throws it loads nothing; nothing that
    follows in the session loads any URL, and the stream URL itself is
    never loaded. *)
Theorem pluto_tv_starts_relayed :
  forall (env : Env) (c : Channel) (streamUrl : jstr) (p : Player)
         (ops : list Op),
    one_engine p ->
    forceTranscode (settings p) = false ->
    includes streamUrl (lit "pluto.tv") = true ->
    forallb within_session ops = true ->
    let r0 := play env c streamUrl p in
    let r1 := run env ops (fst r0) in
    isUsingProxy (fst r0) = true /\
    filter is_mk_proxied (snd r0) = [MkProxiedUrl streamUrl] /\
    filter is_mk_transcode (snd r0) = [] /\
    (Uri.well_formed streamUrl = true ->
     exists u,
       getProxiedUrl streamUrl = Some u /\ u <> streamUrl /\
       loaded_urls (snd r0) = [[]; u]) /\
    (getProxiedUrl streamUrl = None -> loaded_urls (snd r0) = [[]]) /\
    isUsingProxy (fst r1) = true /\
    quiet (List.concat (snd r1)) /\
    ~ In streamUrl (loaded_urls (snd r0 ++ List.concat (snd r1))).
Proof.
  intros env c streamUrl p ops H Hft Hinc Hops r0 r1.
  assert (Hn : needsProxy (settings p) streamUrl = true).
  { unfold needsProxy, proxyRequiredDomains. cbn [existsb].
    rewrite Hinc. rewrite orb_true_r. reflexivity. }
  destruct (play_relayed env c streamUrl p H Hft Hn) as (R0 & P0 & T0 & L0).
  fold r0 in R0, P0, T0, L0.
  destruct (relayed_run env ops (fst r0) R0 Hops) as [R1 Q1].
  fold r1 in R1, Q1.
  split; [apply R0|]. split; [exact P0|]. split; [exact T0|].
  split.
  { intros Hw. destruct (proxied_url_built streamUrl Hw) as (u & Hu).
    exists u. split; [exact Hu|].
    split; [exact (proxied_url_differs _ _ Hu)|].
    rewrite L0, Hu. reflexivity. }
  split; [intros Hnone; rewrite L0, Hnone; reflexivity|].
  split; [apply R1|]. split; [exact Q1|].
  rewrite loaded_urls_app, L0, (proj1 Q1), app_nil_r.
  assert (Hne : streamUrl <> []) by (intros ->; discriminate Hinc).
  destruct (getProxiedUrl streamUrl) as [u|] eqn:E.
  - pose proof (proxied_url_differs streamUrl u E) as Hd.
    intros [Hx|[Hx|[]]]; congruence.
  - intros [Hx|[]]; congruence.
Qed.

Lemma pluto_tv_starts_relayed_witness :
  let env := {| hlsSupported := true; canPlayNativeHls := false |} in
  let c := {| ch_id := 3; ch_name := lit "Pluto" |} in
  let url := lit "https://pluto.tv/live/x.m3u8" in
  let p := fst (construct env {| forceProxy := false; forceTranscode := false |}) in
  let ops := [ OpEvent 1 ManifestParsedEv;
               OpBrowser false 3%Q;
               OpEvent 1 (ErrorEv {| fatal := true; etype := NETWORK_ERROR;
                                     details := lit "manifestLoadError" |});
               OpPlayRejected 0 ] in
  isUsingProxy (fst (play env c url p)) = true /\
  loaded_urls (snd (play env c url p)) =
    [[]; lit "/api/proxy/stream?url=https%3A%2F%2Fpluto.tv%2Flive%2Fx.m3u8"] /\
  ~ In url (loaded_urls (snd (play env c url p)
                           ++ List.concat (snd (run env ops (fst (play env c url p)))))).
Proof.
  intros env c url p ops.
  pose proof (pluto_tv_starts_relayed env c url p ops
                eq_refl eq_refl eq_refl eq_refl) as H.
  cbv zeta in H. destruct H as (H1 & _ & _ & H4 & _ & _ & _ & H8).
  split; [exact H1|]. split; [|exact H8].
  destruct (H4 eq_refl) as (u & Hu & _ & Hl).
  rewrite Hl. injection Hu as <-. reflexivity.
Defined.

(** C3 as the specification states it does not hold: for a [pluto.tv]
    URL that ends in an unpaired surrogate the proxy flag is set,
    [encodeURIComponent] throws inside [getProxiedUrl], and [play] shows
    the error without loading anything. *)
Lemma pluto_tv_loads_nothing_on_lone_surrogate :
  let env := {| hlsSupported := true; canPlayNativeHls := false |} in
  let p := fst (construct env {| forceProxy := false;
                                 forceTranscode := false |}) in
  let c := {| ch_id := 3; ch_name := lit "Pluto" |} in
  let bad := lit "https://pluto.tv/live/" ++ [0xD800] in
  ~ pluto_tv_always_loads_proxied /\
  getProxiedUrl bad = None /\
  isUsingProxy (fst (play env c bad p)) = true /\
  snd (play env c bad p) =
    [ HlsDestroy 0; VideoPause; VideoSetSrc []; VideoLoad; OverlayHide;
      MkProxiedUrl bad; ShowError (lit "Failed to play channel") ].
Proof.
  intros env p c bad. split; [|repeat split; reflexivity].
  intros H.
  destruct (H env c bad p (one_engine_construct env _) eq_refl eq_refl eq_refl)
    as (u & Hu & _).
  vm_compute in Hu. discriminate Hu.
Qed.

Lemma direct_first_then_one_relay_escalation_witness :
  let env := {| hlsSupported := true; canPlayNativeHls := false |} in
  let c := {| ch_id := 7; ch_name := lit "News" |} in
  let url := lit "http://h/live.m3u8" in
  let p := fst (construct env {| forceProxy := false; forceTranscode := false |}) in
  let pre := [ OpEvent 1 ManifestParsedEv;
               OpBrowser false 3%Q;
               frag_changed 1 0 0;
               OpEvent 1 (ErrorEv {| fatal := false; etype := MEDIA_ERROR;
                                     details := lit "bufferStalledError" |}) ] in
  let d := {| fatal := true; etype := NETWORK_ERROR;
              details := lit "manifestLoadError" |} in
  let post := [ OpEvent 1 (ErrorEv d); OpPlayRejected 0 ] in
  let r0 := play env c url p in
  let r1 := run env pre (fst r0) in
  let r2 := step env (OpEvent 1 (ErrorEv d)) (fst r1) in
  let r3 := run env post (fst r2) in
  loaded_urls (snd r0) = [[]; url] /\
  snd r2 = [ MkProxiedUrl url;
             HlsLoadSource 1 (lit "/api/proxy/stream?url=http%3A%2F%2Fh%2Flive.m3u8");
             HlsStartLoad 1 ] /\
  filter is_mk_proxied
    (snd r0 ++ List.concat (snd r1) ++ snd r2 ++ List.concat (snd r3)) =
    [MkProxiedUrl url] /\
  direct_then_one_escalation env c url p 1 pre post d.
Proof.
  intros env c url p pre d post.
  pose proof (direct_first_then_one_relay_escalation env c url p
                eq_refl eq_refl eq_refl eq_refl) as H.
  cbv zeta in H. destruct H as ((_ & H1 & _) & H).
  specialize (H 1%nat pre post d eq_refl eq_refl eq_refl eq_refl eq_refl
                eq_refl).
  destruct H as (_ & (_ & _ & H2 & _) & _ & H3 & _ & H4).
  cbv zeta. split; [exact H1|]. split; [|split; [exact H3 | exact (H4 eq_refl)]].
  destruct (H2 eq_refl) as (u & Hu & _ & Au).
  rewrite Au. injection Hu as <-. reflexivity.
Defined.

End Escalation.

(** ** URL construction *)
Module UrlRoundTrip.
Import Uri UriFacts Player.

(** C10 (as the code has it): for every upstream URL that is a
    well-formed UTF-16 string (code units in range, no unpaired
    surrogate), the proxied URL and the transcode URL are built, and
    decoding the value of their [url] query parameter gives back the
    upstream URL, whatever [&], [?], [=] or [#] it contains. *)
Theorem url_round_trip_well_formed :
  forall url : jstr, well_formed url = true -> url_round_trip url.
Proof.
  intros url Hw.
  destruct (encode_well_formed url Hw) as (e & He & _ & Hnd & Hdec).
  unfold url_round_trip, getProxiedUrl, getTranscodeUrl, query_value.
  rewrite He. cbn [option_map].
  do 2 eexists. split; [reflexivity|]. split; [reflexivity|].
  rewrite !strip_prefix_app, (until_delim_id e Hnd), (plus_to_space_id e Hnd).
  auto.
Qed.

Lemma url_round_trip_well_formed_witness :
  url_round_trip (lit "http://h/a b?x=1&y=2#z" ++ [0xE9; 0x20AC; 0xD83D; 0xDE00]).
Proof.
  apply url_round_trip_well_formed. reflexivity.
Defined.

(** C10 for every string does not hold: on an unpaired surrogate
    [encodeURIComponent] throws and no URL is built. *)
Lemma url_round_trip_fails_on_lone_surrogate :
  ~ (forall url : jstr, url_round_trip url).
Proof.
  intros H. destruct (H [0xD800]) as (p & _ & Hp & _).
  discriminate Hp.
Qed.

End UrlRoundTrip.

(** ** Channel navigation *)
Module NavigationSpec.
Import Player Navigation.

Lemma findIndex_nth l : forall i c,
  NoDup (map ch_id l) -> nth_error l i = Some c ->
  findIndex (ch_id c) l = Z.of_nat i.
Proof.
  induction l as [|c0 rest IH]; intros i c Hnd Hn.
  - destruct i; discriminate.
  - simpl in Hnd. inversion Hnd as [|x xs Hnotin Hnd']; subst.
    destruct i as [|k]; simpl in Hn.
    + injection Hn as ->. simpl. rewrite Z.eqb_refl. reflexivity.
    + assert (Hin : In (ch_id c) (map ch_id rest))
        by (apply in_map, (nth_error_In _ _ Hn)).
      cbn [findIndex].
      destruct (ch_id c0 =? ch_id c) eqn:E.
      * apply Z.eqb_eq in E. rewrite E in Hnotin. contradiction.
      * rewrite (IH k c Hnd' Hn).
        destruct (Z.of_nat k =? -1) eqn:E2; [apply Z.eqb_eq in E2; lia|].
        lia.
Qed.

Lemma findIndex_missing l id :
  ~ In id (map ch_id l) -> findIndex id l = -1.
Proof.
  induction l as [|c0 rest IH]; intros H; [reflexivity|].
  simpl in H. cbn [findIndex].
  destruct (ch_id c0 =? id) eqn:E; [apply Z.eqb_eq in E; tauto|].
  rewrite IH by tauto. reflexivity.
Qed.

Lemma id_at_nth l i c :
  nth_error l i = Some c -> id_at l (Z.of_nat i) = Some (ch_id c).
Proof.
  intros H. unfold id_at.
  destruct (Z.of_nat i <? 0) eqn:E; [apply Z.ltb_lt in E; lia|].
  rewrite Nat2Z.id, H. reflexivity.
Qed.

Lemma nth_in_range (l : list Channel) i :
  (i < List.length l)%nat -> exists c, nth_error l i = Some c.
Proof.
  intros H. destruct (nth_error l i) eqn:E; [eauto|].
  apply nth_error_None in E. lia.
Qed.

Lemma nth_error_last (l : list Channel) : forall c0 d,
  nth_error (c0 :: l) (List.length l) = Some (last (c0 :: l) d).
Proof.
  induction l as [|c1 r IH]; intros c0 d; [reflexivity|].
  change (nth_error (c0 :: c1 :: r) (List.length (c1 :: r)))
    with (nth_error (c1 :: r) (List.length r)).
  rewrite (IH c1 d). reflexivity.
Qed.

(** X1: with a non-empty list of visible channels, [channelUp] and
    [channelDown] always select the identifier of a channel of that
    list, whatever the current channel is; with no current channel, or
    one that is not in the list, [channelDown] selects the first channel
    and [channelUp] the last. *)
Theorem navigation_selects_a_visible_channel :
  forall (c0 : Channel) (rest : list Channel) (current : option Channel),
    let channels := c0 :: rest in
    (exists a b,
        In a channels /\ In b channels /\
        channelUp (Some channels) current = Some (ch_id a) /\
        channelDown (Some channels) current = Some (ch_id b)) /\
    (currentIdx channels current = -1 ->
     channelDown (Some channels) current = Some (ch_id c0) /\
     channelUp (Some channels) current = Some (ch_id (last channels c0))).
Proof.
  intros c0 rest current channels.
  assert (Hlen : len channels = Z.of_nat (S (List.length rest))) by reflexivity.
  assert (Hrange : forall l id, -1 <= findIndex id l < len l).
  { clear. induction l as [|c l IH]; intros id; unfold len in *; cbn [findIndex].
    - simpl. lia.
    - specialize (IH id).
      destruct (ch_id c =? id); [simpl List.length; lia|].
      destruct (findIndex id l =? -1) eqn:E; simpl List.length; lia. }
  assert (Hi : -1 <= currentIdx channels current < len channels).
  { unfold currentIdx. destruct current; [apply Hrange|].
    rewrite Hlen. lia. }
  split.
  - assert (Hp : 0 <= prevIdx channels current < len channels)
      by (unfold prevIdx; destruct (_ <=? 0) eqn:E;
          [apply Z.leb_le in E | apply Z.leb_gt in E]; lia).
    assert (Hn : 0 <= nextIdx channels current < len channels)
      by (unfold nextIdx; destruct (_ <=? _) eqn:E;
          [apply Z.leb_le in E | apply Z.leb_gt in E]; lia).
    destruct (nth_in_range channels (Z.to_nat (prevIdx channels current)))
      as [a Ha]; [unfold len in Hp; lia|].
    destruct (nth_in_range channels (Z.to_nat (nextIdx channels current)))
      as [b Hb]; [unfold len in Hn; lia|].
    exists a, b.
    split; [apply (nth_error_In _ _ Ha)|].
    split; [apply (nth_error_In _ _ Hb)|].
    unfold channelUp, channelDown, channels.
    fold channels. split.
    + rewrite <- (Z2Nat.id (prevIdx channels current)) by lia.
      apply id_at_nth. exact Ha.
    + rewrite <- (Z2Nat.id (nextIdx channels current)) by lia.
      apply id_at_nth. exact Hb.
  - intros Hm. unfold channelUp, channelDown, channels. fold channels.
    unfold nextIdx, prevIdx. rewrite Hm. split.
    + destruct (len channels - 1 <=? -1) eqn:E;
        [apply Z.leb_le in E; lia|]. reflexivity.
    + cbn [Z.leb Z.compare]. rewrite Hlen.
      replace (Z.of_nat (S (List.length rest)) - 1)
        with (Z.of_nat (List.length rest)) by lia.
      apply id_at_nth. apply nth_error_last.
Qed.

Lemma channelDown_at l i c :
  l <> [] -> NoDup (map ch_id l) -> nth_error l i = Some c ->
  exists j d,
    nth_error l j = Some d /\
    Z.of_nat j = (if len l - 1 <=? Z.of_nat i then 0 else Z.of_nat i + 1) /\
    channelDown (Some l) (Some c) = Some (ch_id d).
Proof.
  intros Hne Hnd Hn.
  assert (Hi : (i < List.length l)%nat) by (apply nth_error_Some; congruence).
  set (jz := if len l - 1 <=? Z.of_nat i then 0 else Z.of_nat i + 1).
  assert (Hj : 0 <= jz < len l).
  { unfold jz, len. destruct (_ <=? _) eqn:E;
      [apply Z.leb_le in E | apply Z.leb_gt in E]; unfold len in E; lia. }
  destruct (nth_in_range l (Z.to_nat jz)) as [d Hd]; [unfold len in Hj; lia|].
  exists (Z.to_nat jz), d. split; [exact Hd|]. split; [lia|].
  unfold channelDown. destruct l as [|c0 rest]; [congruence|].
  unfold nextIdx, currentIdx. rewrite (findIndex_nth _ i c Hnd Hn).
  fold jz. rewrite <- (Z2Nat.id jz) by lia. apply id_at_nth. exact Hd.
Qed.

Lemma channelUp_at l i c :
  l <> [] -> NoDup (map ch_id l) -> nth_error l i = Some c ->
  exists j d,
    nth_error l j = Some d /\
    Z.of_nat j = (if Z.of_nat i <=? 0 then len l - 1 else Z.of_nat i - 1) /\
    channelUp (Some l) (Some c) = Some (ch_id d).
Proof.
  intros Hne Hnd Hn.
  assert (Hi : (i < List.length l)%nat) by (apply nth_error_Some; congruence).
  set (jz := if Z.of_nat i <=? 0 then len l - 1 else Z.of_nat i - 1).
  assert (Hj : 0 <= jz < len l).
  { unfold jz, len. destruct (_ <=? _) eqn:E;
      [apply Z.leb_le in E | apply Z.leb_gt in E]; lia. }
  destruct (nth_in_range l (Z.to_nat jz)) as [d Hd]; [unfold len in Hj; lia|].
  exists (Z.to_nat jz), d. split; [exact Hd|]. split; [lia|].
  unfold channelUp. destruct l as [|c0 rest]; [congruence|].
  unfold prevIdx, currentIdx. rewrite (findIndex_nth _ i c Hnd Hn).
  fold jz. rewrite <- (Z2Nat.id jz) by lia. apply id_at_nth. exact Hd.
Qed.

(** X2: when the visible channels have pairwise different identifiers
    and the current channel is one of them, [channelDown] and [channelUp]
    undo each other: the channel selected by one, once current, makes the
    other select the channel started from (wrapping at both ends). *)
Theorem channelDown_and_channelUp_are_inverse :
  forall (channels : list Channel) (c : Channel),
    NoDup (map ch_id channels) ->
    In c channels ->
    (exists d, In d channels /\
       channelDown (Some channels) (Some c) = Some (ch_id d) /\
       channelUp (Some channels) (Some d) = Some (ch_id c)) /\
    (exists u, In u channels /\
       channelUp (Some channels) (Some c) = Some (ch_id u) /\
       channelDown (Some channels) (Some u) = Some (ch_id c)).
Proof.
  intros channels c Hnd Hin.
  assert (Hne : channels <> []) by (intros ->; contradiction).
  destruct (In_nth_error _ _ Hin) as [i Hi].
  assert (Hlt : (i < List.length channels)%nat)
    by (apply nth_error_Some; congruence).
  split.
  - destruct (channelDown_at channels i c Hne Hnd Hi) as (j & d & Hd & Hj & Hdown).
    exists d. split; [apply (nth_error_In _ _ Hd)|]. split; [exact Hdown|].
    destruct (channelUp_at channels j d Hne Hnd Hd) as (k & e & He & Hk & Hup).
    rewrite Hup. f_equal. f_equal.
    assert (k = i).
    { unfold len in *. rewrite Hj in Hk.
      destruct (Z.of_nat (List.length channels) - 1 <=? Z.of_nat i) eqn:E1;
        [apply Z.leb_le in E1 | apply Z.leb_gt in E1];
        destruct (_ <=? 0) eqn:E2;
        [apply Z.leb_le in E2 | apply Z.leb_gt in E2
        |apply Z.leb_le in E2 | apply Z.leb_gt in E2]; lia. }
    subst k. congruence.
  - destruct (channelUp_at channels i c Hne Hnd Hi) as (j & u & Hu & Hj & Hup).
    exists u. split; [apply (nth_error_In _ _ Hu)|]. split; [exact Hup|].
    destruct (channelDown_at channels j u Hne Hnd Hu) as (k & e & He & Hk & Hdown).
    rewrite Hdown. f_equal. f_equal.
    assert (k = i).
    { unfold len in *. rewrite Hj in Hk.
      destruct (Z.of_nat i <=? 0) eqn:E1;
        [apply Z.leb_le in E1 | apply Z.leb_gt in E1];
        destruct (_ <=? _) eqn:E2;
        [apply Z.leb_le in E2 | apply Z.leb_gt in E2
        |apply Z.leb_le in E2 | apply Z.leb_gt in E2]; lia. }
    subst k. congruence.
Qed.

Lemma channelDown_and_channelUp_are_inverse_witness :
  let a := {| ch_id := 10; ch_name := lit "A" |} in
  let b := {| ch_id := 20; ch_name := lit "B" |} in
  let c := {| ch_id := 30; ch_name := lit "C" |} in
  (exists d, In d [a; b; c] /\
     channelDown (Some [a; b; c]) (Some c) = Some (ch_id d) /\
     channelUp (Some [a; b; c]) (Some d) = Some (ch_id c)) /\
  (exists u, In u [a; b; c] /\
     channelUp (Some [a; b; c]) (Some c) = Some (ch_id u) /\
     channelDown (Some [a; b; c]) (Some u) = Some (ch_id c)).
Proof.
  intros a b c.
  apply (channelDown_and_channelUp_are_inverse [a; b; c] c).
  - repeat constructor; simpl; intuition discriminate.
  - simpl. auto.
Defined.

End NavigationSpec.

(** ** Discontinuities, in general *)
Module DiscontinuitySpec.
Import Player PlayerSpec Session.

Lemma play_frags_from env id : forall (evs : list (Z * Z)) l p,
  playing_from id l p -> l <> -1 ->
  Forall (fun nc => snd nc <> -1) evs ->
  snd (run env (frag_events id evs) p) =
    seeks_where 1 (flags_from (Some l) (map snd evs)).
Proof.
  induction evs as [|[n c] evs IH]; intros l p Hp Hl Hall; [reflexivity|].
  inversion Hall as [|x xs Hc Hrest]; subst. simpl in Hc.
  cbn [frag_events map fst snd run flags_from seeks_where].
  destruct (Z.eq_dec c l) as [->|Hne].
  - rewrite (frag_same id n l p env Hp).
    specialize (IH l p Hp Hl Hrest). unfold frag_events in IH.
    destruct (run env _ p) as [p2 tr]. simpl in IH. cbn [snd].
    rewrite Z.eqb_refl. simpl. f_equal. exact IH.
  - destruct (frag_boundary id n l c p env Hp Hl Hne) as [E Hp'].
    rewrite E.
    specialize (IH c _ Hp' Hc Hrest). unfold frag_events in IH.
    destruct (run env _ _) as [p2 tr]. simpl in IH. cbn [snd].
    apply Z.eqb_neq in Hne. rewrite Hne. simpl. f_equal. exact IH.
Qed.

(** X3: on the instance that [play] attached, while the video plays past
    position zero, fragment changes with any continuity counters (none of
    them [-1]) cause a seek of one second exactly at the events whose
    counter differs from the counter of the event before; the first event
    never causes one. *)
Theorem seeks_exactly_at_counter_changes :
  forall (env : Env) (id : nat) (p : Player) (evs : list (Z * Z)),
    playing_from id (-1) p ->
    Forall (fun nc => snd nc <> -1) evs ->
    snd (run env (frag_events id evs) p) =
      seeks_where 1 (boundary_flags (map snd evs)).
Proof.
  intros env id p [|[n c] evs] Hp Hall; [reflexivity|].
  inversion Hall as [|x xs Hc Hrest]; subst. simpl in Hc.
  destruct (frag_first id n c p env Hp Hc) as [E Hp'].
  pose proof (play_frags_from env id evs c _ Hp' Hc Hrest) as IH.
  unfold boundary_flags.
  cbn [frag_events map fst snd run flags_from seeks_where].
  rewrite E. unfold frag_events in IH.
  destruct (run env _ _) as [p2 tr]. simpl in IH. cbn [snd].
  f_equal. exact IH.
Qed.

Lemma seeks_exactly_at_counter_changes_witness :
  let env := {| hlsSupported := true; canPlayNativeHls := false |} in
  let p := fst (run env [OpPlay {| ch_id := 7; ch_name := lit "News" |}
                           (lit "http://h/live.m3u8");
                         OpBrowser false 5%Q]
                  (fst (construct env {| forceProxy := false;
                                         forceTranscode := false |}))) in
  snd (run env (frag_events 1 [(1, 4); (2, 4); (3, 5); (4, 4); (5, 4)]) p) =
    [ []; []; [VideoSeek 1]; [VideoSeek 1]; [] ].
Proof.
  refine (seeks_exactly_at_counter_changes
    {| hlsSupported := true; canPlayNativeHls := false |} 1%nat _
    [(1, 4); (2, 4); (3, 5); (4, 4); (5, 4)] _ _).
  - repeat split.
    exists {| eid := 1; origin := FromPlay;
              source := Some (lit "http://h/live.m3u8"); attached := true |}.
    split; reflexivity.
  - repeat constructor; simpl; lia.
Defined.

Lemma init_frag_step env id n l c p :
  playing_from_init id l p ->
  step env (frag_changed id n c) p =
    (if c =? l then p
     else video_seek (1 # 100) (set_lastDiscontinuity (Some c) p),
     if c =? l then [] else [VideoSeek (1 # 100)]) /\
  playing_from_init id c
    (if c =? l then p
     else video_seek (1 # 100) (set_lastDiscontinuity (Some c) p)).
Proof.
  intros ((e & He & Ho) & Hp & Ht & Hl).
  destruct (c =? l) eqn:E.
  - apply Z.eqb_eq in E. subst c. split.
    + simpl. unfold deliver. rewrite He, Ho. simpl. rewrite Hl. simpl.
      rewrite Z.eqb_refl. reflexivity.
    + repeat split; auto. exists e; auto.
  - split.
    + simpl. unfold deliver. rewrite He, Ho. simpl. rewrite Hl. simpl.
      rewrite E. simpl. rewrite playing_past_zero_true; auto.
    + repeat split; auto.
      * exists e; auto.
      * simpl. apply Qlt_trans with (1 := Ht).
        rewrite <- (Qplus_0_r (currentTime (video p))) at 1.
        apply Qplus_lt_r. reflexivity.
Qed.

(** X4: the listener that [init] installs on its own instance has no
    exception for the first detection: while the video plays past
    position zero it nudges the position by 10 ms at every event whose
    continuity counter differs from the last one seen, the first event
    after [init] (last counter [-1]) included. *)
Theorem init_listener_nudges_at_every_change :
  forall (env : Env) (id : nat) (evs : list (Z * Z)) (l : Z) (p : Player),
    playing_from_init id l p ->
    snd (run env (frag_events id evs) p) =
      seeks_where (1 # 100) (flags_from (Some l) (map snd evs)).
Proof.
  intros env id evs. induction evs as [|[n c] evs IH]; intros l p Hp;
    [reflexivity|].
  destruct (init_frag_step env id n l c p Hp) as [E Hp'].
  cbn [frag_events map fst snd run flags_from seeks_where].
  rewrite E. specialize (IH c _ Hp'). unfold frag_events in IH.
  destruct (run env _ _) as [p2 tr]. simpl in IH. cbn [snd].
  f_equal; [destruct (c =? l); reflexivity | exact IH].
Qed.

Lemma init_listener_nudges_at_every_change_witness :
  let env := {| hlsSupported := true; canPlayNativeHls := false |} in
  let p := fst (run env [OpBrowser false 5%Q]
                  (fst (construct env {| forceProxy := false;
                                         forceTranscode := false |}))) in
  snd (run env (frag_events 0 [(1, 0); (2, 0); (3, 1)]) p) =
    [ [VideoSeek (1 # 100)]; []; [VideoSeek (1 # 100)] ].
Proof.
  refine (init_listener_nudges_at_every_change
    {| hlsSupported := true; canPlayNativeHls := false |} 0%nat
    [(1, 0); (2, 0); (3, 1)] (-1) _ _).
  repeat split.
  exists {| eid := 0; origin := FromInit; source := None; attached := false |}.
  split; reflexivity.
Defined.

End DiscontinuitySpec.

(** ** Events of a destroyed instance *)
Module StaleEvents.
Import Player PlayerSpec EngineInvariant Session.

Lemma evolves_same p p' :
  engine_ids p' = engine_ids p -> next_engine p' = next_engine p ->
  evolves p p'.
Proof.
  intros He Hn. unfold evolves. rewrite He, Hn. split; [lia | auto].
Qed.

Lemma evolves_trans p q r : evolves p q -> evolves q r -> evolves p r.
Proof.
  intros [N1 I1] [N2 I2]. split; [lia|].
  intros x Hx. destruct (I2 x Hx) as [Hq|Hr]; [|right; lia].
  destruct (I1 x Hq) as [Hp|Hr]; [left; exact Hp | right; lia].
Qed.

Lemma evolves_stop p : evolves p (fst (stop p)).
Proof.
  unfold stop. destruct (hls p) as [id|]; simpl.
  - split; [simpl; lia|]. unfold engine_ids. simpl. intros x Hx. left.
    apply in_map_iff in Hx. destruct Hx as (e & <- & He).
    apply filter_In in He. apply in_map. tauto.
  - apply evolves_same; reflexivity.
Qed.

Lemma evolves_load id u p : evolves p (load_source id u p).
Proof.
  apply evolves_same; [|reflexivity].
  unfold engine_ids, load_source. simpl. apply ids_update_engine. auto.
Qed.

Lemma evolves_play_listener ev p : evolves p (fst (play_listener ev p)).
Proof.
  destruct ev as [d|f| |]; simpl; try (apply evolves_same; reflexivity).
  - unfold play_on_error, on_hls. simpl.
    split_matches; simpl; try (apply evolves_same; reflexivity).
    apply (evolves_trans _ (set_isUsingProxy true p));
      [apply evolves_same; reflexivity | apply evolves_load].
  - unfold play_on_frag_changed.
    split_matches; simpl; apply evolves_same; reflexivity.
Qed.

Lemma evolves_init_listener ev p : evolves p (fst (init_listener ev p)).
Proof.
  destruct ev as [d|f| |]; simpl; try (apply evolves_same; reflexivity).
  - unfold init_on_error, on_hls. simpl.
    split_matches; simpl; try (apply evolves_same; reflexivity);
      try apply evolves_stop.
    apply (evolves_trans _ (set_isUsingProxy true p));
      [apply evolves_same; reflexivity | apply evolves_load].
  - unfold init_on_frag_changed.
    split_matches; simpl; apply evolves_same; reflexivity.
  - unfold on_hls. split_matches; simpl; apply evolves_same; reflexivity.
Qed.

Lemma evolves_play env c u p : evolves p (fst (play env c u p)).
Proof.
  unfold play.
  pose proof (evolves_stop (set_currentChannel (Some c) p)) as Hs.
  destruct (stop (set_currentChannel (Some c) p)) as [p1 a1]. simpl in Hs.
  assert (H1 : evolves p p1).
  { apply (evolves_trans _ (set_currentChannel (Some c) p));
      [apply evolves_same; reflexivity | exact Hs]. }
  destruct (forceTranscode _).
  - destruct (getTranscodeUrl u); simpl;
      (eapply evolves_trans; [exact H1 | apply evolves_same; reflexivity]).
  - cbn zeta.
    destruct (needsProxy _ u); [destruct (getProxiedUrl u)|];
      try destruct (_ && _); try destruct (canPlayNativeHls env);
      simpl;
      try (eapply evolves_trans; [exact H1 | apply evolves_same; reflexivity]).
    all: eapply evolves_trans; [exact H1|].
    all: split; [simpl; lia|].
    all: unfold engine_ids; simpl; rewrite ?Nat.eqb_refl; simpl;
      rewrite ?Nat.eqb_refl; simpl.
    all: intros x [<-|Hx]; [right; lia|left].
    all: rewrite !ids_update_engine in Hx by auto; exact Hx.
Qed.

Lemma evolves_step env o p : evolves p (fst (step env o p)).
Proof.
  destruct o; simpl.
  - apply evolves_play.
  - apply evolves_stop.
  - unfold deliver. destruct (find_engine _ _) as [e|];
      [destruct (origin e)|]; simpl.
    + apply evolves_init_listener.
    + apply evolves_play_listener.
    + apply evolves_same; reflexivity.
  - unfold play_rejected. split_matches; simpl; apply evolves_same; reflexivity.
  - apply evolves_same; reflexivity.
  - apply evolves_same; reflexivity.
Qed.

Lemma evolves_run env ops : forall p, evolves p (fst (run env ops p)).
Proof.
  induction ops as [|o ops IH]; intros p; simpl.
  - apply evolves_same; reflexivity.
  - pose proof (evolves_step env o p) as H1.
    destruct (step env o p) as [p1 a]. simpl in H1.
    specialize (IH p1). destruct (run env ops p1) as [p2 tr]. simpl in *.
    eapply evolves_trans; eassumption.
Qed.

Lemma find_engine_none id l :
  find_engine id l = None <-> ~ In id (map eid l).
Proof.
  unfold find_engine. induction l as [|e l IH]; simpl; [tauto|].
  destruct (Nat.eqb (eid e) id) eqn:E.
  - apply Nat.eqb_eq in E. split; [discriminate | tauto].
  - apply Nat.eqb_neq in E. rewrite IH. tauto.
Qed.

Lemma dead_evolves id p p' : evolves p p' -> dead id p -> dead id p'.
Proof.
  intros [Hn Hi] [Hlt Hf]. split; [lia|].
  apply find_engine_none. intros Hin.
  destruct (Hi id Hin) as [Hp|Hr]; [|lia].
  apply find_engine_none in Hf. contradiction.
Qed.

Lemma ids_fresh_evolves p p' : evolves p p' -> ids_fresh p -> ids_fresh p'.
Proof.
  intros [Hn Hi] Hf. unfold ids_fresh in *. rewrite Forall_forall in *.
  intros e He. destruct (Hi (eid e) (in_map eid _ _ He)) as [Hp|Hr]; [|lia].
  apply in_map_iff in Hp. destruct Hp as (e' & Heq & He').
  specialize (Hf e' He'). lia.
Qed.

Lemma ids_fresh_construct env s : ids_fresh (fst (construct env s)).
Proof.
  unfold construct, ids_fresh. destruct (hlsSupported env); simpl;
    repeat constructor.
Qed.

Lemma stop_next_engine p : next_engine (fst (stop p)) = next_engine p.
Proof. unfold stop. destruct (hls p); reflexivity. Qed.

Lemma play_hls env c u p :
  hls (fst (play env c u p)) = None \/
  hls (fst (play env c u p)) = Some (next_engine p).
Proof.
  unfold play.
  pose proof (stop_hls (set_currentChannel (Some c) p)) as Hh.
  pose proof (stop_next_engine (set_currentChannel (Some c) p)) as Hn.
  destruct (stop (set_currentChannel (Some c) p)) as [p1 a1].
  simpl in Hh, Hn.
  destruct (forceTranscode _).
  - destruct (getTranscodeUrl u); simpl; auto.
  - cbn zeta.
    destruct (needsProxy _ u); [destruct (getProxiedUrl u)|];
      try destruct (_ && _); try destruct (canPlayNativeHls env);
      simpl; auto.
Qed.

(** X5: once [play] has run, the instance the player held before is
    destroyed for good: whatever happens afterwards, an event that this
    old instance would emit reaches no listener, changes nothing and
    causes no action. *)
Theorem events_of_replaced_instance_are_ignored :
  forall (env : Env) (s : Settings) (before after : list Op)
         (c : Channel) (streamUrl : jstr) (old : nat) (ev : Payload),
    let p := fst (run env before (fst (construct env s))) in
    hls p = Some old ->
    let q := fst (run env after (fst (play env c streamUrl p))) in
    deliver old ev q = (q, []).
Proof.
  intros env s before after c streamUrl old ev p Hold q.
  assert (H1 : one_engine p) by (apply one_engine_run, one_engine_construct).
  assert (Hf : ids_fresh p)
    by (apply (ids_fresh_evolves _ _ (evolves_run env before _)),
          ids_fresh_construct).
  assert (Hlt : (old < next_engine p)%nat).
  { unfold one_engine, engine_ids in H1. rewrite Hold in H1.
    unfold ids_fresh in Hf. destruct (engines p) as [|e [|e' l]];
      try discriminate. injection H1 as H1. inversion Hf; subst. assumption. }
  assert (Hd : dead old (fst (play env c streamUrl p))).
  { split; [pose proof (proj1 (evolves_play env c streamUrl p)); lia|].
    apply find_engine_none.
    pose proof (one_engine_play env c streamUrl p H1) as H2.
    unfold one_engine, engine_ids in H2. rewrite H2.
    destruct (play_hls env c streamUrl p) as [-> | ->]; simpl; lia. }
  pose proof (dead_evolves old _ _ (evolves_run env after _) Hd) as [_ Hq].
  fold q in Hq. unfold deliver. rewrite Hq. reflexivity.
Qed.

Lemma events_of_replaced_instance_are_ignored_witness :
  let env := {| hlsSupported := true; canPlayNativeHls := false |} in
  let s := {| forceProxy := false; forceTranscode := false |} in
  let c := {| ch_id := 7; ch_name := lit "News" |} in
  let p := fst (run env [OpPlay c (lit "http://h/a.m3u8")]
                  (fst (construct env s))) in
  let q := fst (run env [OpBrowser false 4%Q]
                  (fst (play env c (lit "http://h/b.m3u8") p))) in
  deliver 1 (ErrorEv {| fatal := true; etype := NETWORK_ERROR;
                        details := lit "manifestLoadError" |}) q = (q, []).
Proof.
  exact (events_of_replaced_instance_are_ignored
    {| hlsSupported := true; canPlayNativeHls := false |}
    {| forceProxy := false; forceTranscode := false |}
    [OpPlay {| ch_id := 7; ch_name := lit "News" |} (lit "http://h/a.m3u8")]
    [OpBrowser false 4%Q]
    {| ch_id := 7; ch_name := lit "News" |} (lit "http://h/b.m3u8") 1%nat
    (ErrorEv {| fatal := true; etype := NETWORK_ERROR;
                details := lit "manifestLoadError" |}) eq_refl).
Defined.

(** Without an instance, nothing but [play] brings one. *)
Lemma no_engine_step env o p :
  hls p = None -> engines p = [] -> not_play o = true ->
  hls (fst (step env o p)) = None /\ engines (fst (step env o p)) = [].
Proof.
  intros Hh He Hn. destruct o; try discriminate; simpl.
  - unfold stop. rewrite Hh. simpl. auto.
  - unfold deliver. rewrite He. simpl. auto.
  - unfold play_rejected.
    destruct (nth_error (pendingCatch p) k) as [w|]; [|auto].
    cbn. destruct (negb (isUsingProxy p)); [|auto].
    destruct (getProxiedUrl w); auto.
  - auto.
  - auto.
Qed.

Lemma no_engine_run env ops : forall p,
  hls p = None -> engines p = [] -> forallb not_play ops = true ->
  hls (fst (run env ops p)) = None /\ engines (fst (run env ops p)) = [].
Proof.
  induction ops as [|o ops IH]; intros p Hh He Hn; simpl; [auto|].
  simpl in Hn. apply andb_true_iff in Hn. destruct Hn as [Ho Hn].
  destruct (no_engine_step env o p Hh He Ho) as [Hh1 He1].
  destruct (step env o p) as [p1 a]. simpl in Hh1, He1.
  specialize (IH p1 Hh1 He1 Hn). destruct (run env ops p1) as [p2 tr].
  exact IH.
Qed.

(** X30: [stop] silences the engine, not a pending retry.  In any state
    the player reaches, after [stop] it holds no hls.js instance and none
    is alive, the video is paused at position zero with an empty source,
    and a second [stop] only repeats the three calls on the video
    element; until the next [play], whatever happens, no instance exists
    and an event of any instance is handled by no listener.  A rejection
    handler that a [play] of the native path left pending is still there
    after [stop]: when its promise is rejected and the proxy flag is
    unset, it sets the flag, gives the proxied URL of its stream to the
    video element and plays it, although nothing asked to play. *)
Theorem stop_silences_the_engine_not_a_pending_retry :
  forall (env : Env) (s : Settings) (ops later : list Op)
         (target : nat) (ev : Payload),
    forallb not_play later = true ->
    let p := fst (run env ops (fst (construct env s))) in
    let q := fst (stop p) in
    let q' := fst (run env later q) in
    hls q = None /\
    engines q = [] /\
    video q = {| src := []; paused := true; currentTime := 0 |} /\
    stop q = (q, [VideoPause; VideoSetSrc []; VideoLoad]) /\
    hls q' = None /\
    engines q' = [] /\
    deliver target ev q' = (q', []) /\
    pendingCatch q = pendingCatch p /\
    forall (k : nat) (w : jstr),
      nth_error (pendingCatch p) k = Some w ->
      isUsingProxy p = false ->
      let r := play_rejected k q in
      snd r = match getProxiedUrl w with
              | Some u => [MkProxiedUrl w; VideoSetSrc u; VideoPlay]
              | None => [MkProxiedUrl w]
              end /\
      isUsingProxy (fst r) = true /\
      forall u, getProxiedUrl w = Some u ->
        src (video (fst r)) = u /\ paused (video (fst r)) = false.
Proof.
  intros env s ops later target ev Hlater p q q'.
  assert (Hp : one_engine p) by (apply one_engine_run, one_engine_construct).
  assert (He : engines q = []) by (apply stop_engines; exact Hp).
  assert (Hh : hls q = None) by apply stop_hls.
  destruct (no_engine_run env later q Hh He Hlater) as [Hh' He'].
  fold q' in Hh', He'.
  split; [exact Hh|]. split; [exact He|].
  split; [subst q; unfold stop; destruct (hls p); reflexivity|].
  split.
  { unfold stop at 1. rewrite Hh.
    subst q. unfold stop. destruct (hls p); reflexivity. }
  split; [exact Hh'|]. split; [exact He'|].
  split; [unfold deliver; rewrite He'; reflexivity|].
  split; [apply stop_pendingCatch|].
  intros k w Hk Hu r.
  assert (Hk' : nth_error (pendingCatch q) k = Some w)
    by (subst q; rewrite stop_pendingCatch; exact Hk).
  assert (Hu' : isUsingProxy q = false)
    by (subst q; rewrite stop_isUsingProxy; exact Hu).
  destruct (play_rejected_retries k w q Hk' Hu') as (A & B & _ & C).
  fold r in A, B, C.
  split; [exact A|]. split; [exact B | exact C].
Qed.

Lemma stop_silences_the_engine_not_a_pending_retry_witness :
  let env := {| hlsSupported := false; canPlayNativeHls := true |} in
  let s := {| forceProxy := false; forceTranscode := false |} in
  let c := {| ch_id := 7; ch_name := lit "News" |} in
  let d := {| fatal := true; etype := NETWORK_ERROR;
              details := lit "manifestLoadError" |} in
  let p := fst (run env [OpPlay c (lit "http://h/live.m3u8")]
                  (fst (construct env s))) in
  let q := fst (stop p) in
  let q' := fst (run env [OpEvent 0 (ErrorEv d); OpStop; OpBrowser false 2%Q] q) in
  deliver 0 (ErrorEv d) q' = (q', []) /\
  snd (play_rejected 0 q) =
    [ MkProxiedUrl (lit "http://h/live.m3u8");
      VideoSetSrc (lit "/api/proxy/stream?url=http%3A%2F%2Fh%2Flive.m3u8");
      VideoPlay ] /\
  paused (video (fst (play_rejected 0 q))) = false.
Proof.
  intros env s c d p q q'.
  pose proof (stop_silences_the_engine_not_a_pending_retry env s
                [OpPlay c (lit "http://h/live.m3u8")]
                [OpEvent 0 (ErrorEv d); OpStop; OpBrowser false 2%Q]
                0%nat (ErrorEv d) eq_refl) as H.
  cbv zeta in H.
  destruct H as (_ & _ & _ & _ & _ & _ & H7 & _ & H9).
  split; [exact H7|].
  destruct (H9 0%nat (lit "http://h/live.m3u8") eq_refl eq_refl)
    as (A & _ & B).
  split; [exact A|]. exact (proj2 (B _ eq_refl)).
Defined.

End StaleEvents.

(** ** Playback paths without the adaptive-streaming engine *)
Module PlaybackPaths.
Import Player PlayerSpec EngineInvariant Escalation Session.

Lemma includes_unfold s p :
  includes s p = startsWith p s ||
                 match s with [] => false | _ :: s' => includes s' p end.
Proof. destruct s; reflexivity. Qed.

Lemma startsWith_includes s p : startsWith p s = true -> includes s p = true.
Proof. intros H. rewrite includes_unfold, H. reflexivity. Qed.

Lemma includes_tail s a p :
  includes s (a :: p) = true -> includes s p = true.
Proof.
  induction s as [|x s IH]; intros H.
  - discriminate H.
  - rewrite includes_unfold in H. apply orb_true_iff in H.
    rewrite (includes_unfold (x :: s) p).
    destruct H as [H|H].
    + simpl in H. apply andb_true_iff in H. destruct H as [_ H].
      rewrite (startsWith_includes s p H). apply orb_true_r.
    + rewrite (IH H). apply orb_true_r.
Qed.

(** X6: a stream URL that contains [.mp4], [.mkv] or [.avi] and does not
    contain [m3u8], played without proxy or forced transcoding, is never
    given to hls.js, even where hls.js is supported: no instance is
    created, and the video element gets the URL itself as its source. *)
Theorem video_files_bypass_hls_js :
  forall (env : Env) (c : Channel) (streamUrl : jstr) (p : Player),
    forceTranscode (settings p) = false ->
    needsProxy (settings p) streamUrl = false ->
    includes streamUrl (lit "m3u8") = false ->
    includes streamUrl (lit ".mp4") || includes streamUrl (lit ".mkv")
      || includes streamUrl (lit ".avi") = true ->
    let r := play env c streamUrl p in
    filter is_hls_new (snd r) = [] /\
    hls (fst r) = None /\
    loaded_urls (snd r) = [[]; streamUrl] /\
    src (video (fst r)) = streamUrl /\
    paused (video (fst r)) = false.
Proof.
  intros env c streamUrl p Hft Hnp Hm Hv r. subst r.
  assert (Hl : looksLikeHls streamUrl = false).
  { unfold looksLikeHls. rewrite Hm.
    destruct (includes streamUrl (lit ".m3u8")) eqn:E.
    - change (lit ".m3u8") with (46 :: lit "m3u8") in E.
      apply includes_tail in E. congruence.
    - simpl. destruct (includes streamUrl (lit ".mp4")),
        (includes streamUrl (lit ".mkv")), (includes streamUrl (lit ".avi"));
        try reflexivity; discriminate Hv. }
  unfold play.
  pose proof (stop_settings (set_currentChannel (Some c) p)) as Hs.
  pose proof (stop_hls (set_currentChannel (Some c) p)) as Hh.
  pose proof (filter_stop_new (set_currentChannel (Some c) p)) as Hn.
  pose proof (loaded_urls_stop (set_currentChannel (Some c) p)) as Hu.
  destruct (stop (set_currentChannel (Some c) p)) as [p1 a1].
  simpl in Hs, Hh, Hn, Hu.
  cbn [settings set_currentUrl]. rewrite Hs, Hft, Hnp, Hl. cbn [andb].
  destruct (canPlayNativeHls env); cbn [fst snd];
    rewrite !filter_app, !loaded_urls_app, Hn, Hu; cbn; auto.
Qed.

Lemma video_files_bypass_hls_js_witness :
  let env := {| hlsSupported := true; canPlayNativeHls := false |} in
  let p := fst (construct env {| forceProxy := false; forceTranscode := false |}) in
  let r := play env {| ch_id := 1; ch_name := lit "Film" |}
             (lit "http://h/movie/1.mp4") p in
  filter is_hls_new (snd r) = [] /\
  hls (fst r) = None /\
  loaded_urls (snd r) = [[]; lit "http://h/movie/1.mp4"] /\
  src (video (fst r)) = lit "http://h/movie/1.mp4" /\
  paused (video (fst r)) = false.
Proof.
  apply video_files_bypass_hls_js; reflexivity.
Defined.

(** X7: on the native path (no hls.js for this URL, the browser plays
    HLS itself), without force flags and outside the proxy-required
    domains, the stream URL is played as it is and the rejection handler
    of that [play()] is registered behind the handlers still pending.
    When its promise is rejected before an older handler has run, the
    handler sets the proxy flag and retries with the proxied URL of the
    same stream (when [encodeURIComponent] throws, the flag is set and
    nothing is retried); from then on no rejection handler does anything.
    When a handler that an earlier [play] left pending runs first, it is
    the proxied URL of that earlier stream that is loaded and played, and
    the handler of this [play] then retries nothing. *)
Theorem native_path_retries_once_through_proxy :
  forall (env : Env) (c : Channel) (streamUrl : jstr) (p : Player),
    forceProxy (settings p) = false ->
    forceTranscode (settings p) = false ->
    existsb (includes streamUrl) proxyRequiredDomains = false ->
    looksLikeHls streamUrl && hlsSupported env = false ->
    canPlayNativeHls env = true ->
    let own := List.length (pendingCatch p) in
    let r0 := play env c streamUrl p in
    let r1 := play_rejected own (fst r0) in
    loaded_urls (snd r0) = [[]; streamUrl] /\
    isUsingProxy (fst r0) = false /\
    pendingCatch (fst r0) = pendingCatch p ++ [streamUrl] /\
    snd r1 = match getProxiedUrl streamUrl with
             | Some u => [MkProxiedUrl streamUrl; VideoSetSrc u; VideoPlay]
             | None => [MkProxiedUrl streamUrl]
             end /\
    (Uri.well_formed streamUrl = true ->
     exists u, getProxiedUrl streamUrl = Some u /\
               src (video (fst r1)) = u /\ paused (video (fst r1)) = false) /\
    isUsingProxy (fst r1) = true /\
    pendingCatch (fst r1) = pendingCatch p /\
    (forall k, snd (play_rejected k (fst r1)) = [] /\
               isUsingProxy (fst (play_rejected k (fst r1))) = true) /\
    (forall (older : nat) (w : jstr),
        nth_error (pendingCatch p) older = Some w ->
        let s1 := play_rejected older (fst r0) in
        snd s1 = match getProxiedUrl w with
                 | Some u => [MkProxiedUrl w; VideoSetSrc u; VideoPlay]
                 | None => [MkProxiedUrl w]
                 end /\
        (forall u, getProxiedUrl w = Some u -> src (video (fst s1)) = u) /\
        forall k, snd (play_rejected k (fst s1)) = []).
Proof.
  intros env c streamUrl p Hfp Hft Hd Hpath Hnat own r0 r1.
  assert (E0 : loaded_urls (snd r0) = [[]; streamUrl] /\
               isUsingProxy (fst r0) = false /\
               pendingCatch (fst r0) = pendingCatch p ++ [streamUrl]).
  { subst r0. unfold play.
    pose proof (stop_settings (set_currentChannel (Some c) p)) as Hs.
    pose proof (loaded_urls_stop (set_currentChannel (Some c) p)) as Hu.
    pose proof (stop_pendingCatch (set_currentChannel (Some c) p)) as Hp.
    destruct (stop (set_currentChannel (Some c) p)) as [p1 a1].
    simpl in Hs, Hu, Hp.
    cbn [settings set_currentUrl]. rewrite Hs, Hft.
    unfold needsProxy. rewrite Hfp, Hd. cbn [orb]. rewrite Hpath, Hnat.
    cbn [fst snd]. rewrite !loaded_urls_app, Hu. cbn. rewrite Hp. auto. }
  destruct E0 as (L0 & U0 & P0).
  assert (Hown : nth_error (pendingCatch (fst r0)) own = Some streamUrl)
    by (rewrite P0; apply nth_error_appended).
  destruct (play_rejected_retries own streamUrl (fst r0) Hown U0)
    as (A1 & U1 & P1 & V1).
  fold r1 in A1, U1, P1, V1.
  split; [exact L0|]. split; [exact U0|]. split; [exact P0|].
  split; [exact A1|].
  split.
  { intros Hwf.
    destruct (UriFacts.encode_well_formed streamUrl Hwf) as (e & He & _).
    assert (Hg : getProxiedUrl streamUrl
                 = Some (lit "/api/proxy/stream?url=" ++ e))
      by (unfold getProxiedUrl; rewrite He; reflexivity).
    eexists. split; [exact Hg|]. exact (V1 _ Hg). }
  split; [exact U1|].
  split; [rewrite P1, P0; apply drop_at_last|].
  split.
  { intros k. destruct (play_rejected_when_proxied k (fst r1) U1) as (A & B & _).
    split; assumption. }
  intros older w Hw s1.
  assert (Hold : nth_error (pendingCatch (fst r0)) older = Some w).
  { rewrite P0, nth_error_app1; [exact Hw|].
    apply nth_error_Some. congruence. }
  destruct (play_rejected_retries older w (fst r0) Hold U0)
    as (A2 & U2 & _ & V2).
  fold s1 in A2, U2, V2.
  split; [exact A2|]. split; [intros u Hu; exact (proj1 (V2 u Hu))|].
  intros k. exact (proj1 (play_rejected_when_proxied k (fst s1) U2)).
Qed.

Lemma native_path_retries_once_through_proxy_witness :
  let env := {| hlsSupported := false; canPlayNativeHls := true |} in
  let c := {| ch_id := 1; ch_name := lit "News" |} in
  let p := fst (play env {| ch_id := 2; ch_name := lit "Film" |}
                  (lit "http://h/a.m3u8")
                  (fst (construct env {| forceProxy := false;
                                         forceTranscode := false |}))) in
  let r0 := play env c (lit "http://h/live.m3u8") p in
  snd (play_rejected 1 (fst r0)) =
    [ MkProxiedUrl (lit "http://h/live.m3u8");
      VideoSetSrc (lit "/api/proxy/stream?url=http%3A%2F%2Fh%2Flive.m3u8");
      VideoPlay ] /\
  snd (play_rejected 0 (fst (play_rejected 1 (fst r0)))) = [] /\
  snd (play_rejected 0 (fst r0)) =
    [ MkProxiedUrl (lit "http://h/a.m3u8");
      VideoSetSrc (lit "/api/proxy/stream?url=http%3A%2F%2Fh%2Fa.m3u8");
      VideoPlay ] /\
  snd (play_rejected 0 (fst (play_rejected 0 (fst r0)))) = [].
Proof.
  intros env c p.
  pose proof (native_path_retries_once_through_proxy env c
                (lit "http://h/live.m3u8") p
                eq_refl eq_refl eq_refl eq_refl eq_refl) as H.
  cbv zeta in H.
  destruct H as (_ & _ & _ & H4 & _ & _ & _ & H8 & H9).
  split; [exact H4|]. split; [exact (proj1 (H8 0%nat))|].
  destruct (H9 0%nat (lit "http://h/a.m3u8") eq_refl) as (A & _ & B).
  split; [exact A | exact (B 0%nat)].
Defined.

Lemma stop_no_error p : filter is_show_error (snd (stop p)) = [].
Proof. rewrite stop_actions. destruct (hls p); reflexivity. Qed.

Lemma stop_currentChannel p :
  currentChannel (fst (stop p)) = currentChannel p.
Proof. unfold stop. destruct (hls p); reflexivity. Qed.

(** X29: whenever the URL that [play] needs can be built (always, for a
    well-formed stream URL), [play] ends, on every path, by updating the
    now-playing display, showing the overlay, fetching the programme
    data and announcing the channel change, shows no error, and the
    channel is the current one.  When building the URL throws, it shows
    'Failed to play channel' instead and announces nothing. *)
Theorem play_announces_the_channel :
  forall (env : Env) (c : Channel) (streamUrl : jstr) (p : Player),
    Uri.well_formed streamUrl = true ->
    let r := play env c streamUrl p in
    (exists pre, snd r = pre ++ announcements c) /\
    filter is_show_error (snd r) = [] /\
    currentChannel (fst r) = Some c /\
    (forall bad : jstr,
        Uri.encodeURIComponent bad = None ->
        forceTranscode (settings p) || needsProxy (settings p) bad = true ->
        (exists pre, snd (play env c bad p)
                     = pre ++ [ShowError (lit "Failed to play channel")]) /\
        filter (fun a => match a with ChannelChanged _ => true | _ => false end)
               (snd (play env c bad p)) = []).
Proof.
  intros env c streamUrl p Hwf r. subst r.
  destruct (UriFacts.encode_well_formed streamUrl Hwf) as (e & He & _).
  pose proof (stop_settings (set_currentChannel (Some c) p)) as Hs.
  pose proof (stop_no_error (set_currentChannel (Some c) p)) as Hn.
  pose proof (stop_currentChannel (set_currentChannel (Some c) p)) as Hc.
  pose proof (stop_actions (set_currentChannel (Some c) p)) as Ha.
  unfold play. unfold getTranscodeUrl, getProxiedUrl. rewrite He.
  destruct (stop (set_currentChannel (Some c) p)) as [p1 a1].
  simpl in Hs, Hn, Hc, Ha.
  cbn [settings set_currentUrl option_map]. rewrite Hs.
  split; [|split; [|split]].
  - destruct (forceTranscode (settings p)).
    + eexists. cbn [snd]. rewrite !app_assoc. reflexivity.
    + destruct (needsProxy (settings p) streamUrl);
        destruct (_ && _); try destruct (canPlayNativeHls env);
        cbn [snd new_engine fst]; eexists; rewrite !app_assoc; reflexivity.
  - destruct (forceTranscode (settings p)).
    + cbn [snd]. rewrite !filter_app, Hn. reflexivity.
    + destruct (needsProxy (settings p) streamUrl);
        destruct (_ && _); try destruct (canPlayNativeHls env);
        cbn [snd new_engine fst]; rewrite !filter_app, Hn; reflexivity.
  - destruct (forceTranscode (settings p)).
    + cbn [fst]. exact Hc.
    + destruct (needsProxy (settings p) streamUrl);
        destruct (_ && _); try destruct (canPlayNativeHls env);
        cbn [fst new_engine]; exact Hc.
  - intros bad Hbad Hneed. rewrite Hbad. cbn [option_map].
    assert (Hf : filter (fun a => match a with ChannelChanged _ => true
                                          | _ => false end) a1 = []).
    { rewrite Ha. destruct (hls _); reflexivity. }
    destruct (forceTranscode (settings p)).
    + cbn [snd]. split; [eexists; rewrite !app_assoc; reflexivity|].
      rewrite !filter_app, Hf. reflexivity.
    + simpl in Hneed. rewrite Hneed. cbn [snd].
      split; [eexists; rewrite !app_assoc; reflexivity|].
      rewrite !filter_app, Hf. reflexivity.
Qed.

Lemma play_announces_the_channel_witness :
  let env := {| hlsSupported := true; canPlayNativeHls := false |} in
  let c := {| ch_id := 7; ch_name := lit "News" |} in
  let p := fst (construct env {| forceProxy := true; forceTranscode := false |}) in
  (exists pre, snd (play env c (lit "http://h/live.m3u8") p)
               = pre ++ announcements c) /\
  (exists pre, snd (play env c [0xDC00] p)
               = pre ++ [ShowError (lit "Failed to play channel")]).
Proof.
  intros env c p.
  pose proof (play_announces_the_channel env c (lit "http://h/live.m3u8") p
                eq_refl) as (H1 & _ & _ & H4).
  split; [exact H1|].
  exact (proj1 (H4 [0xDC00] eq_refl eq_refl)).
Defined.

End PlaybackPaths.

(** ** The transcode route: what the listeners accumulate *)
Module TranscodeEventsSpec.
Import Transcode TranscodeSpec TranscodeEvents.

Lemma dispatch_all_from st : forall evs,
  on_stderr_data (listeners st) = 1%nat ->
  on_req_close (listeners st) = 1%nat ->
  stderrBuffer (fst (dispatch_all st evs)) =
    stderrBuffer st ++ List.concat (stderr_chunks evs) /\
  filter is_kill (snd (dispatch_all st evs)) = repeat (Kill SIGKILL) (closes evs).
Proof.
  intros evs. revert st.
  induction evs as [|[ps e] evs IH]; intros st H1 H2.
  - simpl. rewrite app_nil_r. auto.
  - cbn [dispatch_all].
    pose proof (dispatch_listeners ps st e) as [HL _].
    destruct (dispatch ps st e) as [st1 a] eqn:E. simpl in HL.
    specialize (IH st1 ltac:(rewrite HL; exact H1) ltac:(rewrite HL; exact H2)).
    destruct (dispatch_all st1 evs) as [st2 b]. simpl in IH. cbn [fst snd].
    destruct IH as [IHs IHk]. rewrite filter_app, IHs, IHk.
    destruct e; simpl in E.
    + rewrite H1 in E. injection E as <- <-. simpl.
      rewrite <- app_assoc. auto.
    + rewrite H2 in E. injection E as <- <-. simpl. auto.
    + injection E as <- <-. split; [reflexivity|].
      replace (filter is_kill (times (on_exit (listeners st)) (exit_listener code)))
        with (@nil Effect); [reflexivity|].
      induction (on_exit (listeners st)) as [|k IHk']; [reflexivity|].
      cbn [times]. rewrite filter_app, <- IHk'.
      unfold exit_listener. destruct code as [z|]; [|reflexivity].
      destruct (negb (z =? 0) && negb (z =? 255)); reflexivity.
    + injection E as <- <-. split; [reflexivity|].
      replace (filter is_kill (times (on_error (listeners st))
                                 (error_listener headersSent)))
        with (@nil Effect); [reflexivity|].
      induction (on_error (listeners st)) as [|k IHk']; [reflexivity|].
      cbn [times]. rewrite filter_app, <- IHk'.
      destruct headersSent; reflexivity.
Qed.

(** X8: the handler keeps everything the transcoder writes to standard
    error: after any events, [stderrBuffer] is the concatenation of all
    chunks received so far, in order, so it grows with the output of the
    process without limit. *)
Theorem stderr_buffer_keeps_every_chunk :
  forall (r : Request) (url : jstr) (evs : list (ProcState * Event)),
    query_url r = Some url ->
    truthy url = true ->
    let st := fst (dispatch_all (fst (handler SpawnReturns r)) evs) in
    stderrBuffer st = List.concat (stderr_chunks evs) /\
    List.length (stderrBuffer st) =
      list_sum (map (@List.length Z) (stderr_chunks evs)).
Proof.
  intros r url evs Hq Ht st.
  assert (H : stderrBuffer st = List.concat (stderr_chunks evs)).
  { subst st.
    destruct (dispatch_all_from (fst (handler SpawnReturns r)) evs) as [H _];
      try (unfold handler; rewrite Hq, Ht; reflexivity).
    rewrite H. unfold handler. rewrite Hq, Ht. reflexivity. }
  split; [exact H|]. rewrite H.
  clear. induction (stderr_chunks evs) as [|m l IH]; [reflexivity|].
  simpl. rewrite length_app, IH. reflexivity.
Qed.

Lemma stderr_buffer_keeps_every_chunk_witness :
  let r := {| query_url := Some (lit "http://h/a.mkv"); ffmpegPath_local := None |} in
  let evs := [ (Running, StderrData (lit "warn 1;"));
               (Running, ProcExit (Some 1));
               (Exited (Some 1), StderrData (lit "warn 2;")) ] in
  stderrBuffer (fst (dispatch_all (fst (handler SpawnReturns r)) evs))
    = lit "warn 1;warn 2;".
Proof.
  exact (proj1 (stderr_buffer_keeps_every_chunk
    {| query_url := Some (lit "http://h/a.mkv"); ffmpegPath_local := None |}
    (lit "http://h/a.mkv")
    [ (Running, StderrData (lit "warn 1;"));
      (Running, ProcExit (Some 1));
      (Exited (Some 1), StderrData (lit "warn 2;")) ] eq_refl eq_refl)).
Defined.

(** X9: over the whole life of a request whose process was spawned, the
    kill signals sent are exactly one [SIGKILL] per delivery of the
    connection-close event: none without it, and no other event (process
    exit, process error, output on standard error) sends one. *)
Theorem kills_are_exactly_the_close_events :
  forall (r : Request) (url : jstr) (evs : list (ProcState * Event)),
    query_url r = Some url ->
    truthy url = true ->
    filter is_kill (snd (handler SpawnReturns r)) = [] /\
    filter is_kill (snd (dispatch_all (fst (handler SpawnReturns r)) evs))
      = repeat (Kill SIGKILL) (closes evs).
Proof.
  intros r url evs Hq Ht. split.
  - unfold handler. rewrite Hq, Ht. reflexivity.
  - apply dispatch_all_from; unfold handler; rewrite Hq, Ht; reflexivity.
Qed.

Lemma kills_are_exactly_the_close_events_witness :
  let r := {| query_url := Some (lit "http://h/a.mkv"); ffmpegPath_local := None |} in
  filter is_kill (snd (dispatch_all (fst (handler SpawnReturns r))
    [ (Running, StderrData (lit "x")); (Running, ProcError true);
      (Running, ProcExit (Some 255)) ])) = [].
Proof.
  exact (proj2 (kills_are_exactly_the_close_events
    {| query_url := Some (lit "http://h/a.mkv"); ffmpegPath_local := None |}
    (lit "http://h/a.mkv")
    [ (Running, StderrData (lit "x")); (Running, ProcError true);
      (Running, ProcExit (Some 255)) ] eq_refl eq_refl)).
Defined.

End TranscodeEventsSpec.

(** ** Facts about values and objects *)
Module JsFacts.
Import Js.

(** Additions whose result is within [2^53] in magnitude are exact. *)
Lemma to_double_exact z :
  - (MAX_SAFE_INTEGER + 1) <= z <= MAX_SAFE_INTEGER + 1 -> to_double z = z.
Proof.
  intros H. unfold to_double. cbv zeta.
  replace (Z.abs z <=? MAX_SAFE_INTEGER + 1) with true; [reflexivity|].
  symmetry. apply Z.leb_le. unfold MAX_SAFE_INTEGER in *. lia.
Qed.

(** Beyond, a result is rounded, a tie to the even significand. *)
Example to_double_rounds_to_even :
  to_double 9007199254740993 = 9007199254740992 /\
  to_double 9007199254740995 = 9007199254740996 /\
  to_double (-9007199254740993) = -9007199254740992 /\
  to_double 18014398509481986 = 18014398509481984 /\
  to_double 18014398509481987 = 18014398509481988 /\
  to_double 18014398509481990 = 18014398509481992.
Proof. repeat split; vm_compute; reflexivity. Qed.

Lemma strict_eq_true a b :
  strict_eq a b = true <-> a = b /\ a <> JNum NaN.
Proof.
  destruct a as [| |x|[x|]|x], b as [| |y|[y|]|y]; simpl;
    try (split; [discriminate | intros [H _]; discriminate H]);
    try (split; [intros _; split; [reflexivity | discriminate]
                | reflexivity]).
  - rewrite Bool.eqb_true_iff. split.
    + intros ->. split; [reflexivity | discriminate].
    + intros [H _]. congruence.
  - rewrite Z.eqb_eq. split.
    + intros ->. split; [reflexivity | discriminate].
    + intros [H _]. congruence.
  - split; [discriminate | intros [_ H]; congruence].
  - rewrite jstr_eqb_eq. split.
    + intros ->. split; [reflexivity | discriminate].
    + intros [H _]. congruence.
Qed.

Lemma strict_eq_refl a : a <> JNum NaN -> strict_eq a a = true.
Proof. intros H. apply strict_eq_true. auto. Qed.

Lemma strict_eq_sym a b : strict_eq a b = strict_eq b a.
Proof.
  destruct (strict_eq a b) eqn:E1, (strict_eq b a) eqn:E2; auto.
  - apply strict_eq_true in E1. destruct E1 as [-> H].
    rewrite (strict_eq_refl b H) in E2. discriminate.
  - apply strict_eq_true in E2. destruct E2 as [-> H].
    rewrite (strict_eq_refl a H) in E1. discriminate.
Qed.

Lemma json_val_strict_eq x v :
  strict_eq x v = true -> strict_eq (json_val x) v = true.
Proof.
  intros H. apply strict_eq_true in H. destruct H as [-> Hn].
  destruct v as [| |b|[z|]|s]; simpl; try reflexivity;
    try congruence.
  - apply Bool.eqb_reflx.
  - apply Z.eqb_refl.
  - apply jstr_eqb_refl.
Qed.

Lemma get_json_obj k o :
  is_obj o -> get k (json_obj o) = json_val (get k o).
Proof.
  unfold is_obj, json_obj. induction o as [|[k' v] o IH]; intros Hnd;
    [reflexivity|].
  simpl in Hnd. inversion Hnd as [|x xs Hnotin Hnd']; subst.
  cbn [filter map get fst snd].
  destruct (jstr_eqb k' k) eqn:E.
  - destruct v; cbn [map get fst snd]; rewrite ?E; try reflexivity.
    (* the property holds [undefined] and is left out *)
    apply jstr_eqb_eq in E. subst k'.
    assert (Hno : forall l : obj, ~ In k (map fst l) -> get k l = JUndef).
    { clear. induction l as [|[a b] l IH]; intros H; [reflexivity|].
      simpl in *. destruct (jstr_eqb a k) eqn:E.
      - apply jstr_eqb_eq in E. tauto.
      - apply IH. tauto. }
    apply Hno. intros Hin. apply Hnotin.
    rewrite map_map in Hin. simpl in Hin.
    apply in_map_iff in Hin. destruct Hin as ([a b] & Ha & Hb).
    apply filter_In in Hb. simpl in Ha. subst a.
    apply (in_map fst _ _ (proj1 Hb)).
  - destruct v; cbn [map get fst snd]; rewrite ?E; apply IH; exact Hnd'.
Qed.

Lemma get_set_same k v o : get k (set k v o) = v.
Proof.
  induction o as [|[k' v'] o IH]; simpl.
  - rewrite jstr_eqb_refl. reflexivity.
  - destruct (jstr_eqb k' k) eqn:E; simpl.
    + rewrite jstr_eqb_refl. reflexivity.
    + rewrite E. exact IH.
Qed.

Lemma get_set_other k k' v o :
  jstr_eqb k k' = false -> get k' (set k v o) = get k' o.
Proof.
  intros Hne. induction o as [|[a b] o IH]; simpl.
  - rewrite Hne. reflexivity.
  - destruct (jstr_eqb a k) eqn:E; simpl.
    + apply jstr_eqb_eq in E. subst a. rewrite Hne. reflexivity.
    + destruct (jstr_eqb a k'); [reflexivity | exact IH].
Qed.

Lemma has_set k k' v o : has k' (set k v o) = jstr_eqb k k' || has k' o.
Proof.
  induction o as [|[a b] o IH]; simpl.
  - reflexivity.
  - destruct (jstr_eqb a k) eqn:E; simpl.
    + apply jstr_eqb_eq in E. subst a.
      destruct (jstr_eqb k k'); reflexivity.
    + rewrite IH. destruct (jstr_eqb a k'), (jstr_eqb k k'); reflexivity.
Qed.

Lemma get_absent k o : has k o = false -> get k o = JUndef.
Proof.
  induction o as [|[a b] o IH]; simpl; [reflexivity|].
  destruct (jstr_eqb a k); simpl; [discriminate | exact IH].
Qed.

(** A property of [{...base, ...ext}] is that of [ext] when [ext] has
    it, that of [base] otherwise. *)
Lemma get_spread k ext : forall base,
  is_obj ext ->
  get k (spread base ext) = if has k ext then get k ext else get k base.
Proof.
  unfold spread, is_obj. induction ext as [|[a b] ext IH]; intros base Hnd;
    [reflexivity|].
  simpl in Hnd. inversion Hnd as [|x xs Hnotin Hnd']; subst.
  cbn [fold_left fst snd has get]. rewrite (IH _ Hnd').
  destruct (jstr_eqb a k) eqn:E.
  - apply jstr_eqb_eq in E. subst a. simpl.
    assert (Hh : has k ext = false).
    { clear - Hnotin. induction ext as [|[a b] l IH]; [reflexivity|].
      simpl in *. destruct (jstr_eqb a k) eqn:E.
      - apply jstr_eqb_eq in E. tauto.
      - apply IH. tauto. }
    rewrite Hh. apply get_set_same.
  - simpl. destruct (has k ext); [reflexivity|].
    apply get_set_other. exact E.
Qed.

Lemma get_omit_same k o : get k (omit k o) = JUndef /\ has k (omit k o) = false.
Proof.
  unfold omit. induction o as [|[a b] o IH]; simpl; [auto|].
  destruct (jstr_eqb a k) eqn:E; simpl; [exact IH|].
  rewrite E. exact IH.
Qed.

Lemma get_omit_other k k' o :
  jstr_eqb k k' = false -> get k' (omit k o) = get k' o.
Proof.
  intros Hne. unfold omit. induction o as [|[a b] o IH]; simpl; [reflexivity|].
  destruct (jstr_eqb a k) eqn:E; simpl.
  - apply jstr_eqb_eq in E. subst a. rewrite Hne. exact IH.
  - destruct (jstr_eqb a k'); [reflexivity | exact IH].
Qed.

End JsFacts.

(** ** The database: hidden items *)
Module HiddenItemsSpec.
Import Js JsFacts Database Database.HiddenItems.

Lemma find_existsb {A} (f : A -> bool) l :
  existsb f l = match find f l with Some _ => true | None => false end.
Proof.
  induction l as [|x l IH]; simpl; [reflexivity|].
  destruct (f x); [reflexivity | exact IH].
Qed.

Lemma stored_hiddenItems db :
  stored db -> map json_obj (hiddenItems db) = hiddenItems db.
Proof. intros H. apply (f_equal hiddenItems) in H. exact H. Qed.

Lemma same_item_json s t i h :
  is_obj h -> same_item s t i h = true -> same_item s t i (json_obj h) = true.
Proof.
  unfold same_item. intros Ho H.
  apply andb_true_iff in H. destruct H as [H H3].
  apply andb_true_iff in H. destruct H as [H1 H2].
  rewrite !get_json_obj by exact Ho.
  rewrite !json_val_strict_eq by assumption. reflexivity.
Qed.

Lemma new_item_is_obj n s t i : is_obj (new_item n s t i).
Proof.
  unfold is_obj, new_item. simpl.
  repeat constructor; simpl; intuition discriminate.
Qed.

Lemma new_item_same n z t i :
  t <> JNum NaN -> i <> JNum NaN ->
  same_item (Num z) t i (new_item n (Num z) t i) = true.
Proof.
  intros Ht Hi. unfold same_item, new_item. cbn [get].
  change (jstr_eqb (lit "id") (lit "source_id")) with false.
  change (jstr_eqb (lit "source_id") (lit "source_id")) with true.
  change (jstr_eqb (lit "id") (lit "item_type")) with false.
  change (jstr_eqb (lit "source_id") (lit "item_type")) with false.
  change (jstr_eqb (lit "item_type") (lit "item_type")) with true.
  change (jstr_eqb (lit "id") (lit "item_id")) with false.
  change (jstr_eqb (lit "source_id") (lit "item_id")) with false.
  change (jstr_eqb (lit "item_type") (lit "item_id")) with false.
  change (jstr_eqb (lit "item_id") (lit "item_id")) with true.
  cbv iota. rewrite (strict_eq_refl t Ht), (strict_eq_refl i Hi).
  simpl. rewrite Z.eqb_refl. reflexivity.
Qed.

(** X10: after [hide], the item is reported hidden by [isHidden], and
    hiding it once more writes nothing, provided the source identifier
    parses to a number and neither the item type nor the item identifier
    is [NaN]. *)
Theorem hide_makes_hidden_once :
  forall (z : Z) (itemType itemId : jsval) (db : Db),
    itemType <> JNum NaN ->
    itemId <> JNum NaN ->
    let db' := reload (hide (Num z) itemType itemId db) db in
    isHidden (Num z) itemType itemId db' = true /\
    hide (Num z) itemType itemId db' = None.
Proof.
  intros z t i db Ht Hi db'.
  assert (H : isHidden (Num z) t i db' = true).
  { subst db'. unfold hide, isHidden.
    destruct (find _ (hiddenItems db)) eqn:E.
    - simpl. rewrite find_existsb, E. reflexivity.
    - cbn [reload loadDb written f_hiddenItems or_empty hiddenItems
           bump set_hiddenItems].
      rewrite map_app, existsb_app. apply orb_true_iff. right.
      cbn [map existsb].
      rewrite same_item_json;
        [reflexivity | apply new_item_is_obj | apply new_item_same; assumption]. }
  split; [exact H|].
  unfold isHidden in H. rewrite find_existsb in H. unfold hide.
  destruct (find _ (hiddenItems db')); [reflexivity | discriminate].
Qed.

Lemma hide_makes_hidden_once_witness :
  let db' := reload (hide (Num 3) (JStr (lit "channel")) (JStr (lit "42")) emptyDb)
               emptyDb in
  isHidden (Num 3) (JStr (lit "channel")) (JStr (lit "42")) db' = true /\
  hide (Num 3) (JStr (lit "channel")) (JStr (lit "42")) db' = None.
Proof.
  apply (hide_makes_hidden_once 3 (JStr (lit "channel")) (JStr (lit "42")) emptyDb);
    discriminate.
Defined.

Lemma same_item_key s t i s' t' i' h :
  same_item s t i h = true -> same_item s' t' i' h = true ->
  (s', t', i') = (s, t, i).
Proof.
  unfold same_item. intros H H'.
  apply andb_true_iff in H. destruct H as [H H3].
  apply andb_true_iff in H. destruct H as [H1 H2].
  apply andb_true_iff in H'. destruct H' as [H' H3'].
  apply andb_true_iff in H'. destruct H' as [H1' H2'].
  apply strict_eq_true in H1, H2, H3, H1', H2', H3'.
  destruct H1 as [H1 _], H2 as [H2 _], H3 as [H3 _].
  destruct H1' as [H1' _], H2' as [H2' _], H3' as [H3' _].
  congruence.
Qed.

Lemma existsb_filter_other {A} (f g : A -> bool) l :
  (forall x, g x = true -> f x = true -> False) ->
  existsb g (filter (fun x => negb (f x)) l) = existsb g l.
Proof.
  intros H. induction l as [|x l IH]; simpl; [reflexivity|].
  destruct (f x) eqn:Ef; simpl.
  - destruct (g x) eqn:Eg; [exfalso; eauto | exact IH].
  - rewrite IH. reflexivity.
Qed.

Lemma existsb_filter_self {A} (f : A -> bool) l :
  existsb f (filter (fun x => negb (f x)) l) = false.
Proof.
  induction l as [|x l IH]; simpl; [reflexivity|].
  destruct (f x) eqn:Ef; simpl; [exact IH | rewrite Ef; exact IH].
Qed.

Lemma map_filter_fixed {A} (g : A -> A) (f : A -> bool) l :
  map g l = l -> map g (filter f l) = filter f l.
Proof.
  induction l as [|x l IH]; simpl; [reflexivity|].
  intros H. injection H as Hx Hl.
  destruct (f x); simpl; rewrite ?Hx, IH; auto.
Qed.

(** X11: after [show], the item is no longer reported hidden, whatever
    its key, and every other item is reported as before. *)
Theorem show_unhides_that_item_only :
  forall (sourceId : num) (itemType itemId : jsval) (db : Db),
    stored db ->
    let db' := reload (show sourceId itemType itemId db) db in
    isHidden sourceId itemType itemId db' = false /\
    forall s t i,
      (s, t, i) <> (sourceId, itemType, itemId) ->
      isHidden s t i db' = isHidden s t i db.
Proof.
  intros s0 t0 i0 db Hst db'. subst db'. unfold show, isHidden.
  cbn [reload loadDb written f_hiddenItems or_empty hiddenItems set_hiddenItems].
  rewrite (map_filter_fixed _ _ _ (stored_hiddenItems db Hst)).
  split; [apply existsb_filter_self|].
  intros s t i Hne. apply existsb_filter_other.
  intros h Hg Hf. apply Hne. apply (same_item_key _ _ _ _ _ _ h Hf Hg).
Qed.

Lemma show_unhides_that_item_only_witness :
  let db := reload (hide (Num 3) (JStr (lit "channel")) (JStr (lit "42")) emptyDb)
              emptyDb in
  isHidden (Num 3) (JStr (lit "channel")) (JStr (lit "42"))
    (reload (show (Num 3) (JStr (lit "channel")) (JStr (lit "42")) db) db) = false.
Proof.
  refine (proj1 (show_unhides_that_item_only (Num 3) (JStr (lit "channel"))
                   (JStr (lit "42")) _ _)).
  reflexivity.
Defined.

(** X12: [hide] changes nothing for the other items: the records
    already there are kept as they are, and any other item is reported
    hidden or not as before (the source identifier being a number and
    the item type and identifier not [NaN]). *)
Theorem hide_leaves_other_items_alone :
  forall (z : Z) (itemType itemId : jsval) (db : Db),
    stored db ->
    itemType <> JNum NaN ->
    itemId <> JNum NaN ->
    let db' := reload (hide (Num z) itemType itemId db) db in
    (exists added, hiddenItems db' = hiddenItems db ++ added) /\
    forall s t i,
      (s, t, i) <> (Num z, itemType, itemId) ->
      isHidden s t i db' = isHidden s t i db.
Proof.
  intros z t0 i0 db Hst Ht Hi db'. subst db'. unfold hide, isHidden.
  destruct (find _ (hiddenItems db)) eqn:E.
  - simpl. split; [exists []; rewrite app_nil_r; reflexivity | reflexivity].
  - cbn [reload loadDb written f_hiddenItems or_empty hiddenItems
         bump set_hiddenItems].
    rewrite map_app, (stored_hiddenItems db Hst).
    split; [eexists; reflexivity|].
    intros s t i Hne. rewrite existsb_app. cbn [map existsb].
    rewrite orb_false_r.
    destruct (same_item s t i (json_obj (new_item (nextId db) (Num z) t0 i0)))
      eqn:E2; [|apply orb_false_r].
    exfalso. apply Hne.
    pose proof (same_item_json (Num z) t0 i0 _
                  (new_item_is_obj (nextId db) (Num z) t0 i0)
                  (new_item_same (nextId db) z t0 i0 Ht Hi)) as E3.
    apply (same_item_key _ _ _ _ _ _ _ E3 E2).
Qed.

Lemma hide_leaves_other_items_alone_witness :
  let db := reload (hide (Num 3) (JStr (lit "channel")) (JStr (lit "42")) emptyDb)
              emptyDb in
  let db' := reload (hide (Num 3) (JStr (lit "channel")) (JStr (lit "43")) db) db in
  isHidden (Num 3) (JStr (lit "channel")) (JStr (lit "42")) db' = true /\
  isHidden (Num 4) (JStr (lit "channel")) (JStr (lit "43")) db' = false.
Proof.
  intros db db'.
  pose proof (hide_leaves_other_items_alone 3 (JStr (lit "channel"))
                (JStr (lit "43")) db eq_refl
                ltac:(discriminate) ltac:(discriminate)) as [_ H].
  cbv zeta in H. subst db'.
  split; [rewrite (H (Num 3) (JStr (lit "channel")) (JStr (lit "42")))
         | rewrite (H (Num 4) (JStr (lit "channel")) (JStr (lit "43")))];
    (reflexivity || discriminate).
Defined.

Lemma bulkHide_fold items : forall db m,
  let r := fold_left bulkHide_step items (db, m) in
  (exists added,
      hiddenItems (fst r) = hiddenItems db ++ added /\
      Forall is_obj added /\
      snd r = m || match added with [] => false | _ => true end) /\
  (forall z t i, In (Num z, t, i) items ->
      t <> JNum NaN -> i <> JNum NaN ->
      existsb (same_item (Num z) t i) (hiddenItems (fst r)) = true).
Proof.
  induction items as [|[[s0 t0] i0] items IH]; intros db m r.
  - subst r. simpl. split; [|contradiction].
    exists []. rewrite app_nil_r, orb_false_r. auto.
  - subst r. cbn [fold_left].
    set (acc := bulkHide_step (db, m) (s0, t0, i0)).
    replace (fold_left bulkHide_step items acc)
      with (fold_left bulkHide_step items (fst acc, snd acc))
      by (destruct acc; reflexivity).
    destruct (IH (fst acc) (snd acc)) as ((added & Ha & Hobj & Hm) & Hin).
    assert (Hacc :
      (fst acc = db /\ snd acc = m /\
       existsb (same_item s0 t0 i0) (hiddenItems db) = true) \/
      (hiddenItems (fst acc) = hiddenItems db ++ [new_item (nextId db) s0 t0 i0] /\
       snd acc = true)).
    { subst acc. unfold bulkHide_step. cbn [fst].
      destruct (find _ (hiddenItems db)) eqn:E.
      - left. rewrite find_existsb, E. auto.
      - right. auto. }
    split.
    + destruct Hacc as [(E1 & E2 & _) | (E1 & E2)].
      * exists added. rewrite Ha, Hm, E1, E2. auto.
      * exists (new_item (nextId db) s0 t0 i0 :: added).
        rewrite Ha, Hm, E1, E2, <- app_assoc. simpl.
        split; [reflexivity|]. split; [|rewrite orb_true_r; reflexivity].
        constructor; [apply new_item_is_obj | exact Hobj].
    + intros z t i [Heq | Hrest] Ht Hi; [|apply Hin; assumption].
      injection Heq as -> -> ->.
      rewrite Ha, existsb_app. apply orb_true_iff. left.
      destruct Hacc as [(E1 & _ & E3) | (E1 & _)].
      * rewrite E1. exact E3.
      * rewrite E1, existsb_app. apply orb_true_iff. right.
        simpl. rewrite new_item_same by assumption. reflexivity.
Qed.

(** X13: after [bulkHide], every listed item whose source identifier is
    a number and whose type and identifier are not [NaN] is reported
    hidden, and the records that were there are kept; and when every
    listed item is hidden already, [bulkHide] writes nothing. *)
Theorem bulkHide_hides_every_listed_item :
  forall (items : list (num * jsval * jsval)) (db : Db),
    stored db ->
    let db' := reload (bulkHide items db) db in
    (forall z t i, In (Num z, t, i) items ->
       t <> JNum NaN -> i <> JNum NaN ->
       isHidden (Num z) t i db' = true) /\
    (exists added, hiddenItems db' = hiddenItems db ++ added) /\
    ((forall s t i, In (s, t, i) items -> isHidden s t i db = true) ->
     bulkHide items db = None).
Proof.
  intros items db Hst db'.
  destruct (bulkHide_fold items db false) as ((added & Ha & Hobj & Hm) & Hin).
  split; [|split].
  - intros z t i Hi Ht Hid. specialize (Hin z t i Hi Ht Hid).
    subst db'. unfold bulkHide, isHidden.
    destruct (fold_left bulkHide_step items (db, false)) as [d m].
    cbn [fst snd] in *. destruct m; cbn [reload].
    + cbn [loadDb written f_hiddenItems or_empty hiddenItems].
      rewrite Ha, map_app, (stored_hiddenItems db Hst).
      rewrite Ha, existsb_app in Hin. rewrite existsb_app.
      apply orb_true_iff in Hin. apply orb_true_iff.
      destruct Hin as [Hin|Hin]; [left; exact Hin | right].
      apply existsb_exists in Hin. destruct Hin as (h & Hh & Hs).
      apply existsb_exists. exists (json_obj h).
      split; [apply in_map; exact Hh|].
      apply same_item_json; [|exact Hs].
      rewrite Forall_forall in Hobj. apply Hobj. exact Hh.
    + destruct added; [|discriminate Hm].
      rewrite app_nil_r in Ha. rewrite <- Ha. exact Hin.
  - subst db'. unfold bulkHide.
    destruct (fold_left bulkHide_step items (db, false)) as [d m].
    cbn [fst snd] in *. destruct m; cbn [reload].
    + cbn [loadDb written f_hiddenItems or_empty hiddenItems].
      rewrite Ha, map_app, (stored_hiddenItems db Hst). eexists; reflexivity.
    + exists []. rewrite app_nil_r. reflexivity.
  - intros Hall. unfold bulkHide.
    assert (Hsame : forall l acc,
              (forall s t i, In (s, t, i) l ->
                 isHidden s t i (fst acc) = true) ->
              fold_left bulkHide_step l acc = acc).
    { clear. induction l as [|[[s t] i] l IH]; intros acc H; [reflexivity|].
      cbn [fold_left].
      assert (E : bulkHide_step acc (s, t, i) = acc).
      { unfold bulkHide_step. specialize (H s t i (or_introl eq_refl)).
        unfold isHidden in H. rewrite find_existsb in H.
        destruct (find _ _); [reflexivity | discriminate]. }
      rewrite E. apply IH. intros s' t' i' Hin. apply H. right. exact Hin. }
    rewrite (Hsame items (db, false) Hall). reflexivity.
Qed.

Lemma bulkHide_hides_every_listed_item_witness :
  let items := [ (Num 1, JStr (lit "channel"), JStr (lit "a"));
                 (Num 1, JStr (lit "channel"), JStr (lit "a"));
                 (Num 2, JStr (lit "movie"), JNum (Num 7)) ] in
  let db' := reload (bulkHide items emptyDb) emptyDb in
  isHidden (Num 2) (JStr (lit "movie")) (JNum (Num 7)) db' = true /\
  List.length (hiddenItems db') = 2%nat.
Proof.
  intros items db'.
  pose proof (bulkHide_hides_every_listed_item items emptyDb eq_refl) as [H _].
  split; [|reflexivity].
  apply H; [simpl; auto | discriminate | discriminate].
Defined.

End HiddenItemsSpec.

(** ** The database: loading, writing, favorites *)
Module StoreSpec.
Import Js JsFacts Database HiddenItemsSpec.

Lemma json_val_idem v : json_val (json_val v) = json_val v.
Proof. destruct v as [| |b|[z|]|s]; reflexivity. Qed.

Lemma json_obj_idem o : json_obj (json_obj o) = json_obj o.
Proof.
  unfold json_obj. induction o as [|[k v] o IH]; [reflexivity|].
  cbn [filter snd].
  destruct v as [| |b|[z|]|s]; cbn [map filter fst snd json_val];
    try (f_equal; exact IH); exact IH.
Qed.

Lemma map_json_obj_idem l : map json_obj (map json_obj l) = map json_obj l.
Proof.
  rewrite map_map. apply map_ext. intros o. apply json_obj_idem.
Qed.

Lemma written_is_stored d : stored (loadDb (FileContent (written d))).
Proof.
  unfold stored.
  cbn [loadDb written f_sources f_hiddenItems f_favorites f_settings
       f_users f_nextId or_empty sources hiddenItems favorites settings
       users nextId].
  rewrite !map_json_obj_idem, json_obj_idem.
  destruct (nextId d =? 0) eqn:E; [reflexivity|]. rewrite E. reflexivity.
Qed.

(** X14: what [saveDb] writes is loaded back as a fixed point: loading
    the written file, writing the loaded database again and loading once
    more gives the same database; and a database is never loaded with
    [nextId] equal to zero. *)
Theorem written_database_reloads_unchanged :
  forall (d : Db) (r : ReadResult),
    stored (loadDb (FileContent (written d))) /\
    nextId (loadDb r) <> 0.
Proof.
  intros d r. split; [apply written_is_stored|].
  destruct r as [data| |]; cbn; try discriminate.
  destruct (f_nextId data) as [n|]; [|discriminate].
  destruct (n =? 0) eqn:E; [discriminate | apply Z.eqb_neq; exact E].
Qed.

Lemma stored_reload w db : stored db -> stored (reload w db).
Proof.
  intros H. destruct w as [d|]; [|exact H].
  apply written_is_stored.
Qed.

Lemma stored_favorites db :
  stored db -> map json_obj (favorites db) = favorites db.
Proof. intros H. apply (f_equal favorites) in H. exact H. Qed.

Section FavoritesFacts.
Import Favorites.

Lemma same_favorite_json s i t f :
  is_obj f -> same_favorite s i t f = true ->
  same_favorite s i t (json_obj f) = true.
Proof.
  unfold same_favorite. intros Ho H.
  apply andb_true_iff in H. destruct H as [H H3].
  apply andb_true_iff in H. destruct H as [H1 H2].
  rewrite !get_json_obj by exact Ho.
  rewrite !json_val_strict_eq by assumption. reflexivity.
Qed.

Lemma new_favorite_is_obj n s i t now : is_obj (new_favorite n s i t now).
Proof.
  unfold is_obj, new_favorite. simpl.
  repeat constructor; simpl; intuition discriminate.
Qed.

Lemma new_favorite_same n z i t now :
  t <> JNum NaN ->
  same_favorite (Num z) i t (new_favorite n (Num z) i t now) = true.
Proof.
  intros Ht. unfold same_favorite, new_favorite. cbn [get].
  change (jstr_eqb (lit "id") (lit "source_id")) with false.
  change (jstr_eqb (lit "source_id") (lit "source_id")) with true.
  change (jstr_eqb (lit "id") (lit "item_id")) with false.
  change (jstr_eqb (lit "source_id") (lit "item_id")) with false.
  change (jstr_eqb (lit "item_id") (lit "item_id")) with true.
  change (jstr_eqb (lit "id") (lit "item_type")) with false.
  change (jstr_eqb (lit "source_id") (lit "item_type")) with false.
  change (jstr_eqb (lit "item_id") (lit "item_type")) with false.
  change (jstr_eqb (lit "item_type") (lit "item_type")) with true.
  cbv iota. rewrite (strict_eq_refl t Ht). simpl.
  rewrite Z.eqb_refl, jstr_eqb_refl. reflexivity.
Qed.

Lemma or_channel_not_nan t : t <> JNum NaN -> or_channel t <> JNum NaN.
Proof. destruct t as [| |b|[z|]|s]; simpl; congruence. Qed.

End FavoritesFacts.

(** X15: adding a favorite makes [isFavorite] answer [true]; adding it
    again writes nothing; removing it makes [isFavorite] answer [false]
    (the source identifier being a number and the item type not [NaN];
    an omitted item type counts as ['channel'] in all three). *)
Theorem favorite_add_remove_round_trip :
  forall (now now' : jstr) (z : Z) (itemId : jstr) (itemType : jsval)
         (db : Db),
    stored db ->
    itemType <> JNum NaN ->
    let db1 := reload (Favorites.add now (Num z) itemId itemType db) db in
    let db2 := reload (Favorites.remove (Num z) itemId itemType db1) db1 in
    Favorites.isFavorite (Num z) itemId itemType db1 = true /\
    Favorites.add now' (Num z) itemId itemType db1 = None /\
    Favorites.isFavorite (Num z) itemId itemType db2 = false.
Proof.
  intros now now' z i t db Hst Ht db1 db2.
  pose proof (or_channel_not_nan t Ht) as Ht'.
  assert (H1 : Favorites.isFavorite (Num z) i t db1 = true).
  { subst db1. unfold Favorites.add, Favorites.isFavorite.
    destruct (find _ (favorites db)) eqn:E.
    - simpl. rewrite find_existsb, E. reflexivity.
    - cbn [reload loadDb written f_favorites or_empty favorites
           bump set_favorites].
      rewrite map_app, existsb_app. apply orb_true_iff. right.
      cbn [map existsb].
      rewrite same_favorite_json;
        [reflexivity | apply new_favorite_is_obj
        | apply new_favorite_same; exact Ht']. }
  split; [exact H1|]. split.
  - unfold Favorites.isFavorite in H1. rewrite find_existsb in H1.
    unfold Favorites.add.
    destruct (find _ (favorites db1)); [reflexivity | discriminate].
  - assert (Hst1 : stored db1) by (apply stored_reload; exact Hst).
    subst db2. unfold Favorites.remove, Favorites.isFavorite.
    cbn [reload loadDb written f_favorites or_empty favorites set_favorites].
    rewrite (map_filter_fixed _ _ _ (stored_favorites db1 Hst1)).
    apply existsb_filter_self.
Qed.

Lemma favorite_add_remove_round_trip_witness :
  let db1 := reload (Favorites.add (lit "2026-01-01T00:00:00.000Z") (Num 2)
                       (lit "17") JUndef emptyDb) emptyDb in
  Favorites.isFavorite (Num 2) (lit "17") (JStr (lit "channel")) db1 = true /\
  Favorites.isFavorite (Num 2) (lit "17") JUndef
    (reload (Favorites.remove (Num 2) (lit "17") JUndef db1) db1) = false.
Proof.
  pose proof (favorite_add_remove_round_trip (lit "2026-01-01T00:00:00.000Z")
                (lit "later") 2 (lit "17") JUndef emptyDb eq_refl
                ltac:(discriminate)) as (H1 & _ & H3).
  split; [exact H1 | exact H3].
Defined.

End StoreSpec.

(** ** The database: sources *)
Module SourcesSpec.
Import Js JsFacts Database HiddenItemsSpec StoreSpec.

Lemma stored_sources db : stored db -> map json_obj (sources db) = sources db.
Proof. intros H. apply (f_equal sources) in H. exact H. Qed.

Lemma json_obj_length o : (List.length (json_obj o) <= List.length o)%nat.
Proof.
  unfold json_obj. rewrite length_map.
  induction o as [|[k v] o IH]; simpl; [lia|].
  destruct v; simpl; lia.
Qed.

(** An object is written and read back unchanged exactly when none of
    its properties holds [undefined] or [NaN]. *)
Lemma json_fixed_iff o :
  json_obj o = o <-> Forall (fun kv => json_clean (snd kv)) o.
Proof.
  induction o as [|[k v] o IH].
  - split; [constructor | reflexivity].
  - split.
    + intros H. unfold json_obj in H. cbn [filter snd] in H.
      destruct v as [| |b|[z|]|s]; cbn [map fst snd json_val] in H;
        try (injection H as H; constructor;
             [split; discriminate | apply IH; exact H]).
      * exfalso. pose proof (json_obj_length o) as L.
        unfold json_obj in L. rewrite H in L. simpl in L. lia.
      * discriminate H.
    + intros H. inversion H as [|x xs [H1 H2] Hrest]; subst. simpl in H1, H2.
      apply IH in Hrest. unfold json_obj in *. cbn [filter snd].
      destruct v as [| |b|[z|]|s]; cbn [map fst snd json_val];
        try congruence.
  Qed.

Lemma set_clean k v o :
  json_clean v -> json_obj o = o -> json_obj (set k v o) = set k v o.
Proof.
  intros Hv Ho. apply json_fixed_iff. apply json_fixed_iff in Ho.
  induction Ho as [|[a b] o Hb Ho IH]; simpl.
  - constructor; [exact Hv | constructor].
  - destruct (jstr_eqb a k); constructor; auto.
Qed.

Lemma findIndex_spec {A} (f : A -> bool) l i :
  findIndex f l = Some i ->
  exists x, nth_error l i = Some x /\ f x = true /\ find f l = Some x.
Proof.
  revert i. induction l as [|y l IH]; intros i H; [discriminate|].
  simpl in H. simpl find. destruct (f y) eqn:E.
  - injection H as <-. exists y. auto.
  - destruct (findIndex f l) as [j|]; [|discriminate].
    injection H as <-. destruct (IH j eq_refl) as (x & Hx & Hf & Hfind).
    exists x. auto.
Qed.

Lemma find_findIndex {A} (f : A -> bool) l :
  find f l = None <-> findIndex f l = None.
Proof.
  induction l as [|y l IH]; simpl; [tauto|].
  destruct (f y); [split; discriminate|].
  destruct (findIndex f l); simpl; split; intros H;
    try discriminate; try reflexivity.
  - apply IH in H. discriminate.
  - apply IH. reflexivity.
Qed.

Lemma find_replace_same {A} (f : A -> bool) l i v :
  findIndex f l = Some i -> f v = true ->
  find f (replace_at i v l) = Some v.
Proof.
  revert i. induction l as [|y l IH]; intros i H Hv; [discriminate|].
  simpl in H. destruct (f y) eqn:E.
  - injection H as <-. simpl. rewrite Hv. reflexivity.
  - destruct (findIndex f l) as [j|]; [|discriminate].
    injection H as <-. simpl. rewrite E. apply IH; auto.
Qed.

Lemma find_replace_other {A} (g : A -> bool) l i v x :
  nth_error l i = Some x -> g x = false -> g v = false ->
  find g (replace_at i v l) = find g l.
Proof.
  revert i. induction l as [|y l IH]; intros i H Hx Hv; [destruct i; discriminate|].
  destruct i as [|j]; simpl in H.
  - injection H as ->. simpl. rewrite Hx, Hv. reflexivity.
  - simpl. destruct (g y); [reflexivity|]. apply (IH j); auto.
Qed.

Lemma map_replace_fixed {A} (h : A -> A) l i v :
  map h l = l -> h v = v -> map h (replace_at i v l) = replace_at i v l.
Proof.
  revert i. induction l as [|y l IH]; intros i Hl Hv;
    [destruct i; reflexivity|].
  simpl in Hl. injection Hl as Hy Hl.
  destruct i; simpl; [rewrite Hv, Hl | rewrite Hy, IH]; auto.
Qed.

Lemma map_fixed_nth {A} (h : A -> A) l i x :
  map h l = l -> nth_error l i = Some x -> h x = x.
Proof.
  revert i. induction l as [|y l IH]; intros i Hl Hn; [destruct i; discriminate|].
  simpl in Hl. injection Hl as Hy Hl.
  destruct i; simpl in Hn; [injection Hn as <-; exact Hy | eapply IH; eauto].
Qed.

Lemma has_id_inj a b s :
  Sources.has_id a s = true -> Sources.has_id b s = true -> a = b.
Proof.
  unfold Sources.has_id. intros Ha Hb.
  apply strict_eq_true in Ha, Hb. destruct Ha as [Ha _], Hb as [Hb _].
  congruence.
Qed.

(** X16: the source that [create] returns and stores is enabled and
    carries the two time stamps whatever the input says; an [id] in the
    input replaces the generated one, otherwise the identifier is
    [nextId]; every other property is the input's; and [nextId] moves on
    by one while it is a safe integer (beyond [2^53] the sum is rounded
    and the counter can stay where it is). *)
Theorem create_source_overrides_and_keeps :
  forall (created updated : jstr) (source : obj) (db : Db),
    is_obj source ->
    let s := fst (Sources.create created updated source db) in
    get (lit "enabled") s = JBool true /\
    get (lit "created_at") s = JStr created /\
    get (lit "updated_at") s = JStr updated /\
    get (lit "id") s = (if has (lit "id") source
                        then get (lit "id") source
                        else JNum (Num (nextId db))) /\
    (forall k,
        jstr_eqb (lit "enabled") k = false ->
        jstr_eqb (lit "created_at") k = false ->
        jstr_eqb (lit "updated_at") k = false ->
        jstr_eqb (lit "id") k = false ->
        get k s = get k source) /\
    exists d,
      snd (Sources.create created updated source db) = Some d /\
      sources d = sources db ++ [s] /\
      (- MAX_SAFE_INTEGER <= nextId db <= MAX_SAFE_INTEGER ->
       nextId d = nextId db + 1).
Proof.
  intros created updated source db Hobj s. subst s.
  unfold Sources.create, Sources.new_source. cbn [fst snd].
  repeat split.
  - rewrite get_set_other by reflexivity.
    rewrite get_set_other by reflexivity. apply get_set_same.
  - rewrite get_set_other by reflexivity. apply get_set_same.
  - apply get_set_same.
  - rewrite !get_set_other by reflexivity.
    rewrite get_spread by exact Hobj. reflexivity.
  - intros k H1 H2 H3 H4.
    rewrite !get_set_other by assumption.
    rewrite get_spread by exact Hobj.
    destruct (has k source) eqn:E; [reflexivity|].
    cbn [get]. rewrite H4. symmetry. apply get_absent. exact E.
  - exists (bump (set_sources
                    (sources db ++
                       [Sources.new_source (nextId db) source created updated])
                    db)).
    split; [reflexivity|]. split; [reflexivity|].
    intros Hsafe. cbn [nextId bump set_sources].
    apply to_double_exact. unfold MAX_SAFE_INTEGER in *. lia.
Qed.

Lemma create_source_overrides_and_keeps_witness :
  let source := [ (lit "name", JStr (lit "My list"));
                  (lit "enabled", JBool false);
                  (lit "id", JNum (Num 99)) ] in
  let s := fst (Sources.create (lit "t0") (lit "t1") source emptyDb) in
  get (lit "enabled") s = JBool true /\
  get (lit "id") s = JNum (Num 99) /\
  get (lit "name") s = JStr (lit "My list") /\
  option_map nextId (snd (Sources.create (lit "t0") (lit "t1") source emptyDb))
    = Some 2.
Proof.
  intros source s.
  pose proof (create_source_overrides_and_keeps (lit "t0") (lit "t1") source
                emptyDb) as H.
  destruct H as (H1 & _ & _ & H4 & H5 & (d & Hd & _ & H6)).
  - unfold is_obj. simpl. repeat constructor; simpl; intuition discriminate.
  - split; [exact H1|]. split; [exact H4|].
    split; [apply H5; reflexivity|].
    rewrite Hd. cbn [option_map]. f_equal.
    apply H6. unfold MAX_SAFE_INTEGER. simpl. lia.
Defined.

Lemma find_filter_other {A} (f g : A -> bool) l :
  (forall x, f x = true -> g x = true -> False) ->
  find f (filter (fun x => negb (g x)) l) = find f l.
Proof.
  intros H. induction l as [|x l IH]; simpl; [reflexivity|].
  destruct (g x) eqn:Eg; simpl.
  - destruct (f x) eqn:Ef; [exfalso; eauto | exact IH].
  - destruct (f x); [reflexivity | exact IH].
Qed.

Lemma find_filter_self {A} (f : A -> bool) l :
  find f (filter (fun x => negb (f x)) l) = None.
Proof.
  induction l as [|x l IH]; simpl; [reflexivity|].
  destruct (f x) eqn:Ef; simpl; [exact IH | rewrite Ef; exact IH].
Qed.

(** X17: deleting a source removes it and every hidden item of that
    source, and nothing else: other sources and the hidden items of other
    sources are found as before, and the favorites of the deleted source
    stay in the database. *)
Theorem delete_source_cascades_to_hidden_items_only :
  forall (id : num) (db : Db),
    stored db ->
    let db' := reload (Sources.delete id db) db in
    Sources.getById id db' = None /\
    (forall t i, HiddenItems.isHidden id t i db' = false) /\
    (forall id', id' <> id ->
       Sources.getById id' db' = Sources.getById id' db) /\
    (forall s t i, s <> id ->
       HiddenItems.isHidden s t i db' = HiddenItems.isHidden s t i db) /\
    favorites db' = favorites db /\
    users db' = users db.
Proof.
  intros id db Hst db'. subst db'. unfold Sources.delete.
  cbn [reload loadDb written f_sources f_hiddenItems f_favorites f_users
       or_empty sources hiddenItems favorites users set_hiddenItems set_sources].
  rewrite (map_filter_fixed _ _ _ (stored_sources db Hst)).
  rewrite (map_filter_fixed _ _ _ (stored_hiddenItems db Hst)).
  rewrite (stored_favorites db Hst).
  assert (Hu : map json_obj (users db) = users db)
    by (apply (f_equal users) in Hst; exact Hst).
  rewrite Hu.
  unfold Sources.getById, HiddenItems.isHidden.
  cbn [sources hiddenItems].
  split; [apply find_filter_self|]. split; [|split; [|split; [|split]]].
  - intros t i.
    destruct (existsb _ _) eqn:E; [|reflexivity].
    apply existsb_exists in E. destruct E as (h & Hin & Hs).
    apply filter_In in Hin. destruct Hin as [_ Hn].
    unfold HiddenItems.same_item in Hs.
    apply andb_true_iff in Hs. destruct Hs as [Hs _].
    apply andb_true_iff in Hs. destruct Hs as [Hs _].
    rewrite Hs in Hn. discriminate.
  - intros id' Hne. apply find_filter_other.
    intros x H1 H2. apply Hne. apply (has_id_inj _ _ x H1 H2).
  - intros s t i Hne.
    apply (existsb_filter_other
             (fun h => strict_eq (get (lit "source_id") h) (JNum id))).
    intros h Hs Hid. apply Hne.
    unfold HiddenItems.same_item in Hs.
    apply andb_true_iff in Hs. destruct Hs as [Hs _].
    apply andb_true_iff in Hs. destruct Hs as [Hs _].
    apply strict_eq_true in Hs, Hid. destruct Hs as [Hs _], Hid as [Hid _].
    congruence.
  - reflexivity.
  - reflexivity.
Qed.

Lemma delete_source_cascades_to_hidden_items_only_witness :
  let db0 := reload (snd (Sources.create (lit "t0") (lit "t0")
                            [(lit "name", JStr (lit "A"))] emptyDb)) emptyDb in
  let db1 := reload (HiddenItems.hide (Num 1) (JStr (lit "channel"))
                       (JStr (lit "5")) db0) db0 in
  let db2 := reload (Favorites.add (lit "t1") (Num 1) (lit "5") JUndef db1) db1 in
  let db' := reload (Sources.delete (Num 1) db2) db2 in
  Sources.getById (Num 1) db' = None /\
  HiddenItems.isHidden (Num 1) (JStr (lit "channel")) (JStr (lit "5")) db' = false /\
  Favorites.isFavorite (Num 1) (lit "5") JUndef db' = true.
Proof.
  intros db0 db1 db2 db'.
  pose proof (delete_source_cascades_to_hidden_items_only (Num 1) db2 eq_refl)
    as (H1 & H2 & _ & _ & H5 & _).
  split; [exact H1|]. split; [apply H2|].
  unfold Favorites.isFavorite. subst db'. rewrite H5. reflexivity.
Defined.

Lemma toggle_step now id db s0 :
  stored db ->
  Sources.getById id db = Some s0 ->
  let db1 := reload (snd (Sources.toggleEnabled now id db)) db in
  exists s1,
    Sources.getById id db1 = Some s1 /\
    get (lit "enabled") s1 = JBool (negb (truthy_val (get (lit "enabled") s0))) /\
    (forall id', id' <> id ->
       Sources.getById id' db1 = Sources.getById id' db) /\
    fst (Sources.toggleEnabled now id db) = Some s1.
Proof.
  intros Hst Hget db1. subst db1. unfold Sources.getById in *.
  unfold Sources.toggleEnabled.
  destruct (findIndex (Sources.has_id id) (sources db)) as [i|] eqn:Ei;
    [|apply find_findIndex in Ei; congruence].
  destruct (findIndex_spec _ _ _ Ei) as (x & Hn & Hx & Hf).
  assert (x = s0) by congruence. subst x. rewrite Hn.
  set (s1 := set (lit "updated_at") (JStr now)
               (set (lit "enabled")
                  (JBool (negb (truthy_val (get (lit "enabled") s0)))) s0)).
  assert (Hid : forall a, Sources.has_id a s1 = Sources.has_id a s0).
  { intros a. unfold Sources.has_id, s1.
    rewrite !get_set_other by reflexivity. reflexivity. }
  assert (Hfix : json_obj s1 = s1).
  { unfold s1. apply set_clean; [split; discriminate|].
    apply set_clean; [split; discriminate|].
    apply (map_fixed_nth _ _ _ _ (stored_sources db Hst) Hn). }
  cbn [fst snd reload loadDb written f_sources or_empty sources set_sources].
  rewrite (map_replace_fixed _ _ _ _ (stored_sources db Hst) Hfix).
  exists s1. split; [|split; [|split]].
  - apply find_replace_same; [exact Ei | rewrite Hid; exact Hx].
  - unfold s1. rewrite get_set_other by reflexivity. apply get_set_same.
  - intros id' Hne. apply (find_replace_other _ _ _ _ s0 Hn).
    + destruct (Sources.has_id id' s0) eqn:E; [|reflexivity].
      exfalso. apply Hne. apply (has_id_inj _ _ s0 E Hx).
    + rewrite Hid. destruct (Sources.has_id id' s0) eqn:E; [|reflexivity].
      exfalso. apply Hne. apply (has_id_inj _ _ s0 E Hx).
  - reflexivity.
Qed.

(** X18: [toggleEnabled] on a source that exists inverts whether it
    counts as enabled and leaves every other source as it was; toggling
    twice brings back the first answer.  On an identifier that no source
    has it returns [undefined] and writes nothing. *)
Theorem toggleEnabled_inverts_and_twice_restores :
  forall (now now' : jstr) (id : num) (db : Db),
    stored db ->
    let db1 := reload (snd (Sources.toggleEnabled now id db)) db in
    let db2 := reload (snd (Sources.toggleEnabled now' id db1)) db1 in
    (Sources.getById id db = None ->
     Sources.toggleEnabled now id db = (None, None)) /\
    (forall b, Sources.enabled_of id db = Some b ->
       Sources.enabled_of id db1 = Some (negb b) /\
       Sources.enabled_of id db2 = Some b) /\
    (forall id', id' <> id ->
       Sources.getById id' db1 = Sources.getById id' db).
Proof.
  intros now now' id db Hst db1 db2.
  split; [|split].
  - intros Hn. unfold Sources.getById in Hn. apply find_findIndex in Hn.
    unfold Sources.toggleEnabled. rewrite Hn. reflexivity.
  - intros b Hb. unfold Sources.enabled_of in *.
    destruct (Sources.getById id db) as [s0|] eqn:E0; [|discriminate].
    simpl in Hb. injection Hb as <-.
    destruct (toggle_step now id db s0 Hst E0) as (s1 & E1 & En1 & _ & _).
    fold db1 in E1. rewrite E1. simpl. rewrite En1. simpl.
    split; [reflexivity|].
    assert (Hst1 : stored db1) by (apply stored_reload; exact Hst).
    destruct (toggle_step now' id db1 s1 Hst1 E1) as (s2 & E2 & En2 & _ & _).
    fold db2 in E2. rewrite E2. simpl. rewrite En2, En1. simpl.
    rewrite negb_involutive. reflexivity.
  - intros id' Hne.
    destruct (Sources.getById id db) as [s0|] eqn:E0.
    + destruct (toggle_step now id db s0 Hst E0) as (_ & _ & _ & H & _).
      apply H. exact Hne.
    + subst db1. unfold Sources.getById in E0. apply find_findIndex in E0.
      unfold Sources.toggleEnabled. rewrite E0. reflexivity.
Qed.

Lemma toggleEnabled_inverts_and_twice_restores_witness :
  let db := reload (snd (Sources.create (lit "t0") (lit "t0")
                           [(lit "name", JStr (lit "A"))] emptyDb)) emptyDb in
  let db1 := reload (snd (Sources.toggleEnabled (lit "t1") (Num 1) db)) db in
  Sources.enabled_of (Num 1) db = Some true /\
  Sources.enabled_of (Num 1) db1 = Some false.
Proof.
  intros db db1.
  pose proof (toggleEnabled_inverts_and_twice_restores (lit "t1") (lit "t2")
                (Num 1) db eq_refl) as (_ & H & _).
  split; [reflexivity|]. exact (proj1 (H true eq_refl)).
Defined.

End SourcesSpec.

(** ** The database: settings *)
Module SettingsSpec.
Import Js JsFacts Database StoreSpec SourcesSpec.

Lemma has_spread k ext : forall base,
  has k (spread base ext) = has k base || has k ext.
Proof.
  unfold spread. induction ext as [|[a b] ext IH]; intros base;
    cbn [fold_left fst snd has].
  - rewrite orb_false_r. reflexivity.
  - rewrite IH, has_set.
    destruct (jstr_eqb a k), (has k base), (has k ext); reflexivity.
Qed.

Lemma has_in k (o : obj) : has k o = true <-> In k (map fst o).
Proof.
  induction o as [|[a b] o IH]; simpl; [split; [discriminate | tauto]|].
  rewrite orb_true_iff, IH, jstr_eqb_eq. tauto.
Qed.

Lemma set_keys k v o :
  map fst (set k v o) = if has k o then map fst o else map fst o ++ [k].
Proof.
  induction o as [|[a b] o IH]; simpl; [reflexivity|].
  destruct (jstr_eqb a k) eqn:E; simpl.
  - apply jstr_eqb_eq in E. subst a. reflexivity.
  - rewrite IH. destruct (has k o); reflexivity.
Qed.

Lemma is_obj_set k v o : is_obj o -> is_obj (set k v o).
Proof.
  unfold is_obj. intros H. rewrite set_keys.
  destruct (has k o) eqn:E; [exact H|].
  apply NoDup_app; [exact H | repeat constructor; simpl; tauto|].
  intros x Hx [<-|[]]. apply has_in in Hx. congruence.
Qed.

Lemma is_obj_spread ext : forall base, is_obj base -> is_obj (spread base ext).
Proof.
  unfold spread. induction ext as [|[a b] ext IH]; intros base H; [exact H|].
  cbn [fold_left]. apply IH. apply is_obj_set. exact H.
Qed.

Lemma clean_set k v (o : obj) :
  json_clean v -> Forall (fun kv => json_clean (snd kv)) o ->
  Forall (fun kv => json_clean (snd kv)) (set k v o).
Proof.
  intros Hv Ho. induction Ho as [|[a b] o Hb Ho IH]; simpl.
  - constructor; [exact Hv | constructor].
  - destruct (jstr_eqb a k); constructor; auto.
Qed.

Lemma clean_spread (ext : obj) : forall base : obj,
  Forall (fun kv => json_clean (snd kv)) base ->
  Forall (fun kv => json_clean (snd kv)) ext ->
  Forall (fun kv => json_clean (snd kv)) (spread base ext).
Proof.
  unfold spread. induction ext as [|[a b] ext IH]; intros base Hb He;
    [exact Hb|].
  inversion He as [|x xs Hx Hxs]; subst. cbn [fold_left fst snd].
  apply IH; [apply clean_set; assumption | exact Hxs].
Qed.

Lemma get_copy k o : is_obj o -> get k (spread [] o) = get k o.
Proof.
  intros H. rewrite get_spread by exact H.
  destruct (has k o) eqn:E; [reflexivity|].
  symmetry. apply get_absent. exact E.
Qed.

Lemma get_settings_lookup db k :
  is_obj (settings db) ->
  get k (SettingsApi.get_settings db) =
    (if has k (settings db) then get k (settings db)
     else get k getDefaultSettings).
Proof.
  intros Hobj. unfold SettingsApi.get_settings.
  rewrite get_spread by exact Hobj.
  destruct (has k (settings db)); [reflexivity|].
  apply get_copy. unfold is_obj. simpl.
  repeat constructor; simpl; intuition discriminate.
Qed.

(** X19: [settings.get] answers with the stored value of every setting
    the database holds and with the default of every other one; so every
    default setting is always present. *)
Theorem settings_get_fills_in_defaults :
  forall (db : Db) (k : jstr),
    is_obj (settings db) ->
    get k (SettingsApi.get_settings db) =
      (if has k (settings db) then get k (settings db)
       else get k getDefaultSettings) /\
    (has k getDefaultSettings = true ->
     has k (SettingsApi.get_settings db) = true).
Proof.
  intros db k Hobj. split; [apply get_settings_lookup; exact Hobj|].
  intros H. unfold SettingsApi.get_settings.
  rewrite !has_spread, H. reflexivity.
Qed.

Lemma settings_get_fills_in_defaults_witness :
  let db := set_settings [(lit "forceProxy", JBool true)] emptyDb in
  get (lit "forceProxy") (SettingsApi.get_settings db) = JBool true /\
  get (lit "streamFormat") (SettingsApi.get_settings db) = JStr (lit "m3u8").
Proof.
  intros db.
  assert (Hobj : is_obj (settings db))
    by (unfold is_obj; simpl; repeat constructor; simpl; tauto).
  split.
  - exact (proj1 (settings_get_fills_in_defaults db (lit "forceProxy") Hobj)).
  - exact (proj1 (settings_get_fills_in_defaults db (lit "streamFormat") Hobj)).
Defined.

(** X20: after [settings.update(newSettings)], [settings.get] answers
    with the new value of every setting that [newSettings] names and as
    before for every other one (the new values being neither [undefined]
    nor [NaN]); after [settings.reset], it answers with the defaults. *)
Theorem settings_update_then_get :
  forall (newSettings : obj) (db : Db) (k : jstr),
    stored db ->
    is_obj (settings db) ->
    is_obj newSettings ->
    Forall (fun kv => json_clean (snd kv)) newSettings ->
    let db' := reload (snd (SettingsApi.update newSettings db)) db in
    get k (SettingsApi.get_settings db') =
      (if has k newSettings then get k newSettings
       else get k (SettingsApi.get_settings db)) /\
    SettingsApi.get_settings (reload (snd (SettingsApi.reset db)) db)
      = getDefaultSettings.
Proof.
  intros ns db k Hst Hobj Hns Hclean db'. split; [|reflexivity].
  assert (Hfix : json_obj (settings db) = settings db)
    by (apply (f_equal settings) in Hst; exact Hst).
  set (s' := spread (spread [] (settings db)) ns).
  assert (Hs' : settings db' = s').
  { subst db'. unfold SettingsApi.update.
    cbn [snd reload loadDb written f_settings settings set_settings].
    apply json_fixed_iff. apply clean_spread; [|exact Hclean].
    apply clean_spread; [constructor | apply json_fixed_iff; exact Hfix]. }
  assert (Hobj' : is_obj s').
  { unfold s'. apply is_obj_spread, is_obj_spread. constructor. }
  rewrite (get_settings_lookup db' k) by (rewrite Hs'; exact Hobj').
  rewrite (get_settings_lookup db k Hobj).
  rewrite Hs'. unfold s'.
  rewrite !has_spread, get_spread by exact Hns. simpl has.
  rewrite get_copy by exact Hobj.
  destruct (has k ns); [rewrite orb_true_r; reflexivity|].
  rewrite orb_false_r. reflexivity.
Qed.

Lemma settings_update_then_get_witness :
  let ns := [(lit "forceTranscode", JBool true)] in
  let db' := reload (snd (SettingsApi.update ns emptyDb)) emptyDb in
  get (lit "forceTranscode") (SettingsApi.get_settings db') = JBool true /\
  get (lit "defaultVolume") (SettingsApi.get_settings db') = JNum (Num 80).
Proof.
  intros ns db'.
  assert (H : forall k,
    get k (SettingsApi.get_settings db') =
      (if has k ns then get k ns
       else get k (SettingsApi.get_settings emptyDb))).
  { intros k.
    apply (settings_update_then_get ns emptyDb k); try reflexivity.
    - unfold is_obj. simpl. repeat constructor; simpl; intuition discriminate.
    - unfold is_obj. simpl. repeat constructor; simpl; tauto.
    - repeat constructor; discriminate. }
  split; [apply (H (lit "forceTranscode")) | apply (H (lit "defaultVolume"))].
Defined.

End SettingsSpec.

(** ** The database: users *)
Module UsersSpec.
Import Js JsFacts Database HiddenItemsSpec StoreSpec SourcesSpec SettingsSpec.

Lemma new_user_is_obj n userData now : is_obj (Users.new_user n userData now).
Proof.
  unfold is_obj, Users.new_user. simpl.
  repeat constructor; simpl; intuition discriminate.
Qed.

(** X21: [create] throws 'Username already exists' whenever the
    database it loads has a user with the user name given; in particular
    the [create] that comes next after a [create] for a name, with
    nothing else written in between, throws for that name, whether the
    first call succeeded or threw (the name not being [NaN]).  What a
    successful [create] returns has no [passwordHash], while the record
    it stores keeps the one given. *)
Theorem create_user_refuses_a_taken_name :
  forall (now now' : jstr) (userData other : obj) (db : Db),
    get (lit "username") other = get (lit "username") userData ->
    get (lit "username") userData <> JNum NaN ->
    let r := Users.create now userData db in
    let db1 := reload (Users.written_by r) db in
    Users.create now' other db1 = Throws (lit "Username already exists") /\
    (forall db',
        existsb (Users.has_username (get (lit "username") userData))
                (users db') = true ->
        Users.create now' other db' = Throws (lit "Username already exists")) /\
    (forall ret w, r = Returns ret w ->
       has (lit "passwordHash") ret = false /\
       get (lit "username") ret = get (lit "username") userData /\
       exists d u,
         w = Some d /\ users d = users db ++ [u] /\
         get (lit "passwordHash") u = get (lit "passwordHash") userData).
Proof.
  intros now now' userData other db Hsame Hname r db1. split; [|split].
  - subst db1 r. unfold Users.create at 2.
    destruct (existsb _ (users db)) eqn:E.
    + simpl. unfold Users.create. rewrite Hsame, E. reflexivity.
    + cbn [Users.written_by reload loadDb written f_users or_empty users
           bump set_users].
      unfold Users.create. rewrite Hsame.
      cbn [users]. rewrite map_app, existsb_app.
      replace (existsb _ (map json_obj [Users.new_user (nextId db) userData now]))
        with true; [rewrite orb_true_r; reflexivity|].
      cbn [map existsb]. unfold Users.has_username.
      rewrite get_json_obj by apply new_user_is_obj.
      rewrite json_val_strict_eq; [reflexivity|].
      unfold Users.new_user. cbn [get].
      change (jstr_eqb (lit "id") (lit "username")) with false.
      change (jstr_eqb (lit "username") (lit "username")) with true.
      cbv iota. apply strict_eq_refl. exact Hname.
  - intros db' Hhas. unfold Users.create. rewrite Hsame, Hhas. reflexivity.
  - intros ret w Hr. subst r. unfold Users.create in Hr.
    destruct (existsb _ (users db)); [discriminate|].
    injection Hr as <- <-.
    split; [reflexivity|]. split; [reflexivity|].
    eexists. eexists. split; [reflexivity|]. split; reflexivity.
Qed.

Lemma create_user_refuses_a_taken_name_witness :
  let userData := [ (lit "username", JStr (lit "ann"));
                    (lit "passwordHash", JStr (lit "$2b$hash"));
                    (lit "role", JStr (lit "admin")) ] in
  let other := [ (lit "username", JStr (lit "ann"));
                 (lit "passwordHash", JStr (lit "x")) ] in
  let db1 := reload (Users.written_by (Users.create (lit "t0") userData emptyDb))
               emptyDb in
  Users.create (lit "t1") other db1 = Throws (lit "Username already exists").
Proof.
  intros userData other db1.
  exact (proj1 (create_user_refuses_a_taken_name (lit "t0") (lit "t1")
                  userData other emptyDb eq_refl ltac:(discriminate))).
Defined.

Lemma filter_remove_at {A} (f : A -> bool) l : forall i x,
  nth_error l i = Some x ->
  List.length (filter f l) =
    (List.length (filter f (remove_at i l)) + (if f x then 1 else 0))%nat.
Proof.
  induction l as [|y l IH]; intros i x H; [destruct i; discriminate|].
  destruct i as [|j]; simpl in H.
  - injection H as ->. simpl. destruct (f x); simpl; lia.
  - simpl. specialize (IH j x H). destruct (f y); simpl; lia.
Qed.

Lemma existsb_filter_length {A} (f : A -> bool) l :
  existsb f l = true <-> (1 <= List.length (filter f l))%nat.
Proof.
  induction l as [|y l IH]; simpl; [split; [discriminate | lia]|].
  destruct (f y); simpl; [split; [lia | reflexivity] | exact IH].
Qed.

Lemma remove_at_length {A} (l : list A) : forall i x,
  nth_error l i = Some x ->
  List.length l = S (List.length (remove_at i l)).
Proof.
  induction l as [|y l IH]; intros i x H; [destruct i; discriminate|].
  destruct i as [|j]; simpl in *; [reflexivity|].
  rewrite (IH j x H). reflexivity.
Qed.

(** X22: [users.delete] never removes the last administrator: when it
    succeeds on a database that has an administrator, the database it
    writes has one less user and still has an administrator.  It throws
    'User not found' for an identifier that no user has, and 'Cannot
    delete the last admin user' for the only administrator. *)
Theorem delete_user_keeps_an_admin :
  forall (id : num) (db : Db),
    (Users.getById id db = None ->
     Users.delete id db = Throws (lit "User not found")) /\
    (forall u, Users.getById id db = Some u ->
       Users.is_admin u = true ->
       List.length (filter Users.is_admin (users db)) = 1%nat ->
       Users.delete id db = Throws (lit "Cannot delete the last admin user")) /\
    (forall ret w, Users.delete id db = Returns ret w ->
       exists d,
         w = Some d /\
         List.length (users db) = S (List.length (users d)) /\
         (existsb Users.is_admin (users db) = true ->
          existsb Users.is_admin (users d) = true)).
Proof.
  intros id db. unfold Users.getById, Users.delete. split; [|split].
  - intros H. apply find_findIndex in H. rewrite H. reflexivity.
  - intros u Hu Ha Hc.
    destruct (findIndex (Users.has_id id) (users db)) as [i|] eqn:Ei;
      [|apply find_findIndex in Ei; congruence].
    destruct (findIndex_spec _ _ _ Ei) as (x & Hn & _ & Hf).
    assert (x = u) by congruence. subst x.
    rewrite Hn, Ha, Hc. reflexivity.
  - intros ret w Hr.
    destruct (findIndex (Users.has_id id) (users db)) as [i|] eqn:Ei;
      [|discriminate].
    destruct (findIndex_spec _ _ _ Ei) as (x & Hn & _ & _).
    rewrite Hn in Hr.
    destruct (Users.is_admin x && _) eqn:E; [discriminate|].
    injection Hr as <- <-. eexists. split; [reflexivity|].
    cbn [users set_users]. split; [apply (remove_at_length _ _ _ Hn)|].
    intros Hadm. apply existsb_filter_length in Hadm.
    apply existsb_filter_length.
    pose proof (filter_remove_at Users.is_admin _ _ _ Hn) as Hl.
    destruct (Users.is_admin x); simpl in E.
    + apply Nat.leb_gt in E. lia.
    + lia.
Qed.

Lemma unique_app l n :
  Users.unique_usernames l ->
  existsb (Users.has_username (get (lit "username") n)) l = false ->
  Users.unique_usernames (l ++ [n]).
Proof.
  induction l as [|u l IH]; intros Hu Hn; simpl.
  - auto.
  - simpl in Hu, Hn. destruct Hu as [Hu1 Hu2].
    apply orb_false_iff in Hn. destruct Hn as [Hn1 Hn2].
    split; [|apply IH; assumption].
    rewrite existsb_app, Hu1. simpl. rewrite orb_false_r.
    unfold Users.has_username in *. rewrite strict_eq_sym. exact Hn1.
Qed.

Lemma existsb_remove_at {A} (f : A -> bool) l : forall i,
  existsb f l = false -> existsb f (remove_at i l) = false.
Proof.
  induction l as [|y l IH]; intros i H; [destruct i; reflexivity|].
  simpl in H. apply orb_false_iff in H. destruct H as [H1 H2].
  destruct i; simpl; [exact H2 | rewrite H1; apply IH; exact H2].
Qed.

Lemma unique_remove_at l : forall i,
  Users.unique_usernames l -> Users.unique_usernames (remove_at i l).
Proof.
  induction l as [|u l IH]; intros i H; [destruct i; exact H|].
  simpl in H. destruct H as [H1 H2].
  destruct i; simpl; [exact H2|].
  split; [apply existsb_remove_at; exact H1 | apply IH; exact H2].
Qed.

(** X23: [users.create] and [users.delete] keep user names unique: if
    no two users of the loaded database have the same name, the same
    holds of the database written. *)
Theorem user_names_stay_unique :
  forall (now : jstr) (userData : obj) (id : num) (db : Db),
    Users.unique_usernames (users db) ->
    (forall ret d, Users.create now userData db = Returns ret (Some d) ->
       Users.unique_usernames (users d)) /\
    (forall ret d, Users.delete id db = Returns ret (Some d) ->
       Users.unique_usernames (users d)).
Proof.
  intros now userData id db Hu. split.
  - intros ret d Hr. unfold Users.create in Hr.
    destruct (existsb _ (users db)) eqn:E; [discriminate|].
    injection Hr as _ <-. cbn [users bump set_users].
    apply unique_app; [exact Hu|]. exact E.
  - intros ret d Hr. unfold Users.delete in Hr.
    destruct (findIndex _ _) as [i|]; [|discriminate].
    destruct (nth_error _ _); [|discriminate].
    destruct (_ && _); [discriminate|].
    injection Hr as _ <-. cbn [users set_users].
    apply unique_remove_at. exact Hu.
Qed.

Lemma user_names_stay_unique_witness :
  let ann := [ (lit "username", JStr (lit "ann")) ] in
  let bob := [ (lit "username", JStr (lit "bob")) ] in
  let db := reload (Users.written_by (Users.create (lit "t0") ann emptyDb))
              emptyDb in
  match Users.written_by (Users.create (lit "t1") bob db) with
  | Some d => Users.unique_usernames (users d)
  | None => False
  end.
Proof.
  intros ann bob db.
  assert (Hu : Users.unique_usernames (users db)) by (simpl; auto).
  pose proof (proj1 (user_names_stay_unique (lit "t1") bob (Num 1) db Hu)) as H.
  exact (H _ _ eq_refl).
Defined.

Lemma existsb_replace_same {A} (g : A -> bool) l : forall i v old,
  nth_error l i = Some old -> g v = g old ->
  existsb g (replace_at i v l) = existsb g l.
Proof.
  induction l as [|y l IH]; intros i v old H Hg; [destruct i; discriminate|].
  destruct i as [|j]; simpl in H.
  - injection H as ->. simpl. rewrite Hg. reflexivity.
  - simpl. rewrite (IH j v old H Hg). reflexivity.
Qed.

Lemma existsb_replace_false {A} (g : A -> bool) l : forall i v,
  existsb g l = false -> g v = false ->
  existsb g (replace_at i v l) = false.
Proof.
  induction l as [|y l IH]; intros i v H Hg; [destruct i; reflexivity|].
  simpl in H. apply orb_false_iff in H. destruct H as [H1 H2].
  destruct i; simpl; [rewrite Hg; exact H2 | rewrite H1; apply IH; assumption].
Qed.

Lemma unique_replace_same l : forall i v old,
  Users.unique_usernames l ->
  nth_error l i = Some old ->
  get (lit "username") v = get (lit "username") old ->
  Users.unique_usernames (replace_at i v l).
Proof.
  induction l as [|u l IH]; intros i v old Hu Hn Hv; [destruct i; discriminate|].
  simpl in Hu. destruct Hu as [H1 H2].
  destruct i as [|j]; simpl in Hn.
  - injection Hn as ->. simpl. rewrite Hv. auto.
  - simpl. split; [|apply (IH j v old); assumption].
    rewrite (existsb_replace_same _ _ _ _ _ Hn); [exact H1|].
    unfold Users.has_username. rewrite Hv. reflexivity.
Qed.

Lemma unique_replace_fresh l : forall i v,
  Users.unique_usernames l ->
  existsb (Users.has_username (get (lit "username") v)) l = false ->
  Users.unique_usernames (replace_at i v l).
Proof.
  induction l as [|u l IH]; intros i v Hu Hf; [destruct i; exact I|].
  simpl in Hu, Hf. destruct Hu as [H1 H2].
  apply orb_false_iff in Hf. destruct Hf as [Hf1 Hf2].
  destruct i as [|j]; simpl.
  - auto.
  - split; [|apply IH; assumption].
    apply existsb_replace_false; [exact H1|].
    unfold Users.has_username in *. rewrite strict_eq_sym. exact Hf1.
Qed.

Lemma nth_error_Forall {A} (P : A -> Prop) l i x :
  Forall P l -> nth_error l i = Some x -> P x.
Proof.
  intros H Hn. rewrite Forall_forall in H. apply H.
  apply (nth_error_In _ _ Hn).
Qed.

(** X24: [users.update] keeps user names unique as well, provided
    [updates] either has no [username] or a truthy one (an empty or
    [null] user name is stored without the check); and what it returns
    has no [passwordHash]. *)
Theorem update_user_keeps_names_unique :
  forall (now : jstr) (id : num) (updates : obj) (db : Db)
         (ret : obj) (d : Db),
    Users.unique_usernames (users db) ->
    Forall is_obj (users db) ->
    is_obj updates ->
    has (lit "username") updates = false \/
      truthy_val (get (lit "username") updates) = true ->
    Users.update now id updates db = Returns ret (Some d) ->
    Users.unique_usernames (users d) /\
    has (lit "passwordHash") ret = false.
Proof.
  intros now id updates db ret d Hu Hobjs Hupd Hname Hr.
  unfold Users.update in Hr.
  destruct (findIndex _ _) as [i|] eqn:Ei; [|discriminate].
  destruct (findIndex_spec _ _ _ Ei) as (old & Hn & _ & _).
  rewrite Hn in Hr.
  pose proof (nth_error_Forall _ _ _ _ Hobjs Hn) as Hold.
  set (name := get (lit "username") updates) in *.
  destruct (truthy_val name && negb (strict_eq name (get (lit "username") old))
            && existsb (Users.has_username name) (users db)) eqn:E;
    [discriminate|].
  injection Hr as <- <-. split; [|apply get_omit_same].
  cbn [users set_users].
  set (u := set (lit "updatedAt") (JStr now) (spread (spread [] old) updates)).
  assert (Hun : get (lit "username") u =
                if has (lit "username") updates then name
                else get (lit "username") old).
  { unfold u. rewrite get_set_other by reflexivity.
    rewrite get_spread by exact Hupd. fold name.
    destruct (has (lit "username") updates); [reflexivity|].
    apply get_copy. exact Hold. }
  destruct (has (lit "username") updates) eqn:Eh.
  - destruct Hname as [Hname|Hname]; [discriminate|]. fold name in Hname.
    rewrite Hname in E. simpl in E.
    destruct (strict_eq name (get (lit "username") old)) eqn:Es; simpl in E.
    + apply strict_eq_true in Es. destruct Es as [Es _].
      apply (unique_replace_same _ _ _ old Hu Hn). congruence.
    + apply unique_replace_fresh; [exact Hu|]. rewrite Hun. exact E.
  - apply (unique_replace_same _ _ _ old Hu Hn). exact Hun.
Qed.

Lemma update_user_keeps_names_unique_witness :
  let ann := [ (lit "username", JStr (lit "ann"));
               (lit "passwordHash", JStr (lit "h")) ] in
  let db := reload (Users.written_by (Users.create (lit "t0") ann emptyDb))
              emptyDb in
  match Users.update (lit "t1") (Num 1) [(lit "username", JStr (lit "anna"))] db with
  | Returns ret (Some d) =>
    Users.unique_usernames (users d) /\ has (lit "passwordHash") ret = false
  | _ => False
  end.
Proof.
  intros ann db.
  refine (update_user_keeps_names_unique (lit "t1") (Num 1)
            [(lit "username", JStr (lit "anna"))] db _ _ _ _ _ _ eq_refl).
  - simpl. auto.
  - repeat constructor; simpl; intuition discriminate.
  - repeat constructor; simpl; tauto.
  - right. reflexivity.
Defined.

End UsersSpec.

(** ** The database: identifiers *)
Module IdentifiersSpec.
Import Js JsFacts Database.

Lemma ids_below_mono n m l : n <= m -> ids_below n l -> ids_below m l.
Proof.
  intros Hle H. unfold ids_below in *. rewrite Forall_forall in *.
  intros o Ho. destruct (H o Ho) as (z & Hz & Hlt). exists z. split; [auto | lia].
Qed.

Lemma ids_below_app n l o z :
  ids_below n l -> get (lit "id") o = JNum (Num z) -> z < n ->
  ids_below n (l ++ [o]).
Proof.
  intros H Ho Hz. unfold ids_below. apply Forall_app. split; [exact H|].
  constructor; [exists z; auto | constructor].
Qed.

Lemma to_double_succ z :
  - MAX_SAFE_INTEGER <= z <= MAX_SAFE_INTEGER -> to_double (z + 1) = z + 1.
Proof.
  intros H. apply to_double_exact. unfold MAX_SAFE_INTEGER in *. lia.
Qed.

(** At [2^53] the counter no longer moves: the next record gets the
    identifier that the last one got. *)
Lemma bump_stays_at_2_53 db :
  nextId db = MAX_SAFE_INTEGER + 1 -> nextId (bump db) = nextId db.
Proof. intros H. cbn [nextId bump]. rewrite H. vm_compute. reflexivity. Qed.

Lemma fresh_bump_app db :
  fresh_ids db ->
  forall z, z = nextId db ->
  ids_below (z + 1) (sources db) /\ ids_below (z + 1) (hiddenItems db) /\
  ids_below (z + 1) (favorites db) /\ ids_below (z + 1) (users db).
Proof.
  intros (H1 & H2 & H3 & H4) z ->.
  repeat split; eapply ids_below_mono; try eassumption; lia.
Qed.

(** X25: in a database where every record has a number below [nextId]
    as its identifier and [nextId] is a safe integer (at most
    [2^53 - 1] in magnitude), no record carries the identifier that the
    next record will get, and [hiddenItems.hide], [favorites.add] and
    [users.create] keep it so: the record they add gets [nextId], which
    then moves on by one. *)
Theorem new_records_get_unused_identifiers :
  forall (db : Db),
    fresh_ids db ->
    - MAX_SAFE_INTEGER <= nextId db <= MAX_SAFE_INTEGER ->
    (forall o,
        In o (sources db ++ hiddenItems db ++ favorites db ++ users db) ->
        strict_eq (get (lit "id") o) (JNum (Num (nextId db))) = false) /\
    (forall s t i d, HiddenItems.hide s t i db = Some d ->
       fresh_ids d /\ nextId d = nextId db + 1 /\
       exists h, hiddenItems d = hiddenItems db ++ [h] /\
                 get (lit "id") h = JNum (Num (nextId db))) /\
    (forall now s i t d, Favorites.add now s i t db = Some d ->
       fresh_ids d /\ nextId d = nextId db + 1 /\
       exists f, favorites d = favorites db ++ [f] /\
                 get (lit "id") f = JNum (Num (nextId db))) /\
    (forall now userData ret d,
       Users.create now userData db = Returns ret (Some d) ->
       fresh_ids d /\ nextId d = nextId db + 1 /\
       get (lit "id") ret = JNum (Num (nextId db))).
Proof.
  intros db Hf Hsafe.
  pose proof (fresh_bump_app db Hf (nextId db) eq_refl)
    as (B1 & B2 & B3 & B4).
  split; [|split; [|split]].
  - intros o Ho. destruct Hf as (H1 & H2 & H3 & H4).
    assert (Hall : ids_below (nextId db)
              (sources db ++ hiddenItems db ++ favorites db ++ users db)).
    { unfold ids_below in *. repeat (apply Forall_app; split); assumption. }
    unfold ids_below in Hall. rewrite Forall_forall in Hall.
    destruct (Hall o Ho) as (z & -> & Hlt). simpl.
    apply Z.eqb_neq. lia.
  - intros s t i d Hd. unfold HiddenItems.hide in Hd.
    destruct (find _ _); [discriminate|]. injection Hd as <-.
    cbn [nextId bump set_hiddenItems]. rewrite (to_double_succ _ Hsafe).
    split; [|split; [reflexivity | eexists; split; reflexivity]].
    unfold fresh_ids.
    cbn [sources hiddenItems favorites users nextId bump set_hiddenItems].
    rewrite (to_double_succ _ Hsafe).
    repeat split; try assumption.
    apply (ids_below_app _ _ _ (nextId db)); [exact B2 | reflexivity | lia].
  - intros now s i t d Hd. unfold Favorites.add in Hd.
    destruct (find _ _); [discriminate|]. injection Hd as <-.
    cbn [nextId bump set_favorites]. rewrite (to_double_succ _ Hsafe).
    split; [|split; [reflexivity | eexists; split; reflexivity]].
    unfold fresh_ids.
    cbn [sources hiddenItems favorites users nextId bump set_favorites].
    rewrite (to_double_succ _ Hsafe).
    repeat split; try assumption.
    apply (ids_below_app _ _ _ (nextId db)); [exact B3 | reflexivity | lia].
  - intros now userData ret d Hd. unfold Users.create in Hd.
    destruct (existsb _ _); [discriminate|]. injection Hd as <- <-.
    cbn [nextId bump set_users]. rewrite (to_double_succ _ Hsafe).
    split; [|split; reflexivity].
    unfold fresh_ids.
    cbn [sources hiddenItems favorites users nextId bump set_users].
    rewrite (to_double_succ _ Hsafe).
    repeat split; try assumption.
    apply (ids_below_app _ _ _ (nextId db)); [exact B4 | reflexivity | lia].
Qed.

Lemma new_records_get_unused_identifiers_witness :
  let db := reload (HiddenItems.hide (Num 1) (JStr (lit "channel"))
                      (JStr (lit "5")) emptyDb) emptyDb in
  match Favorites.add (lit "t") (Num 1) (lit "5") JUndef db with
  | Some d => fresh_ids d /\ nextId d = 3
  | None => False
  end.
Proof.
  intros db.
  assert (Hf : fresh_ids db).
  { unfold fresh_ids, ids_below. simpl.
    repeat split; repeat constructor.
    exists 1. split; reflexivity. }
  assert (Hs : - MAX_SAFE_INTEGER <= nextId db <= MAX_SAFE_INTEGER)
    by (vm_compute; split; discriminate).
  destruct (new_records_get_unused_identifiers db Hf Hs) as (_ & _ & H & _).
  destruct (H (lit "t") (Num 1) (lit "5") JUndef _ eq_refl) as (A & B & _).
  split; [exact A | exact B].
Defined.

End IdentifiersSpec.

(** ** Settings, keyboard and overlay of the video player *)
Module PlayerUiSpec.
Import Js JsFacts SettingsSpec PlayerUi.

(** X26: [loadSettings] answers with the saved value of every setting
    that the saved object has and with the default of every other one;
    with nothing saved, or when reading or parsing fails, it answers with
    the defaults, under which [play] neither forces the proxy nor
    transcodes. *)
Theorem loadSettings_fills_in_defaults :
  forall (o : obj) (k : jstr),
    is_obj o ->
    get k (loadSettings (Parsed o)) =
      (if has k o then get k o else get k defaults) /\
    (has k defaults = true -> has k (loadSettings (Parsed o)) = true) /\
    loadSettings NoItem = defaults /\
    loadSettings StorageFailed = defaults /\
    player_settings defaults =
      {| Player.forceProxy := false; Player.forceTranscode := false |}.
Proof.
  intros o k Hobj. repeat split.
  - unfold loadSettings. rewrite get_spread by exact Hobj.
    destruct (has k o); [reflexivity|].
    apply get_copy. unfold is_obj. simpl.
    repeat constructor; simpl; intuition discriminate.
  - intros H. unfold loadSettings. rewrite !has_spread, H. reflexivity.
Qed.

Lemma loadSettings_fills_in_defaults_witness :
  let o := [(lit "forceTranscode", JBool true)] in
  player_settings (loadSettings (Parsed o)) =
    {| Player.forceProxy := false; Player.forceTranscode := true |}.
Proof.
  intros o.
  assert (Hobj : is_obj o) by (unfold is_obj; simpl; repeat constructor; simpl; tauto).
  unfold player_settings.
  rewrite (proj1 (loadSettings_fills_in_defaults o (lit "forceProxy") Hobj)).
  rewrite (proj1 (loadSettings_fills_in_defaults o (lit "forceTranscode") Hobj)).
  reflexivity.
Defined.

Lemma clear_when_one_timer o : one_timer o -> clear_overlay_timer o = [].
Proof.
  intros ([H | (id & Hid & Ht)] & _ & _); unfold clear_overlay_timer.
  - rewrite H. destruct (overlayTimer o); reflexivity.
  - rewrite Hid, Ht. simpl. rewrite Nat.eqb_refl. reflexivity.
Qed.

Lemma one_timer_step op o : one_timer o -> one_timer (overlay_step op o).
Proof.
  intros H. pose proof (clear_when_one_timer o H) as Hc.
  destruct H as (Ht & Hb & Ho).
  destruct op as [| |id|]; simpl.
  - unfold showNowPlayingOverlay. destruct (hasChannel o);
      [|repeat split; assumption].
    rewrite Hc. repeat split; simpl.
    + right. exists (next_timer o). auto.
    + repeat constructor.
    + lia.
  - unfold hideNowPlayingOverlay. rewrite Hc. repeat split; simpl; auto.
  - unfold timeout_fires.
    destruct (existsb (Nat.eqb id) (timers o)) eqn:E;
      [|repeat split; assumption].
    repeat split; simpl; [|apply incl_Forall with (2 := Hb);
                            intros x Hx; apply filter_In in Hx; tauto
                          |exact Ho].
    left. destruct Ht as [Ht | (id' & _ & Ht)]; rewrite Ht in *.
    + reflexivity.
    + simpl in E. rewrite orb_false_r in E. apply Nat.eqb_eq in E. subst id'.
      simpl. rewrite Nat.eqb_refl. reflexivity.
  - repeat split; assumption.
Qed.

Lemma one_timer_run ops : forall o, one_timer o -> one_timer (overlay_run ops o).
Proof.
  unfold overlay_run. induction ops as [|op ops IH]; intros o H; [exact H|].
  simpl. apply IH. apply one_timer_step. exact H.
Qed.

(** X27: whatever sequence of showing, hiding, elapsing time-outs and
    channel selections has happened, at most one time-out of the overlay
    is pending, the one in [overlayTimer]; showing the overlay again
    replaces it, so that afterwards only the newest time-out can hide
    the overlay; and without a current channel, showing does nothing. *)
Theorem overlay_has_one_pending_timeout :
  forall (pageHidden : bool) (ops : list OverlayOp),
    let o := overlay_run ops (overlay_init pageHidden) in
    one_timer o /\
    (List.length (timers o) <= 1)%nat /\
    (hasChannel o = true ->
     let o' := showNowPlayingOverlay o in
     timers o' = [next_timer o] /\ hidden o' = false /\
     forall id, id <> next_timer o -> timeout_fires id o' = o') /\
    (hasChannel o = false -> showNowPlayingOverlay o = o).
Proof.
  intros pageHidden ops o.
  assert (H : one_timer o).
  { apply one_timer_run. unfold one_timer, overlay_init. simpl.
    repeat split; auto. }
  split; [exact H|]. split; [|split].
  - destruct H as ([-> | (id & _ & ->)] & _); simpl; lia.
  - intros Hc o'. subst o'. unfold showNowPlayingOverlay. rewrite Hc.
    rewrite (clear_when_one_timer o H). simpl.
    split; [reflexivity|]. split; [reflexivity|].
    intros id Hne. unfold timeout_fires. simpl.
    destruct (Nat.eqb id (next_timer o)) eqn:E; [|reflexivity].
    apply Nat.eqb_eq in E. contradiction.
  - intros Hc. unfold showNowPlayingOverlay. rewrite Hc. reflexivity.
Qed.

Lemma min1_range x : (0 <= x)%Q -> (0 <= min1 x <= 1)%Q.
Proof.
  intros H. unfold min1. destruct (Qle_bool 1 x) eqn:E.
  - split; [discriminate | apply Qle_refl].
  - split; [exact H|]. apply Qlt_le_weak. apply Qnot_le_lt.
    intros Hle. apply Qle_bool_iff in Hle. congruence.
Qed.

Lemma max0_range x : (x <= 1)%Q -> (0 <= max0 x <= 1)%Q.
Proof.
  intros H. unfold max0. destruct (Qle_bool x 0) eqn:E.
  - split; [apply Qle_refl | discriminate].
  - split; [|exact H]. apply Qlt_le_weak. apply Qnot_le_lt.
    intros Hle. apply Qle_bool_iff in Hle. congruence.
Qed.

Lemma volume_after_key b key k :
  let v := volume (fst (handleKeyboard b key k)) in
  v = volume k \/ v = min1 (volume k + (1 # 10))%Q
  \/ v = max0 (volume k - (1 # 10))%Q.
Proof.
  unfold handleKeyboard.
  destruct b; [left; reflexivity|].
  repeat match goal with
         | |- context [if ?c then _ else _] => destruct c
         end; simpl; auto.
Qed.

Lemma volume_in_range_step b key k :
  (0 <= volume k <= 1)%Q ->
  (0 <= volume (fst (handleKeyboard b key k)) <= 1)%Q.
Proof.
  intros [H0 H1].
  destruct (volume_after_key b key k) as [E | [E | E]]; rewrite E.
  - auto.
  - apply min1_range.
    apply Qle_trans with (1 := H0).
    rewrite <- (Qplus_0_r (volume k)) at 1.
    apply Qplus_le_r. discriminate.
  - apply max0_range.
    apply Qle_trans with (2 := H1).
    rewrite <- (Qplus_0_r (volume k)) at 2.
    unfold Qminus. apply Qplus_le_r. discriminate.
Qed.

(** X28: the keyboard shortcuts never move the volume out of the range
    from 0 to 1, whatever keys are pressed; a key pressed while the
    focus is in an input field does nothing at all; and when the arrow
    keys change channels, the up and down arrows are left to the page
    (no change, default not prevented) while left and right change the
    volume. *)
Theorem keyboard_keeps_volume_in_range :
  forall (presses : list (bool * string)) (k : Keys),
    (0 <= volume k <= 1)%Q ->
    (0 <= volume (keys_run presses k) <= 1)%Q /\
    (forall key, handleKeyboard true key k = (k, [])) /\
    (arrowKeysChangeChannel k = true ->
     handleKeyboard false "ArrowUp" k = (k, []) /\
     handleKeyboard false "ArrowDown" k = (k, []) /\
     handleKeyboard false "ArrowLeft" k = (volume_down k, [PreventDefault]) /\
     handleKeyboard false "ArrowRight" k = (volume_up k, [PreventDefault])).
Proof.
  intros presses k Hv. split; [|split].
  - revert k Hv. unfold keys_run.
    induction presses as [|[b key] presses IH]; intros k Hv; [exact Hv|].
    simpl. apply IH. apply volume_in_range_step. exact Hv.
  - reflexivity.
  - intros Ha. unfold handleKeyboard. simpl. rewrite Ha. auto.
Qed.

Lemma keyboard_keeps_volume_in_range_witness :
  let k := {| volume := (95 # 100)%Q; kpaused := false; muted := false;
              arrowKeysChangeChannel := true;
              overlay := overlay_init true |} in
  (0 <= volume (keys_run [ (false, "ArrowRight"%string);
                           (false, "ArrowRight"%string);
                           (true, "ArrowLeft"%string) ] k) <= 1)%Q.
Proof.
  intros k.
  refine (proj1 (keyboard_keeps_volume_in_range _ k _)).
  split; discriminate.
Defined.

End PlayerUiSpec.
